(** * Storybook: the narrated-video export of [src/app/page.tsx]

    A shallow embedding of [downloadVideo] (page.tsx, lines 220-343): the
    per-page segment command handed to FFmpeg, the concat manifest, and the
    control flow around them (guards, [try]/[catch]/[finally], the
    [Promise.all] batches and the segment loop).

    JavaScript [Number]s are IEEE-754 binary64 values, modelled by Rocq's
    primitive floats; array buffers are lists of bytes; the external
    collaborators (the narration endpoint, html2canvas, the FFmpeg wasm
    instance, the runtime's number formatting) are fields of a [World]
    record, so every general theorem holds for all of their behaviours. *)

From Stdlib Require Import PrimFloat FloatOps SpecFloat.
From Stdlib Require Import ZArith QArith Qminmax Lia Bool.
From Stdlib Require Import Ascii String List Permutation.
From Stdlib Require Import Decimal DecimalString DecimalNat.
Import ListNotations.

Local Open Scope list_scope.
Local Open Scope string_scope.

(* ================================================================= *)
(** ** JavaScript helpers *)

Module JS.

(** An [ArrayBuffer] / [Uint8Array] / [Blob] payload. *)
Definition Bytes := list Byte.byte.

(** [`${i}`] for a loop index: the decimal numeral of a non-negative
    integer. *)
Definition natToString (n : nat) : string :=
  NilEmpty.string_of_uint (Nat.to_uint n).

(** [Array.prototype.join]. *)
Fixpoint join (sep : string) (xs : list string) : string :=
  match xs with
  | [] => EmptyString
  | [x] => x
  | x :: rest => x ++ sep ++ join sep rest
  end.

(** [new TextEncoder().encode(s)]; a Rocq string already is a byte
    sequence. *)
Definition encode (s : string) : Bytes := list_byte_of_string s.

(** [a || b] on strings: the empty string is falsy. *)
Definition orElse (a b : string) : string :=
  match a with
  | EmptyString => b
  | _ => a
  end.

(** The line feed used by [listFile.join("\n")]. *)
Definition LF : string := String "010" EmptyString.

(** The lines of a text: the pieces between line feeds. *)
Fixpoint lines (s : string) : list string :=
  match s with
  | EmptyString => [EmptyString]
  | String c rest =>
      if Ascii.eqb c "010" then EmptyString :: lines rest
      else match lines rest with
           | [] => [String c EmptyString]
           | l :: ls => String c l :: ls
           end
  end.

(** Whether a line feed occurs in a string. *)
Fixpoint hasLF (s : string) : bool :=
  match s with
  | EmptyString => false
  | String c rest => Ascii.eqb c "010" || hasLF rest
  end.

End JS.
Import JS.

(* ================================================================= *)
(** ** Data model (page.tsx, lines 9-20) *)

Record StoryPage : Type := mkStoryPage {
  text : string;
  imagePrompt : string;
  imageUrl : option string;
  (** An object URL made by [URL.createObjectURL(blob)] is represented by
      the blob it designates: [fetch(url).blob()] gives that blob back. *)
  audioUrl : option Bytes
}.

Record StoryData : Type := mkStoryData {
  title : string;
  pages : list StoryPage;
  prompt : string
}.

(** [{ blob, name }], the elements of [images]. *)
Record PageImage : Type := mkPageImage {
  blob : Bytes;
  name : string
}.

(* ================================================================= *)
(** ** FFmpeg filtergraph syntax

    The [-filter_complex] argument is a text in FFmpeg's filtergraph
    syntax: chains separated by [;], each chain a list of filters
    separated by [,] between bracketed input and output pad labels, each
    filter [name=arg:arg:...], an argument either [key=value] or a list
    of values separated by [|]. *)

Module Filtergraph.

Inductive Val : Type :=
| VText (s : string)          (** characters written in the template *)
| VNat (n : nat)              (** an integer literal of the template *)
| VNum (x : float).           (** an interpolated JavaScript number *)

Inductive Arg : Type :=
| KV (key : string) (value : Val)
| Pos (values : list Val).

Record Filter : Type := mkFilter {
  fname : string;
  fargs : list Arg
}.

Record Chain : Type := mkChain {
  ins : list string;
  filters : list Filter;
  outs : list string
}.

Definition Graph := list Chain.

Section Render.
(** How the runtime prints an interpolated number. *)
Variable numToString : float -> string.

Definition renderVal (v : Val) : string :=
  match v with
  | VText s => s
  | VNat n => natToString n
  | VNum x => numToString x
  end.

Definition renderArg (a : Arg) : string :=
  match a with
  | KV k v => k ++ "=" ++ renderVal v
  | Pos vs => join "|" (map renderVal vs)
  end.

Definition renderFilter (f : Filter) : string :=
  fname f ++ "=" ++ join ":" (map renderArg (fargs f)).

Definition renderPad (l : string) : string := "[" ++ l ++ "]".

Definition renderChain (c : Chain) : string :=
  join EmptyString (map renderPad (ins c))
    ++ join "," (map renderFilter (filters c))
    ++ join EmptyString (map renderPad (outs c)).

Definition renderGraph (g : Graph) : string :=
  join ";" (map renderChain g).
End Render.

(** Lookups used to read a graph back. *)
Definition chainTo (label : string) (g : Graph) : option Chain :=
  find (fun c => existsb (String.eqb label) (outs c)) g.

Definition filterNamed (n : string) (c : Chain) : option Filter :=
  find (fun f => String.eqb n (fname f)) (filters c).

Fixpoint option_ (key : string) (args : list Arg) : option Val :=
  match args with
  | [] => None
  | KV k v :: rest => if String.eqb key k then Some v else option_ key rest
  | Pos _ :: rest => option_ key rest
  end.

Fixpoint positional (args : list Arg) : option (list Val) :=
  match args with
  | [] => None
  | Pos vs :: _ => Some vs
  | KV _ _ :: rest => positional rest
  end.

(** The filter [filter] of the chain that feeds pad [label]. *)
Definition filterAt (label filter : string) (g : Graph) : option Filter :=
  match chainTo label g with
  | Some c => filterNamed filter c
  | None => None
  end.

Definition filterOption (label filter key : string) (g : Graph)
  : option Val :=
  match filterAt label filter g with
  | Some f => option_ key (fargs f)
  | None => None
  end.

Definition filterPositional (label filter : string) (g : Graph)
  : option (list Val) :=
  match filterAt label filter g with
  | Some f => positional (fargs f)
  | None => None
  end.

Definition chainInputs (label : string) (g : Graph) : option (list string) :=
  option_map ins (chainTo label g).

End Filtergraph.
Import Filtergraph.

(* ================================================================= *)
(** ** The two FFmpeg commands (page.tsx, lines 287-310 and 319-329) *)

Section Commands.
Variable numToString : float -> string.
Variables holdTime fadeTime : float.

(** The template literal of lines 297-299. *)
Definition filterComplex : string :=
  "[0:v]format=yuv420p,fade=t=out:st="
    ++ numToString (holdTime - fadeTime)%float
    ++ ":d=" ++ numToString fadeTime
    ++ "[v1];[1:a]adelay=0|0[a1];[2:a]adelay="
    ++ numToString ((holdTime - fadeTime) * 1000)%float
    ++ "|" ++ numToString ((holdTime - fadeTime) * 1000)%float
    ++ "[a2];[a1][a2]amix=inputs=2:duration=shortest[aout]".

(** [const outName = `seg${i}.mp4`] *)
Definition outName (i : nat) : string := "seg" ++ natToString i ++ ".mp4".

(** The argument array of the per-page [ffmpeg.exec]. *)
Definition segmentArgs (imageName : string) (i : nat) : list string :=
  [ "-loop"; "1";
    "-i"; imageName;
    "-i"; "audio" ++ natToString i ++ ".mp3";
    "-i"; "whoosh.mp3";
    "-filter_complex"; filterComplex;
    "-map"; "[v1]";
    "-map"; "[aout]";
    "-c:v"; "libx264";
    "-c:a"; "aac";
    "-shortest";
    outName i ].

(** The same graph, as a syntax tree. *)
Definition segmentGraph : Graph :=
  [ mkChain ["0:v"]
      [ mkFilter "format" [Pos [VText "yuv420p"]];
        mkFilter "fade" [ KV "t" (VText "out");
                          KV "st" (VNum (holdTime - fadeTime)%float);
                          KV "d" (VNum fadeTime) ] ]
      ["v1"];
    mkChain ["1:a"]
      [ mkFilter "adelay" [Pos [VNat 0; VNat 0]] ]
      ["a1"];
    mkChain ["2:a"]
      [ mkFilter "adelay"
          [Pos [ VNum ((holdTime - fadeTime) * 1000)%float;
                 VNum ((holdTime - fadeTime) * 1000)%float ]] ]
      ["a2"];
    mkChain ["a1"; "a2"]
      [ mkFilter "amix" [ KV "inputs" (VNat 2);
                          KV "duration" (VText "shortest") ] ]
      ["aout"] ].
End Commands.

(** The argument array of the final [ffmpeg.exec]. *)
Definition concatArgs : list string :=
  [ "-f"; "concat"; "-safe"; "0"; "-i"; "list.txt"; "-c"; "copy";
    "output.mp4" ].

(** Reading an argument array the way the [ffmpeg] command line is read:
    a word that starts with [-] is an option and takes the next word as
    its value, except for the switches, which take none; any other word
    names an output file. *)
Module CommandLine.

Inductive Word : Type :=
| Opt (option value : string)
| Switch (option : string)
| Output (file : string).

Definition isDash (s : string) : bool :=
  match s with
  | String "-"%char _ => true
  | _ => false
  end.

Definition switches : list string := ["-shortest"; "-y"; "-n"; "-an"; "-vn"].

Definition isSwitch (s : string) : bool := existsb (String.eqb s) switches.

Fixpoint parseArgs (args : list string) : list Word :=
  match args with
  | [] => []
  | o :: rest =>
      if isDash o then
        if isSwitch o then Switch o :: parseArgs rest
        else match rest with
             | [] => [Switch o]
             | v :: rest' => Opt o v :: parseArgs rest'
             end
      else Output o :: parseArgs rest
  end.

(** Every value given to option [opt], in order. *)
Definition argValues (opt : string) (args : list string) : list string :=
  flat_map (fun wd => match wd with
                      | Opt o v => if String.eqb o opt then [v] else []
                      | _ => []
                      end) (parseArgs args).

Definition argValue (opt : string) (args : list string) : option string :=
  hd_error (argValues opt args).

Definition hasOption (opt : string) (args : list string) : bool :=
  existsb (fun wd => match wd with
                     | Opt o _ | Switch o => String.eqb o opt
                     | Output _ => false
                     end) (parseArgs args).

Definition outputs (args : list string) : list string :=
  flat_map (fun wd => match wd with
                      | Output f => [f]
                      | _ => []
                      end) (parseArgs args).

End CommandLine.
Import CommandLine.

(* ================================================================= *)
(** ** Effects

    A run of [downloadVideo] is observed through the calls it makes to
    its collaborators, in order.  Engine calls that yield a value record
    it: [ffmpeg.exec] resolves to the command's exit status (or rejects),
    [ffmpeg.readFile] to the file's bytes (or rejects). *)

(** The [message] of a thrown [Error]. *)
Definition Exn := string.

(** What [ffmpeg.writeFile] is handed as data: a [Uint8Array], or the
    promise of one that [fetchFile] returns, not awaited (lines 266 and
    271). *)
Inductive FileData : Type :=
| Uint8Array (bytes : Bytes)
| PromiseOf (bytes : Bytes).

Coercion Uint8Array : Bytes >-> FileData.

(** [fetchFile(blob)]: a promise of the bytes of the blob. *)
Definition fetchFile (blob : Bytes) : FileData := PromiseOf blob.

(** The bytes the data holds, or resolves to. *)
Definition bytesOf (data : FileData) : Bytes :=
  match data with
  | Uint8Array bytes | PromiseOf bytes => bytes
  end.

Inductive Event : Type :=
| SetBusy (b : bool)
| FetchAudio (pageText : string)
| Capture (i : nat)
| FetchWhoosh
| EngineLoad
| EngineWrite (file : string) (data : FileData)
| EngineExec (args : list string) (outcome : Exn + Z)
| EngineRead (file : string) (outcome : Exn + Bytes)
| Download (filename : string) (data : Bytes)
| Alert (msg : string).

(** The FFmpeg instance: its virtual file system is the state [FS]; a
    rejected call leaves a state behind as well. *)
Record Engine (FS : Type) : Type := mkEngine {
  fresh : FS;
  load : FS -> (Exn + unit) * FS;
  writeFile : string -> FileData -> FS -> (Exn + unit) * FS;
  exec : list string -> FS -> (Exn + Z) * FS;
  readFile : string -> FS -> (Exn + Bytes) * FS
}.
Arguments fresh {FS}.
Arguments load {FS}.
Arguments writeFile {FS}.
Arguments exec {FS}.
Arguments readFile {FS}.

(** A [Response]: [res.ok], and the body read by [res.blob()] or
    [res.text()]. *)
Record Response : Type := mkResponse {
  ok : bool;
  body : Bytes
}.

(** Everything [downloadVideo] calls but does not define. *)
Record World (Elem FS : Type) : Type := mkWorld {
  (** template-literal interpolation of a number *)
  numToString : float -> string;
  (** [fetch("/api/generateAudio", { body: { text } })] *)
  generateAudio : string -> Exn + Response;
  (** [html2canvas(el)], [toDataURL], and the blob of that data URL *)
  html2canvas : Elem -> Exn + Bytes;
  (** [fetch(".../whoosh.mp3").then(r => r.arrayBuffer())] *)
  whooshBuffer : Exn + Bytes;
  ffmpeg : Engine FS
}.
Arguments numToString {Elem FS}.
Arguments generateAudio {Elem FS}.
Arguments html2canvas {Elem FS}.
Arguments whooshBuffer {Elem FS}.
Arguments ffmpeg {Elem FS}.

(** Computations that log events, may throw, and thread the engine's
    state. *)
Module Run.
Section Monad.
Context {FS : Type}.

Definition M (A : Type) : Type := FS -> list Event * (Exn + A) * FS.

Definition ret {A} (a : A) : M A := fun s => ([], inr a, s).

Definition bind {A B} (m : M A) (k : A -> M B) : M B := fun s =>
  match m s with
  | (t, inl e, s1) => (t, inl e, s1)
  | (t, inr a, s1) =>
      match k a s1 with
      | (t', r, s2) => ((t ++ t')%list, r, s2)
      end
  end.

Definition throw {A} (e : Exn) : M A := fun s => ([], inl e, s).

Definition emit (ev : Event) : M unit := fun s => ([ev], inr tt, s).

(** A call to a collaborator without engine state. *)
Definition call {A} (ev : Event) (r : Exn + A) : M A :=
  fun s => ([ev], r, s).

(** [try { m } catch (err) { h err }] *)
Definition tryCatch {A} (m : M A) (h : Exn -> M A) : M A := fun s =>
  match m s with
  | (t, inl e, s1) =>
      match h e s1 with
      | (t', r, s2) => ((t ++ t')%list, r, s2)
      end
  | (t, inr a, s1) => (t, inr a, s1)
  end.

(** [try { m } finally { f }], for an [f] that does not throw. *)
Definition finally {A} (m : M A) (f : M unit) : M A := fun s =>
  match m s with
  | (t, r, s1) =>
      match f s1 with
      | (t', _, s2) => ((t ++ t')%list, r, s2)
      end
  end.

(** [await Promise.all(ms)].  Every promise of the array is started.
    Here each one runs to its end before the next, in array order, and the
    batch rejects with the first rejection in that order.  In the browser
    the promises of a batch interleave: closures that await before they
    log (the audio writes of step 4, lines 269-272) log in the order
    their awaits resolve, and [await] resumes at the first rejection in
    time while the others go on.  What a batch logs before its first
    [await] (the requests of step 1, the image writes of step 4) is logged
    in array order under every schedule. *)
Fixpoint promiseAll {A} (ms : list (M A)) : M (list A) :=
  match ms with
  | [] => ret []
  | m :: rest => fun s =>
      match m s with
      | (t, r, s1) =>
          match promiseAll rest s1 with
          | (t', rs, s2) =>
              ((t ++ t')%list,
               match r, rs with
               | inl e, _ => inl e
               | inr _, inl e => inl e
               | inr a, inr others => inr (a :: others)
               end,
               s2)
          end
      end
  end.
(** [Emits P m]: whatever the state, [m] logs only events that satisfy
    [P]. *)
Definition Emits {A} (P : Event -> bool) (m : M A) : Prop :=
  forall s, Forall (fun ev => P ev = true) (fst (fst (m s))).

End Monad.
Arguments M : clear implicits.
End Run.
Import Run.

Declare Scope run_scope.
Delimit Scope run_scope with run.
Notation "x <- m ;; k" := (bind m (fun x => k))
  (at level 100, m at next level, right associativity) : run_scope.
Notation "m ;; k" := (bind m (fun _ => k))
  (at level 100, right associativity) : run_scope.

(** [xs.map((x, i) => f(x, i))] *)
Fixpoint mapi_from {A B} (i : nat) (f : A -> nat -> B) (xs : list A)
  : list B :=
  match xs with
  | [] => []
  | x :: rest => f x i :: mapi_from (S i) f rest
  end.

Definition mapi {A B} (f : A -> nat -> B) (xs : list A) : list B :=
  mapi_from 0 f xs.

(* ================================================================= *)
(** ** [downloadVideo] (page.tsx, lines 220-343) *)

Section DownloadVideo.
Context {Elem FS : Type}.
Variable w : World Elem FS.
(** The component state captured by the closure. *)
Variables holdTime fadeTime : float.

Local Open Scope run_scope.
Local Abbreviation M := (Run.M FS).

Definition engineLoad : M unit := fun s =>
  match load (ffmpeg w) s with
  | (r, s1) => ([EngineLoad], r, s1)
  end.

Definition engineWrite (file : string) (data : FileData) : M unit := fun s =>
  match writeFile (ffmpeg w) file data s with
  | (r, s1) => ([EngineWrite file data], r, s1)
  end.

Definition engineExec (args : list string) : M Z := fun s =>
  match exec (ffmpeg w) args s with
  | (r, s1) => ([EngineExec args r], r, s1)
  end.

Definition engineRead (file : string) : M Bytes := fun s =>
  match readFile (ffmpeg w) file s with
  | (r, s1) => ([EngineRead file r], r, s1)
  end.

(** Step 1, the closure mapped over [story.pages] (lines 226-236). *)
Definition fetchNarration (p : StoryPage) : M StoryPage :=
  res <- call (FetchAudio (text p)) (generateAudio w (text p)) ;;
  if ok res
  then ret (mkStoryPage (text p) (imagePrompt p) (imageUrl p)
              (Some (body res)))
  else throw (string_of_list_byte (body res)).

(** Step 2, the capture loop (lines 244-249), from index [i] on. *)
Fixpoint captureLoop (els : list Elem) (i : nat) (images : list PageImage)
  : M (list PageImage) :=
  match els with
  | [] => ret images
  | el :: rest =>
      png <- call (Capture i) (html2canvas w el) ;;
      captureLoop rest (S i)
        (images ++ [mkPageImage png ("page" ++ natToString i ++ ".png")])
  end.

(** Step 4, the closure mapped over [pagesWithAudio] (lines 269-272);
    [writeFile] is handed the promise [fetchFile] returns. *)
Definition stageNarration (p : StoryPage) (i : nat) : M unit :=
  match audioUrl p with
  | Some narration =>
      engineWrite ("audio" ++ natToString i ++ ".mp3") (fetchFile narration)
  | None => throw "Failed to fetch"
  end.

(** Step 5, the segment loop (lines 283-312): [n] iterations are left,
    the next index is [i]. *)
Fixpoint segmentLoop (images : list PageImage) (n i : nat)
    (listFile : list string) : M (list string) :=
  match n with
  | O => ret listFile
  | S n' =>
      match nth_error images i with
      | None =>
          throw "Cannot read properties of undefined (reading 'name')"
      | Some im =>
          _ <- engineExec
                 (segmentArgs (numToString w) holdTime fadeTime
                    (name im) i) ;;
          segmentLoop images n' (S i)
            (listFile ++ ["file " ++ outName i])
      end
  end.

(** Step 6, the concat list and the final video (lines 314-337). *)
Definition assemble (story : StoryData) (listFile : list string) : M unit :=
  engineWrite "list.txt" (encode (join LF listFile)) ;;
  engineExec concatArgs ;;
  data <- engineRead "output.mp4" ;;
  emit (Download (orElse (title story) "storybook" ++ ".mp4") data).

(** The [try] block (lines 224-337). *)
Definition exportVideo (story : StoryData) (book : list Elem) : M unit :=
  pagesWithAudio <- promiseAll (map fetchNarration (pages story)) ;;
  images <- captureLoop book 0 [] ;;
  engineLoad ;;
  promiseAll
    (map (fun im => engineWrite (name im) (fetchFile (blob im))) images) ;;
  promiseAll (mapi stageNarration pagesWithAudio) ;;
  whoosh <- call FetchWhoosh (whooshBuffer w) ;;
  engineWrite "whoosh.mp3" whoosh ;;
  listFile <- segmentLoop images (length pagesWithAudio) 0
                ["ffconcat version 1.0"] ;;
  assemble story listFile.

(** [story] is the component state, [bookRef] the [current] of the ref:
    the [.story-page] elements of the rendered book, when it is
    mounted. *)
Definition downloadVideo (story : option StoryData)
    (bookRef : option (list Elem)) : M unit :=
  match story, bookRef with
  | Some st, Some book =>
      emit (SetBusy true) ;;
      finally
        (tryCatch (exportVideo st book)
           (fun err => emit (Alert (orElse err "Failed to export video"))))
        (emit (SetBusy false))
  | _, _ => ret tt
  end.

(** The events of one call, on a new FFmpeg instance. *)
Definition trace (story : option StoryData) (bookRef : option (list Elem))
  : list Event :=
  fst (fst (downloadVideo story bookRef (fresh (ffmpeg w)))).
End DownloadVideo.

(* ================================================================= *)
(** ** Stream lengths in the engine

    What FFmpeg documents about the length of the streams the segment
    command touches, for exactly the constructs of that command: an image
    input read with [-loop 1] never ends; [format] and [fade] keep the
    length of their input; [adelay] lengthens it by the delay (in
    milliseconds); [amix] ends according to its [duration] option; an
    output written with [-shortest] ends with its shortest mapped stream,
    one written without with its longest.  Lengths are exact rationals, in
    seconds. *)

Module Extent.

Inductive Extent : Type :=
| Finite (seconds : Q)
| Unbounded.

Definition emin (a b : Extent) : Extent :=
  match a, b with
  | Finite x, Finite y => Finite (Qmin x y)
  | Finite x, Unbounded => Finite x
  | Unbounded, _ => b
  end.

Definition emax (a b : Extent) : Extent :=
  match a, b with
  | Finite x, Finite y => Finite (Qmax x y)
  | _, _ => Unbounded
  end.

Definition eadd (a : Extent) (d : Q) : Extent :=
  match a with
  | Finite x => Finite (x + d)
  | Unbounded => Unbounded
  end.

(** The rational a finite binary64 value denotes. *)
Definition floatToQ (x : float) : option Q :=
  match Prim2SF x with
  | S754_zero _ => Some 0%Q
  | S754_finite s m e =>
      Some (inject_Z (if s then Z.neg m else Z.pos m) * Qpower 2 e)%Q
  | S754_infinity _ | S754_nan => None
  end.

Definition valToQ (v : Val) : option Q :=
  match v with
  | VNat n => Some (inject_Z (Z.of_nat n))
  | VNum x => floatToQ x
  | VText _ => None
  end.

(** The [duration] option of [amix]. *)
Inductive DurationPolicy : Type := Longest | Shortest | First.

Definition policyOf (f : Filter) : option DurationPolicy :=
  match option_ "duration" (fargs f) with
  | None => Some Longest
  | Some (VText "longest") => Some Longest
  | Some (VText "shortest") => Some Shortest
  | Some (VText "first") => Some First
  | Some _ => None
  end.

Definition mixExtent (p : DurationPolicy) (tracks : list Extent)
  : option Extent :=
  match tracks with
  | [] => None
  | t :: rest =>
      Some match p with
           | Longest => fold_left emax rest t
           | Shortest => fold_left emin rest t
           | First => t
           end
  end.

(** The largest of the per-channel delays, in seconds; a negative or
    non-numeric delay is rejected. *)
Fixpoint maxDelay (vs : list Val) : option Q :=
  match vs with
  | [] => Some 0%Q
  | v :: rest =>
      match valToQ v, maxDelay rest with
      | Some ms, Some d =>
          if Qle_bool 0 ms then Some (Qmax (ms / 1000) d) else None
      | _, _ => None
      end
  end.

Definition filterExtent (f : Filter) (inputs : list Extent)
  : option Extent :=
  if String.eqb (fname f) "amix" then
    match policyOf f with
    | Some p => mixExtent p inputs
    | None => None
    end
  else
    match inputs with
    | [x] =>
        if String.eqb (fname f) "adelay" then
          match positional (fargs f) with
          | Some vs => option_map (eadd x) (maxDelay vs)
          | None => None
          end
        else if String.eqb (fname f) "format" || String.eqb (fname f) "fade"
        then Some x
        else None
    | _ => None
    end.

Definition Pads := list (string * Extent).

Fixpoint pad (label : string) (env : Pads) : option Extent :=
  match env with
  | [] => None
  | (l, x) :: rest => if String.eqb l label then Some x else pad label rest
  end.

Fixpoint pads (labels : list string) (env : Pads) : option (list Extent) :=
  match labels with
  | [] => Some []
  | l :: rest =>
      match pad l env, pads rest env with
      | Some x, Some xs => Some (x :: xs)
      | _, _ => None
      end
  end.

Fixpoint throughFilters (fs : list Filter) (inputs : list Extent)
  : option (list Extent) :=
  match fs with
  | [] => Some inputs
  | f :: rest =>
      match filterExtent f inputs with
      | Some x => throughFilters rest [x]
      | None => None
      end
  end.

Definition chainExtent (env : Pads) (c : Chain) : option Pads :=
  match pads (ins c) env with
  | Some inputs =>
      match throughFilters (filters c) inputs, outs c with
      | Some [x], [o] => Some ((o, x) :: env)
      | _, _ => None
      end
  | None => None
  end.

Fixpoint graphExtent (env : Pads) (g : Graph) : option Pads :=
  match g with
  | [] => Some env
  | c :: rest =>
      match chainExtent env c with
      | Some env' => graphExtent env' rest
      | None => None
      end
  end.

Fixpoint dropLast (s : string) : string :=
  match s with
  | EmptyString => EmptyString
  | String c EmptyString => EmptyString
  | String c rest => String c (dropLast rest)
  end.

(** [[v1]] names the pad [v1]. *)
Definition unbracket (s : string) : string :=
  match s with
  | String "["%char rest => dropLast rest
  | _ => s
  end.

(** The options that bound the output's length; the segment command
    carries none of them. *)
Definition durationOptions : list string :=
  ["-t"; "-to"; "-frames"; "-frames:v"; "-vframes"; "-fs"].

Definition limitsDuration (args : list string) : bool :=
  existsb (fun o => hasOption o args) durationOptions.

(** The length of the file a command writes, from its arguments, its
    filtergraph and the lengths of the narration and of the page-turn
    clip.  Input 0 is the page image: endless when it is read with
    [-loop 1], a single frame (length 0 here) otherwise.  A command with an
    option that bounds the output is outside this model. *)
Definition outputExtent (args : list string) (g : Graph)
    (narration whoosh : Q) : option Extent :=
  if limitsDuration args then None
  else
    let image :=
      match argValue "-loop" args with
      | Some "1" => Unbounded
      | _ => Finite 0
      end in
    let inputs :=
      [("0:v", image); ("1:a", Finite narration); ("2:a", Finite whoosh)] in
    match graphExtent inputs g with
    | Some env =>
        match pads (map unbracket (argValues "-map" args)) env with
        | Some (x :: rest) =>
            Some (if hasOption "-shortest" args
                  then fold_left emin rest x
                  else fold_left emax rest x)
        | _ => None
        end
    | None => None
    end.

End Extent.

(* ================================================================= *)
(** ** Stand-ins for the collaborators

    Concrete values for the fields of [World], to run [downloadVideo] on
    concrete stories. *)

Module Standin.

(** [dropTrailingZeros "500"] is ["5"]. *)
Fixpoint dropTrailingZeros (s : string) : string :=
  match s with
  | EmptyString => EmptyString
  | String c rest =>
      match dropTrailingZeros rest with
      | EmptyString => if Ascii.eqb c "0" then EmptyString
                       else String c EmptyString
      | rest' => String c rest'
      end
  end.

Fixpoint zeros (n : nat) : string :=
  match n with
  | O => EmptyString
  | S n' => String "0" (zeros n')
  end.

(** The decimal expansion of [m * 2^e]. *)
Definition showDyadic (m : positive) (e : Z) : string :=
  if (0 <=? e)%Z then
    NilEmpty.string_of_uint (N.to_uint (N.pos m * 2 ^ Z.to_N e)%N)
  else
    let k := Z.to_nat (- e) in
    let digits :=
      NilEmpty.string_of_uint (N.to_uint (N.pos m * 5 ^ N.of_nat k)%N) in
    let padded := zeros (S k - String.length digits)%nat ++ digits in
    let whole := (String.length padded - k)%nat in
    let frac := dropTrailingZeros (substring whole k padded) in
    match frac with
    | EmptyString => substring 0 whole padded
    | _ => substring 0 whole padded ++ "." ++ frac
    end.

(** Decimal notation of a binary64 value, written out exactly.  It is the
    text ECMAScript's [Number::toString] produces whenever that exact
    expansion has at most 15 significant digits and the value lies between
    1e-6 and 1e21 in magnitude (4, 0.5, 3.5 and 3500 do). *)
Definition showNumber (x : float) : string :=
  match Prim2SF x with
  | S754_zero _ => "0"
  | S754_infinity s => if s then "-Infinity" else "Infinity"
  | S754_nan => "NaN"
  | S754_finite s m e => (if s then "-" else EmptyString) ++ showDyadic m e
  end.

(** An in-memory FFmpeg: files are kept in an association list, written
    with the bytes the data holds or resolves to; a command exits with the
    status [statusOf] gives it, and on status 0 writes its output file (its
    last argument). *)
Definition Files := list (string * Bytes).

Fixpoint lookupFile (file : string) (fs : Files) : option Bytes :=
  match fs with
  | [] => None
  | (f, d) :: rest => if String.eqb f file then Some d else lookupFile file rest
  end.

Definition memEngine (statusOf : list string -> Z) : Engine Files :=
  {| fresh := [];
     load := fun fs => (inr tt, fs);
     writeFile := fun f d fs => (inr tt, (f, bytesOf d) :: fs);
     exec := fun args fs =>
       let st := statusOf args in
       if (st =? 0)%Z
       then (inr st, (last args EmptyString, encode ("video " ++ last args EmptyString)) :: fs)
       else (inr st, fs);
     readFile := fun f fs =>
       match lookupFile f fs with
       | Some d => (inr d, fs)
       | None => (inl "ErrnoError: FS error", fs)
       end |}.

(** A narration endpoint that answers every text with [reply text]. *)
Definition world (reply : string -> Response)
    (statusOf : list string -> Z) : World nat Files :=
  {| numToString := showNumber;
     generateAudio := fun t => inr (reply t);
     html2canvas := fun el => inr (encode ("png " ++ natToString el));
     whooshBuffer := inr (encode "whoosh");
     ffmpeg := memEngine statusOf |}.

Definition speech (t : string) : Response :=
  mkResponse true (encode ("mp3 " ++ t)).

Definition page (t : string) : StoryPage := mkStoryPage t EmptyString None None.

(** Exit statuses: every command succeeds, or every command fails. *)
Definition succeeding (_ : list string) : Z := 0%Z.
Definition failing (_ : list string) : Z := 1%Z.



Definition moon : StoryData :=
  mkStoryData "Moon" [page "Once"] "a story about the moon".

Definition tide : StoryData :=
  mkStoryData EmptyString [page "Once"; page "Twice"] "a story about the tide".

(** Five pages, the fourth (index 3) without text. *)
Definition fivePages : StoryData :=
  mkStoryData "Five"
    [page "a"; page "b"; page "c"; page EmptyString; page "e"] "five pages".

End Standin.

(* ================================================================= *)
(** ** Shapes of a run

    Vocabulary for the events of [exportVideo]: what precedes the segment
    loop, the segment encodes, and the assembly. *)

(** [images[i].name], as the capture loop sets it. *)
Definition pageName (i : nat) : string := "page" ++ natToString i ++ ".png".

(** The line [listFile.push] adds for page [i]. *)
Definition entry (i : nat) : string := "file " ++ outName i.

(** The lines of the concat list after [n] segments. *)
Definition manifest (n : nat) : list string :=
  "ffconcat version 1.0" :: map entry (seq 0 n).

Definition isExec (ev : Event) : bool :=
  match ev with
  | EngineExec _ _ => true
  | _ => false
  end.

Definition isAlert (ev : Event) : bool :=
  match ev with
  | Alert _ => true
  | _ => false
  end.

(** The files a command of the run writes: the outputs named on its
    command line. *)
Definition producedBy (ev : Event) : list string :=
  match ev with
  | EngineExec args _ => outputs args
  | _ => []
  end.

(** Events of step 6: the concat list, the concat command, the read of
    its output and the download. *)
Definition isAssembly (ev : Event) : bool :=
  match ev with
  | EngineWrite f _ => String.eqb f "list.txt"
  | EngineExec args _ =>
      if list_eq_dec string_dec args concatArgs then true else false
  | EngineRead _ _ | Download _ _ => true
  | _ => false
  end.

Definition isDownload (ev : Event) : bool :=
  match ev with
  | Download _ _ => true
  | _ => false
  end.

(** Events of steps 1 to 5 before the loop: fetches, captures, the load
    and the staging of the inputs. *)
Definition isStaging (ev : Event) : bool :=
  match ev with
  | FetchAudio _ | Capture _ | FetchWhoosh | EngineLoad => true
  | EngineWrite f _ => negb (String.eqb f "list.txt")
  | _ => false
  end.

Section Shapes.
Variable show : float -> string.
Variables holdTime fadeTime : float.

(** The encode of page [i], as issued by the loop. *)
Definition segmentExec (i : nat) (outcome : Exn + Z) : Event :=
  EngineExec (segmentArgs show holdTime fadeTime (pageName i) i) outcome.

(** [k] successive segment encodes, from page [i] on, each of which
    resolved to an exit status. *)
Inductive SegmentEvents : nat -> nat -> list Event -> Prop :=
| segments_none i : SegmentEvents i 0 []
| segments_next i k status rest :
    SegmentEvents (S i) k rest ->
    SegmentEvents i (S k) (segmentExec i (inr status) :: rest).

(** Step 6 after [n] segments, as far as it got. *)
Inductive AssemblyEvents (story : StoryData) (n : nat)
  : list Event -> Exn + unit -> Prop :=
| assembly_unwritten e :
    AssemblyEvents story n
      [EngineWrite "list.txt" (encode (join LF (manifest n)))] (inl e)
| assembly_concat_threw e :
    AssemblyEvents story n
      [EngineWrite "list.txt" (encode (join LF (manifest n)));
       EngineExec concatArgs (inl e)] (inl e)
| assembly_unread status e :
    AssemblyEvents story n
      [EngineWrite "list.txt" (encode (join LF (manifest n)));
       EngineExec concatArgs (inr status);
       EngineRead "output.mp4" (inl e)] (inl e)
| assembly_done status data :
    AssemblyEvents story n
      [EngineWrite "list.txt" (encode (join LF (manifest n)));
       EngineExec concatArgs (inr status);
       EngineRead "output.mp4" (inr data);
       Download (orElse (title story) "storybook" ++ ".mp4") data] (inr tt).

(** The events and the outcome of the [try] block for a story of [n]
    pages whose book shows [shown] page elements. *)
Inductive ExportRun (story : StoryData) (n shown : nat)
  : list Event -> Exn + unit -> Prop :=
| export_staging_failed pre e :
    Forall (fun ev => isStaging ev = true) pre ->
    ExportRun story n shown pre (inl e)
| export_segment_failed pre k segs last e :
    Forall (fun ev => isStaging ev = true) pre ->
    (k < n)%nat ->
    SegmentEvents 0 k segs ->
    last = [] \/ last = [segmentExec k (inl e)] ->
    ExportRun story n shown (pre ++ segs ++ last)%list (inl e)
| export_assembled pre segs tl r :
    Forall (fun ev => isStaging ev = true) pre ->
    (n <= shown)%nat ->
    SegmentEvents 0 n segs ->
    AssemblyEvents story n tl r ->
    ExportRun story n shown (pre ++ segs ++ tl)%list r.
End Shapes.


(** What the closure of step 1 throws for such a page: the reason of the
    rejection, or the text of the response. *)
Definition refusal {Elem FS : Type} (w : World Elem FS)
    (p : StoryPage) : Exn :=
  match generateAudio w (text p) with
  | inl e => e
  | inr res => string_of_list_byte (body res)
  end.


(** What the [catch] block adds to the events. *)
Definition alertOf (r : Exn + unit) : list Event :=
  match r with
  | inl err => [Alert (orElse err "Failed to export video")]
  | inr _ => []
  end.

(* ================================================================= *)
(** ** Objects used as maps

    [savedStories] is a plain object keyed by story title.  Its own
    properties are kept in the order [Object.keys] lists them: keys that
    are array indices first, in ascending numeric order, then the other
    keys in the order they were first set. *)

Module JsObject.

Definition Obj (V : Type) : Type := list (string * V).

(** The number a key is the canonical numeral of, when it is an array
    index (an integer below 2^32 - 1). *)
Definition arrayIndex (k : string) : option N :=
  match NilEmpty.uint_of_string k with
  | Some d =>
      let n := N.of_uint d in
      if String.eqb (NilEmpty.string_of_uint (N.to_uint n)) k
         && (n <? 4294967295)%N
      then Some n else None
  | None => None
  end.

Section WithValues.
Context {V : Type}.

(** [Object.keys(o)] *)
Definition keys (o : Obj V) : list string := map fst o.

(** The own property [k]. *)
Fixpoint getOwn (k : string) (o : Obj V) : option V :=
  match o with
  | [] => None
  | (k', v) :: rest => if String.eqb k' k then Some v else getOwn k rest
  end.

(** Overwriting an own property keeps its place. *)
Fixpoint overwrite (k : string) (v : V) (o : Obj V) : Obj V :=
  match o with
  | [] => []
  | (k', v') :: rest =>
      if String.eqb k' k then (k, v) :: rest
      else (k', v') :: overwrite k v rest
  end.

(** A new array-index key goes before the first key that is no array
    index or a larger one. *)
Fixpoint insertIndex (n : N) (k : string) (v : V) (o : Obj V) : Obj V :=
  match o with
  | [] => [(k, v)]
  | (k', v') :: rest =>
      match arrayIndex k' with
      | Some m =>
          if (m <? n)%N then (k', v') :: insertIndex n k v rest
          else (k, v) :: (k', v') :: rest
      | None => (k, v) :: (k', v') :: rest
      end
  end.

(** [{ ...o, [k]: v }] *)
Definition set (k : string) (v : V) (o : Obj V) : Obj V :=
  match getOwn k o with
  | Some _ => overwrite k v o
  | None =>
      match arrayIndex k with
      | Some n => insertIndex n k v o
      | None => (o ++ [(k, v)])%list
      end
  end.
End WithValues.

End JsObject.

(* ================================================================= *)
(** ** The other handlers of [Home] (page.tsx, lines 55-209) *)

Module Home.
Import JsObject.

(** What a handler does, in order: calls of state setters, requests,
    storage writes, alerts, and the calls on the jsPDF document. *)
Inductive Effect : Type :=
| SetBusy (b : bool)
| SetError (e : option string)
| SetStory (s : option StoryData)
(** [setStory(Object.prototype[key])] *)
| SetStoryInherited (key : string)
| SetSavedStories (m : Obj StoryData)
(** [localStorage.setItem(key, JSON.stringify(value))] *)
| StorageSet (key : string) (value : Obj StoryData)
(** [fetch("/api/generateStory", { body: { prompt } })] *)
| FetchStory (promptText : string)
(** [fetch("/api/generateImage", { body: { prompt } })] *)
| FetchImage (promptText : string)
| Alert (msg : string)
| PdfNew
| Rasterize (i : nat)
| PdfAddPage
(** [doc.addImage(imgData, format, x, y, w, h)] *)
| PdfAddImage (imgData format : string) (x y w h : float)
| PdfSave (filename : string).

(** A [Response] whose JSON body, when it parses, is read as an [A]. *)
Record ApiResponse (A : Type) : Type := mkApiResponse {
  resOk : bool;
  resText : string;
  resJson : Exn + A
}.
Arguments resOk {A}.
Arguments resText {A}.
Arguments resJson {A}.

(** [html2canvas(el, { scale: 2 })] and its [toDataURL("image/png")]. *)
Record Canvas : Type := mkCanvas {
  width : float;
  height : float;
  dataUrl : string
}.

(** Everything the handlers call but do not define. *)
Record Api (Elem : Type) : Type := mkApi {
  storyApi : string -> Exn + ApiResponse StoryData;
  (** the [url] of the JSON body, [None] when it has none *)
  imageApi : string -> Exn + ApiResponse (option string);
  (** [localStorage.setItem]: [Some e] when it throws *)
  storageSet : string -> Obj StoryData -> option Exn;
  (** whether [Object.prototype] has a property of this name *)
  inherited : string -> bool;
  rasterize : Elem -> Exn + Canvas;
  (** [doc.internal.pageSize.getWidth()] *)
  pageWidth : float;
  (** [doc.addImage]: [Some e] when it throws *)
  addImage : string -> option Exn
}.
Arguments storyApi {Elem}.
Arguments imageApi {Elem}.
Arguments storageSet {Elem}.
Arguments inherited {Elem}.
Arguments rasterize {Elem}.
Arguments pageWidth {Elem}.
Arguments addImage {Elem}.

(** Computations that log effects and may throw. *)
Definition H (A : Type) : Type := (list Effect * (Exn + A))%type.

Definition ret {A} (a : A) : H A := ([], inr a).

Definition bind {A B} (m : H A) (k : A -> H B) : H B :=
  match m with
  | (t, inl e) => (t, inl e)
  | (t, inr a) =>
      match k a with
      | (t', r) => ((t ++ t')%list, r)
      end
  end.

Definition throw {A} (e : Exn) : H A := ([], inl e).

Definition emit (ev : Effect) : H unit := ([ev], inr tt).

Definition call {A} (ev : Effect) (r : Exn + A) : H A := ([ev], r).

(** [await r] for a promise that logs nothing. *)
Definition await {A} (r : Exn + A) : H A := ([], r).

(** [try { m } catch (err) { h err }] *)
Definition tryCatch {A} (m : H A) (h : Exn -> H A) : H A :=
  match m with
  | (t, inl e) =>
      match h e with
      | (t', r) => ((t ++ t')%list, r)
      end
  | (t, inr a) => (t, inr a)
  end.

(** [try { m } finally { f }], for an [f] that does not throw. *)
Definition finally {A} (m : H A) (f : H unit) : H A :=
  match m, f with
  | (t, r), (t', _) => ((t ++ t')%list, r)
  end.

(** [await Promise.all(ms)]: every promise of the array is started, in
    array order, and the batch rejects with the first rejection. *)
Fixpoint promiseAll {A} (ms : list (H A)) : H (list A) :=
  match ms with
  | [] => ret []
  | (t, r) :: rest =>
      match promiseAll rest with
      | (t', rs) =>
          ((t ++ t')%list,
           match r, rs with
           | inl e, _ => inl e
           | inr _, inl e => inl e
           | inr a, inr others => inr (a :: others)
           end)
      end
  end.

Declare Scope home_scope.
Delimit Scope home_scope with home.
Notation "x <- m ;; k" := (bind m (fun x => k))
  (at level 100, m at next level, right associativity) : home_scope.
Notation "m ;; k" := (bind m (fun _ => k))
  (at level 100, right associativity) : home_scope.

Section Handlers.
Context {Elem : Type}.
Variable api : Api Elem.
Local Open Scope home_scope.

(** [const updated = { ...savedStories, [story.title]: story }] *)
Definition updated (savedStories : Obj StoryData) (story : StoryData)
  : Obj StoryData :=
  set (title story) story savedStories.

(** [saveStory] (lines 61-66). *)
Definition saveStory (story : option StoryData)
    (savedStories : Obj StoryData) : H unit :=
  match story with
  | None => ret tt
  | Some st =>
      call (StorageSet "storybook_saved" (updated savedStories st))
        (match storageSet api "storybook_saved" (updated savedStories st) with
         | Some e => inl e
         | None => inr tt
         end) ;;
      emit (SetSavedStories (updated savedStories st))
  end.

(** [loadStory] (lines 72-75): [savedStories[title]] finds an own
    property, or else a property of [Object.prototype]; both are
    truthy. *)
Definition loadStory (savedStories : Obj StoryData) (t : string) : H unit :=
  match getOwn t savedStories with
  | Some saved => emit (SetStory (Some saved))
  | None =>
      if inherited api t then emit (SetStoryInherited t) else ret tt
  end.

(** [{ ...p, imageUrl: url }] *)
Definition withImage (p : StoryPage) (url : option string) : StoryPage :=
  mkStoryPage (text p) (imagePrompt p) url (audioUrl p).

(** [{ ...p, text: newText }] *)
Definition withText (p : StoryPage) (newText : string) : StoryPage :=
  mkStoryPage newText (imagePrompt p) (imageUrl p) (audioUrl p).

(** One request to [/api/generateImage]: the [url] of the answer. *)
Definition fetchImageUrl (promptText : string) : H (option string) :=
  res <- call (FetchImage promptText) (imageApi api promptText) ;;
  if resOk res then await (resJson res) else throw (resText res).

(** The closure mapped over [storyData.pages] (lines 100-109). *)
Definition illustrate (p : StoryPage) : H StoryPage :=
  url <- fetchImageUrl (imagePrompt p) ;;
  ret (withImage p url).

(** [generateStory] (lines 84-117), for the prompt in the input box. *)
Definition generateStory (promptText : string) : H unit :=
  match promptText with
  | EmptyString => ret tt
  | _ =>
      emit (SetBusy true) ;;
      emit (SetError None) ;;
      emit (SetStory None) ;;
      finally
        (tryCatch
           (res <- call (FetchStory promptText) (storyApi api promptText) ;;
            if resOk res then
              storyData <- await (resJson res) ;;
              pagesWithImages <- promiseAll (map illustrate (pages storyData)) ;;
              emit (SetStory
                      (Some (mkStoryData (title storyData) pagesWithImages
                               promptText)))
            else throw (resText res))
           (fun err =>
              emit (SetError (Some (orElse err "Failed to generate story")))))
        (emit (SetBusy false))
  end.

(** [rerollImage] (lines 124-146). *)
Definition rerollImage (story : option StoryData) (idx : nat) : H unit :=
  match story with
  | None => ret tt
  | Some st =>
      match nth_error (pages st) idx with
      | None => ret tt
      | Some page =>
          finally
            (tryCatch
               (emit (SetBusy true) ;;
                url <- fetchImageUrl (imagePrompt page) ;;
                emit (SetStory
                        (Some (mkStoryData (title st)
                                 (mapi (fun p i =>
                                          if Nat.eqb i idx then withImage p url
                                          else p) (pages st))
                                 (prompt st)))))
               (fun err => emit (Alert (orElse err "Failed to re‑roll image"))))
            (emit (SetBusy false))
      end
  end.

(** [newStory.pages[idx]?.text] followed by the [!newText] test: the text,
    unless the page is missing or its text empty. *)
Definition newTextAt (newStory : StoryData) (idx : nat) : option string :=
  match nth_error (pages newStory) idx with
  | Some p =>
      match text p with
      | EmptyString => None
      | t => Some t
      end
  | None => None
  end.

(** [rerollText] (lines 155-177). *)
Definition rerollText (story : option StoryData) (idx : nat) : H unit :=
  match story with
  | None => ret tt
  | Some st =>
      finally
        (tryCatch
           (emit (SetBusy true) ;;
            res <- call (FetchStory (prompt st)) (storyApi api (prompt st)) ;;
            if resOk res then
              newStory <- await (resJson res) ;;
              match newTextAt newStory idx with
              | None => throw "No new text returned"
              | Some newText =>
                  emit (SetStory
                          (Some (mkStoryData (title st)
                                   (mapi (fun p i =>
                                            if Nat.eqb i idx
                                            then withText p newText
                                            else p) (pages st))
                                   (prompt st))))
              end
            else throw (resText res))
           (fun err => emit (Alert (orElse err "Failed to re‑roll text"))))
        (emit (SetBusy false))
  end.

(** The loop of [downloadPDF] (lines 194-202), from index [i] on. *)
Fixpoint pdfLoop (els : list Elem) (i : nat) : H unit :=
  match els with
  | [] => ret tt
  | el :: rest =>
      canvas <- call (Rasterize i) (rasterize api el) ;;
      (match i with
       | O => ret tt
       | S _ => emit PdfAddPage
       end) ;;
      call (PdfAddImage (dataUrl canvas) "PNG" 0 0 (pageWidth api)
              ((height canvas * pageWidth api) / width canvas)%float)
        (match addImage api (dataUrl canvas) with
         | Some e => inl e
         | None => inr tt
         end) ;;
      pdfLoop rest (S i)
  end.

(** [downloadPDF] (lines 186-209). *)
Definition downloadPDF (story : option StoryData)
    (bookRef : option (list Elem)) : H unit :=
  match story, bookRef with
  | Some st, Some book =>
      emit (SetBusy true) ;;
      finally
        (tryCatch
           (emit PdfNew ;;
            pdfLoop book 0 ;;
            emit (PdfSave (orElse (title st) "storybook" ++ ".pdf")))
           (fun err => emit (Alert (orElse err "Failed to export PDF"))))
        (emit (SetBusy false))
  | _, _ => ret tt
  end.
End Handlers.

End Home.

(* ================================================================= *)
(** ** The route handlers

    [POST] of the image route (src/app/api/generateImage/route.ts, lines
    12-33), of the speech route (same file, lines 44-69) and of the story
    route that calls the chat completions API itself (src/unnamed/part_001,
    lines 14-93).  Each handler is given the
    field it reads from the request body, [None] when the body has none,
    and returns the inputs it sent to the model together with its
    response. *)

Module Routes.

Record HttpResponse (B : Type) : Type := mkHttpResponse {
  status : nat;
  headers : list (string * string);
  payload : B
}.
Arguments mkHttpResponse {B}.
Arguments status {B}.
Arguments headers {B}.
Arguments payload {B}.

Module Audio.
Section Handler.
(** [client.audio.speech.create({ ..., input })] and [arrayBuffer()]. *)
Variable speechModel : string -> Exn + Bytes.

Definition POST (text : option string)
  : list string * HttpResponse Bytes :=
  match text with
  | None | Some EmptyString =>
      ([], mkHttpResponse 400%nat [] (encode "Missing text"))
  | Some input =>
      ([input],
       match speechModel input with
       | inr buffer =>
           mkHttpResponse 200%nat
             [ ("Content-Type", "audio/mpeg");
               ("Content-Disposition", "inline; filename=page.mp3") ]
             buffer
       | inl err =>
           mkHttpResponse 500%nat []
             (encode (orElse err "Failed to generate audio"))
       end)
  end.
End Handler.
End Audio.

Module Image.

(** The bodies [NextResponse.json] is given. *)
Inductive Body : Type :=
| Url (url : string)
| Error (error : string).

Section Handler.
(** [client.images.generate({ ..., prompt })]: the [b64_json] of each
    element of [res.data], [None] where it is undefined. *)
Variable imageModel : string -> Exn + list (option string).

Definition POST (prompt : option string)
  : list string * HttpResponse Body :=
  match prompt with
  | None | Some EmptyString =>
      ([], mkHttpResponse 400%nat [] (Error "Missing prompt"))
  | Some p =>
      let sent :=
        p ++ ". No text, no watermarks. Rich lighting, coherent characters across pages." in
      ([sent],
       match imageModel sent with
       | inr [] =>
           mkHttpResponse 500%nat []
             (Error "Cannot read properties of undefined (reading 'b64_json')")
       | inr (b64 :: _) =>
           mkHttpResponse 200%nat []
             (Url ("data:image/png;base64,"
                     ++ match b64 with
                        | Some b => b
                        | None => "undefined"
                        end))
       | inl err =>
           mkHttpResponse 500%nat [] (Error (orElse err "Failed to generate image"))
       end)
  end.
End Handler.
End Image.

Module Story.

#[local] Set Warnings "-register-all".

(** A value [JSON.parse] returns. *)
Inductive Json : Type :=
| JNull
| JBool (b : bool)
| JNumber (x : float)
| JString (s : string)
| JArray (items : list Json)
| JObject (props : JsObject.Obj Json).

(** The property names the handler reads.  No prototype defines one of
    them, so only own properties, array elements and string characters
    answer. *)
Inductive Key : Type := Choices | Zero | Message | Content.

Definition keyName (k : Key) : string :=
  match k with
  | Choices => "choices"
  | Zero => "0"
  | Message => "message"
  | Content => "content"
  end.

(** [v[k]] for a value other than null; [None] is undefined.  A string
    answers index 0 with its first character. *)
Definition prop (v : Json) (k : Key) : option Json :=
  match v with
  | JObject props => JsObject.getOwn (keyName k) props
  | JArray items =>
      match k with
      | Zero => hd_error items
      | _ => None
      end
  | JString (String c _) =>
      match k with
      | Zero => Some (JString (String c EmptyString))
      | _ => None
      end
  | _ => None
  end.

(** [v?.[k]] *)
Definition optProp (v : option Json) (k : Key) : option Json :=
  match v with
  | None | Some JNull => None
  | Some v' => prop v' k
  end.

(** Whether a value is truthy. *)
Definition truthy (v : Json) : bool :=
  match v with
  | JNull => false
  | JBool b => b
  | JNumber x => negb (PrimFloat.eqb x 0 || PrimFloat.is_nan x)
  | JString EmptyString => false
  | _ => true
  end.

(** [String(v)], as [JSON.parse] applies it to its argument. *)
Fixpoint toString (numToString : float -> string) (v : Json) : string :=
  match v with
  | JNull => "null"
  | JBool true => "true"
  | JBool false => "false"
  | JNumber x => numToString x
  | JString s => s
  | JArray items =>
      join ","
        (map (fun item =>
                match item with
                | JNull => EmptyString
                | _ => toString numToString item
                end) items)
  | JObject _ => "[object Object]"
  end.

#[local] Set Warnings "register-all".

(** [hay.includes(needle)] *)
Fixpoint includes (hay needle : string) : bool :=
  String.prefix needle hay
  || match hay with
     | EmptyString => false
     | String _ rest => includes rest needle
     end.

(** The double quote. *)
Definition DQ : string := String "034" EmptyString.

(** The body of a request to the chat completions API; a message is its
    role and its content. *)
Record ChatRequest : Type := mkChatRequest {
  model : string;
  messages : list (string * string);
  temperature : float;
  response_format : option string
}.

(** The answer of [fetch]: [ok], [status], [statusText] and the body read
    by [text()]. *)
Record ApiResponse : Type := mkApiResponse {
  apiOk : bool;
  apiStatus : nat;
  apiStatusText : string;
  apiText : string
}.

(** The bodies [NextResponse.json] is given. *)
Inductive Body : Type :=
| Story (json : Json)
| Error (error : string).

Definition systemPrompt : string :=
  "You are a creative story author. When given a user prompt, you must output a JSON object with the following structure:"
    ++ LF ++ "{ " ++ DQ ++ "title" ++ DQ ++ ": string, " ++ DQ ++ "pages"
    ++ DQ ++ ": [ { " ++ DQ ++ "text" ++ DQ ++ ": string, " ++ DQ
    ++ "imagePrompt" ++ DQ ++ ": string }, ... ] }" ++ LF
    ++ "The pages array must contain exactly 10 objects. Each page's `text` should be 80–140 words and self‑contained with gentle cliffhangers."
    ++ LF
    ++ "Each `imagePrompt` should vividly describe the scene on the page without including any text. Do not include any additional properties. Do not wrap the JSON in markdown or code fences.".

Definition messagesFor (prompt : string) : list (string * string) :=
  [ ("system", systemPrompt);
    ("user", "User prompt: " ++ DQ ++ prompt ++ DQ ++ ". Generate the story.") ].

(** 0.7 is read as the nearest binary64 value, as in the source. *)
#[local] Set Warnings "-inexact-float".
Definition payload (prompt : string) : ChatRequest :=
  {| model := "gpt-4o-mini";
     messages := messagesFor prompt;
     temperature := 0.7;
     response_format := Some "json_object" |}.
#[local] Set Warnings "inexact-float".

(** [delete body.response_format] *)
Definition withoutResponseFormat (body : ChatRequest) : ChatRequest :=
  {| model := model body;
     messages := messages body;
     temperature := temperature body;
     response_format := None |}.

(** [data.choices?.[0]?.message?.content], or the empty string when
    that is falsy. *)
Definition content (data : Json) : Exn + Json :=
  match data with
  | JNull => inl "Cannot read properties of null (reading 'choices')"
  | _ =>
      inr match
            optProp (optProp (optProp (prop data Choices) Zero) Message)
              Content
          with
          | Some v => if truthy v then v else JString EmptyString
          | None => JString EmptyString
          end
  end.

Section Handler.
(** Interpolation of a number, [JSON.parse], and the chat completions
    API behind [fetch]. *)
Variable numToString : float -> string.
Variable jsonParse : string -> Exn + Json.
Variable openai : ChatRequest -> Exn + ApiResponse.

Definition callApi (prompt : string) (withResponseFormat : bool)
  : list ChatRequest * (Exn + Json) :=
  let body :=
    if withResponseFormat then payload prompt
    else withoutResponseFormat (payload prompt) in
  ([body],
   match openai body with
   | inl err => inl err
   | inr apiResponse =>
       if apiOk apiResponse then jsonParse (apiText apiResponse)
       else inl ("OpenAI API error " ++ natToString (apiStatus apiResponse)
                   ++ ": "
                   ++ orElse (apiText apiResponse)
                        (apiStatusText apiResponse))
   end).

(** The inner [try]: the first attempt, and the second one when the
    first error mentions [response_format]. *)
Definition attempts (prompt : string) : list ChatRequest * (Exn + Json) :=
  match callApi prompt true with
  | (sent, inr data) => (sent, inr data)
  | (sent, inl error) =>
      if includes error "response_format"
      then let (again, data) := callApi prompt false in
           ((sent ++ again)%list, data)
      else (sent, inl error)
  end.

(** What follows the attempts inside the outer [try]. *)
Definition parsed (data : Json) : Exn + Json :=
  match content data with
  | inl err => inl err
  | inr c =>
      match jsonParse (toString numToString c) with
      | inr json => inr json
      | inl _ => inl "Model did not return valid JSON"
      end
  end.

Definition POST (prompt : option string)
  : list ChatRequest * HttpResponse Body :=
  match prompt with
  | None | Some EmptyString =>
      ([], mkHttpResponse 400%nat [] (Error "Missing prompt"))
  | Some p =>
      let (sent, data) := attempts p in
      (sent,
       match match data with
             | inl err => inl err
             | inr d => parsed d
             end
       with
       | inr json => mkHttpResponse 200%nat [] (Story json)
       | inl err =>
           mkHttpResponse 500%nat []
             (Error (orElse err "Failed to generate story"))
       end)
  end.
End Handler.
End Story.

(** What [fetch] makes of a response of the speech route: [ok] for a
    status from 200 to 299. *)
Definition received (r : HttpResponse Bytes) : Response :=
  mkResponse ((200 <=? status r)%nat && (status r <? 300)%nat) (payload r).

(** The narration endpoint as [downloadVideo] reaches it: the request
    body is [{ text }]. *)
Definition narrationEndpoint (speechModel : string -> Exn + Bytes)
    (t : string) : Exn + Response :=
  inr (received (snd (Audio.POST speechModel (Some t)))).

End Routes.

(* ================================================================= *)
(** ** Vocabulary and stand-ins for the handlers of [Home] *)

Module HomeShapes.

(** Requests to the image endpoint. *)
Definition isImageRequest (e : Home.Effect) : bool :=
  match e with
  | Home.FetchImage _ => true
  | _ => false
  end.

Definition isSetStory (e : Home.Effect) : bool :=
  match e with
  | Home.SetStory _ | Home.SetStoryInherited _ => true
  | _ => false
  end.

Definition isAddPage (e : Home.Effect) : bool :=
  match e with
  | Home.PdfAddPage => true
  | _ => false
  end.

Definition isAddImage (e : Home.Effect) : bool :=
  match e with
  | Home.PdfAddImage _ _ _ _ _ _ => true
  | _ => false
  end.

Definition isSave (e : Home.Effect) : bool :=
  match e with
  | Home.PdfSave _ => true
  | _ => false
  end.

Definition isAlert (e : Home.Effect) : bool :=
  match e with
  | Home.Alert _ => true
  | _ => false
  end.

(** What [downloadPDF] does for the page element of index [i], once it is
    rasterised to [canvas]: a new page for every element but the first,
    then the image as PNG at the top left corner (0, 0), as wide as the
    page and as high as the canvas's proportions make it. *)
Definition pageEffects {Elem : Type} (api : Home.Api Elem)
    (canvas : Home.Canvas) (i : nat) : list Home.Effect :=
  (Home.Rasterize i
     :: match i with
        | O => []
        | S _ => [Home.PdfAddPage]
        end
     ++ [Home.PdfAddImage (Home.dataUrl canvas) "PNG" 0 0
           (Home.pageWidth api)
           ((Home.height canvas * Home.pageWidth api)
              / Home.width canvas)%float])%list.

(** The saved stories after a series of [saveStory], starting from the
    empty object. *)
Definition savedAfter (stories : list StoryData) : JsObject.Obj StoryData :=
  fold_left (fun saved st => Home.updated saved st) stories [].

(** The last story of a list with a given title. *)
Definition lastTitled (t : string) (stories : list StoryData)
  : option StoryData :=
  find (fun st => String.eqb (title st) t) (List.rev stories).

(** The names of the properties of [Object.prototype]. *)
Definition objectPrototype : list string :=
  [ "constructor"; "__defineGetter__"; "__defineSetter__"; "hasOwnProperty";
    "__lookupGetter__"; "__lookupSetter__"; "isPrototypeOf";
    "propertyIsEnumerable"; "toString"; "valueOf"; "__proto__";
    "toLocaleString" ].

Definition illustratedPage (t p : string) : StoryPage :=
  mkStoryPage t p None None.

(** A story endpoint that answers every prompt but ["fail"] with a
    two-page story, an image endpoint that answers every prompt but the
    empty one with a URL, a storage that accepts every write. *)
Definition tale : StoryData :=
  mkStoryData "Tale"
    [illustratedPage "One" "a door"; illustratedPage "Two" "a library"]
    EmptyString.

Definition api : Home.Api nat :=
  {| Home.storyApi := fun p =>
       if String.eqb p "fail"
       then inr (Home.mkApiResponse StoryData false "Missing prompt"
                   (inl "Unexpected token"))
       else inr (Home.mkApiResponse StoryData true EmptyString (inr tale));
     Home.imageApi := fun p =>
       if String.eqb p EmptyString
       then inr (Home.mkApiResponse (option string) false "Missing prompt"
                   (inl "Unexpected token"))
       else inr (Home.mkApiResponse (option string) true EmptyString
                   (inr (Some ("data:image/png;base64," ++ p))));
     Home.storageSet := fun _ _ => None;
     Home.inherited := fun k => existsb (String.eqb k) objectPrototype;
     Home.rasterize := fun el =>
       inr (Home.mkCanvas 800 600 ("data:image/png;base64," ++ natToString el));
     Home.pageWidth := 400;
     Home.addImage := fun _ => None |}.

End HomeShapes.

(* ================================================================= *)
(** ** More vocabulary for the events of the video export *)

Module ExportShapes.

Definition isNarrationRequest (ev : Event) : bool :=
  match ev with
  | FetchAudio _ => true
  | _ => false
  end.

(** [`audio${i}.mp3`] *)
Definition audioName (i : nat) : string := "audio" ++ natToString i ++ ".mp3".

(** The writes of step 4, in array order: the captures under
    [page<i>.png], the narration answers under [audio<i>.mp3], each as the
    promise [fetchFile] returns. *)
Definition imageWrites (pngs : list Bytes) : list Event :=
  mapi (fun png i => EngineWrite (pageName i) (fetchFile png)) pngs.

Definition audioWrites (responses : list Response) : list Event :=
  mapi (fun res i => EngineWrite (audioName i) (fetchFile (body res)))
    responses.

(** The events of steps 1 to 5 up to the segment loop, when every step
    resolves: the captures are [pngs], the audio writes came as [audio],
    the page-turn clip is [clip]. *)
Definition staged {Elem : Type} (story : StoryData) (book : list Elem)
    (pngs : list Bytes) (audio : list Event) (clip : Bytes) : list Event :=
  (map (fun p => FetchAudio (text p)) (pages story)
     ++ map Capture (seq 0 (length book))
     ++ EngineLoad
     :: imageWrites pngs
     ++ audio
     ++ [FetchWhoosh; EngineWrite "whoosh.mp3" clip])%list.

(** Events other than the download, the alert and the busy flag. *)
Definition isQuiet (ev : Event) : bool :=
  match ev with
  | Download _ _ | Alert _ | SetBusy _ => false
  | _ => true
  end.

(** The [try] block up to the segment loop (lines 224-280): steps 1 to 4
    and the page-turn clip.  It reads neither [holdTime] nor
    [fadeTime]. *)
Definition staging {Elem FS : Type} (w : World Elem FS)
    (story : StoryData) (book : list Elem)
  : Run.M FS (list StoryPage * list PageImage) :=
  (pagesWithAudio <- promiseAll (map (fetchNarration w) (pages story)) ;;
   images <- captureLoop w book 0 [] ;;
   engineLoad w ;;
   promiseAll
     (map (fun im => engineWrite w (name im) (fetchFile (blob im))) images) ;;
   promiseAll (mapi (stageNarration w) pagesWithAudio) ;;
   whoosh <- call FetchWhoosh (whooshBuffer w) ;;
   engineWrite w "whoosh.mp3" whoosh ;;
   ret (pagesWithAudio, images))%run.

(** The rest of the [try] block (lines 282-337): the segment loop and the
    assembly. *)
Definition encoding {Elem FS : Type} (w : World Elem FS)
    (holdTime fadeTime : float) (story : StoryData)
    (staged : list StoryPage * list PageImage) : Run.M FS unit :=
  (listFile <- segmentLoop w holdTime fadeTime (snd staged)
                 (length (fst staged)) 0 ["ffconcat version 1.0"] ;;
   assemble w story listFile)%run.

(** A speech model that answers every input, and the stand-in world whose
    narration endpoint is the speech route over that model. *)
Definition speechModel (input : string) : Exn + Bytes :=
  inr (encode ("mp3 " ++ input)).

Definition routedWorld : World nat Standin.Files :=
  {| numToString := Standin.showNumber;
     generateAudio := Routes.narrationEndpoint speechModel;
     html2canvas := fun el => inr (encode ("png " ++ natToString el));
     whooshBuffer := inr (encode "whoosh");
     ffmpeg := Standin.memEngine Standin.succeeding |}.


End ExportShapes.

(* ================================================================= *)
(** ** Stand-ins for the story route *)

Module RouteShapes.
Import Routes.Story.

Definition quoted (s : string) : string := DQ ++ s ++ DQ.

(** A chat completion whose message is the text of an empty array. *)
Definition completionText : string :=
  "{" ++ quoted "choices" ++ ":[{" ++ quoted "message" ++ ":{"
    ++ quoted "content" ++ ":" ++ quoted "[]" ++ "}}]}".

Definition completion : Json :=
  JObject
    [("choices",
      JArray [JObject [("message", JObject [("content", JString "[]")])]])].

(** A completion without choices. *)
Definition emptyText : string := "{" ++ quoted "choices" ++ ":[]}".

Definition empty : Json := JObject [("choices", JArray [])].

(** [JSON.parse] on the texts above; every other text is refused. *)
Definition jsonParse (s : string) : Exn + Json :=
  if String.eqb s completionText then inr completion
  else if String.eqb s emptyText then inr empty
  else if String.eqb s "[]" then inr (JArray [])
  else inl "Unexpected end of JSON input".

(** An API that refuses JSON mode and answers without it. *)
Definition strictApi (body : ChatRequest) : Exn + ApiResponse :=
  match response_format body with
  | Some _ =>
      inr (mkApiResponse false 400 "Bad Request"
             "Unknown parameter: response_format")
  | None => inr (mkApiResponse true 200 "OK" completionText)
  end.

(** An API that answers with a completion without choices. *)
Definition silentApi (_ : ChatRequest) : Exn + ApiResponse :=
  inr (mkApiResponse true 200 "OK" emptyText).

End RouteShapes.

(* ================================================================= *)
(** * Properties *)

(* ================================================================= *)
(** ** Strings and numerals *)

Lemma append_assoc (a b c : string) : (a ++ b) ++ c = a ++ (b ++ c).
Proof. induction a as [|ch a IH]; cbn; [reflexivity | now rewrite IH]. Qed.

Lemma length_append (a b : string) :
  String.length (a ++ b) = (String.length a + String.length b)%nat.
Proof. induction a as [|ch a IH]; cbn; [reflexivity | now rewrite IH]. Qed.

Lemma append_inv_tail (a b c : string) : a ++ c = b ++ c -> a = b.
Proof.
  revert b; induction a as [|x a IH]; intros [|y b] H; cbn in H.
  - reflexivity.
  - apply (f_equal String.length) in H. cbn in H.
    rewrite length_append in H. lia.
  - apply (f_equal String.length) in H. cbn in H.
    rewrite length_append in H. lia.
  - injection H as -> H. f_equal. now apply IH.
Qed.

Lemma append_inv_head (a b c : string) : a ++ b = a ++ c -> b = c.
Proof.
  induction a as [|x a IH]; cbn; intros H; [assumption|].
  injection H as H. now apply IH.
Qed.

Lemma natToString_inj (i j : nat) : natToString i = natToString j -> i = j.
Proof.
  unfold natToString. intros H.
  apply Unsigned.to_uint_inj.
  apply (f_equal NilEmpty.uint_of_string) in H.
  rewrite !NilEmpty.usu in H. now injection H.
Qed.

Lemma outName_inj (i j : nat) : outName i = outName j -> i = j.
Proof.
  unfold outName. intros H.
  apply append_inv_head in H. apply append_inv_tail in H.
  now apply natToString_inj.
Qed.

Lemma hasLF_append (a b : string) : hasLF (a ++ b) = hasLF a || hasLF b.
Proof.
  induction a as [|x a IH]; cbn; [reflexivity|].
  now rewrite IH, orb_assoc.
Qed.

Lemma hasLF_numeral (d : uint) : hasLF (NilEmpty.string_of_uint d) = false.
Proof. induction d; cbn; auto. Qed.

Lemma hasLF_outName (i : nat) : hasLF (outName i) = false.
Proof.
  unfold outName, natToString.
  now rewrite !hasLF_append, hasLF_numeral.
Qed.

Lemma lines_nonempty (s : string) : lines s <> [].
Proof.
  induction s as [|c s IH]; cbn; [discriminate|].
  destruct (Ascii.eqb c "010"); [discriminate|].
  destruct (lines s); [contradiction | discriminate].
Qed.

Lemma lines_single (a : string) : hasLF a = false -> lines a = [a].
Proof.
  induction a as [|c a IH]; cbn; [reflexivity|].
  intros H. apply orb_false_iff in H as [Hc Ha].
  rewrite Hc, (IH Ha). reflexivity.
Qed.

Lemma lines_append (a b : string) :
  hasLF a = false -> lines (a ++ String "010" b) = a :: lines b.
Proof.
  induction a as [|c a IH]; cbn; [reflexivity|].
  intros H. apply orb_false_iff in H as [Hc Ha].
  rewrite Hc, (IH Ha). reflexivity.
Qed.

(** Splitting what [join] glued gives the pieces back. *)
Lemma lines_join (ls : list string) :
  ls <> [] -> Forall (fun l => hasLF l = false) ls ->
  lines (join LF ls) = ls.
Proof.
  induction ls as [|a [|b rest] IH]; intros Hne Hall.
  - contradiction.
  - inversion Hall; subst. now apply lines_single.
  - inversion Hall as [|? ? Ha Hrest]; subst.
    change (join LF (a :: b :: rest))
      with (a ++ String "010" (join LF (b :: rest))).
    rewrite (lines_append _ _ Ha), IH; [reflexivity | discriminate | assumption].
Qed.

(* ================================================================= *)
(** ** The segment command *)

Import Extent.

Section SegmentCommand.
Variable show : float -> string.
Variables holdTime fadeTime : float.

(** The text handed to [-filter_complex] is the rendering of
    [segmentGraph]. *)
Lemma filterComplex_render :
  filterComplex show holdTime fadeTime
  = renderGraph show (segmentGraph holdTime fadeTime).
Proof.
  unfold filterComplex. cbn. rewrite !append_assoc. reflexivity.
Qed.

(** The command line of a segment, word by word. *)
Lemma parseArgs_segment (imageName : string) (i : nat) :
  parseArgs (segmentArgs show holdTime fadeTime imageName i)
  = [ Opt "-loop" "1";
      Opt "-i" imageName;
      Opt "-i" ("audio" ++ natToString i ++ ".mp3");
      Opt "-i" "whoosh.mp3";
      Opt "-filter_complex" (filterComplex show holdTime fadeTime);
      Opt "-map" "[v1]";
      Opt "-map" "[aout]";
      Opt "-c:v" "libx264";
      Opt "-c:a" "aac";
      Switch "-shortest";
      Output (outName i) ].
Proof. reflexivity. Qed.

End SegmentCommand.

(** C2: for every timing with 0 <= fadeTime < holdTime, the graph given to
    [-filter_complex] fades the page image (input 0) out from
    [holdTime - fadeTime] for [fadeTime] seconds, leaves the narration
    (input 1) at delay 0 on both channels, and delays the page-turn clip
    (input 2) by [(holdTime - fadeTime) * 1000] milliseconds on both
    channels; for 4 and 0.5 these are 3.5 s and 3500 ms. *)
Theorem fade_and_whoosh_timing
    (show : float -> string) (holdTime fadeTime : float)
    (imageName : string) (i : nat) :
  (0 <=? fadeTime)%float = true ->
  (fadeTime <? holdTime)%float = true ->
  let args := segmentArgs show holdTime fadeTime imageName i in
  let g := segmentGraph holdTime fadeTime in
  let fadeStart := (holdTime - fadeTime)%float in
  argValue "-filter_complex" args = Some (renderGraph show g)
  /\ argValues "-i" args
     = [imageName; "audio" ++ natToString i ++ ".mp3"; "whoosh.mp3"]
  /\ chainInputs "v1" g = Some ["0:v"]
  /\ filterOption "v1" "fade" "t" g = Some (VText "out")
  /\ filterOption "v1" "fade" "st" g = Some (VNum fadeStart)
  /\ filterOption "v1" "fade" "d" g = Some (VNum fadeTime)
  /\ chainInputs "a1" g = Some ["1:a"]
  /\ filterPositional "a1" "adelay" g = Some [VNat 0; VNat 0]
  /\ chainInputs "a2" g = Some ["2:a"]
  /\ filterPositional "a2" "adelay" g
     = Some [VNum (fadeStart * 1000)%float; VNum (fadeStart * 1000)%float]
  /\ (4 - 0.5 = 3.5)%float
  /\ ((4 - 0.5) * 1000 = 3500)%float.
Proof.
  intros _ _ args g fadeStart.
  split.
  - unfold args, g. rewrite <- filterComplex_render. reflexivity.
  - repeat split; reflexivity.
Qed.

(** The instance of the example: hold 4 s, fade 0.5 s, first page. *)
Lemma fade_and_whoosh_timing_example :
  argValue "-filter_complex"
    (segmentArgs Standin.showNumber 4 0.5 "page0.png" 0)
  = Some "[0:v]format=yuv420p,fade=t=out:st=3.5:d=0.5[v1];[1:a]adelay=0|0[a1];[2:a]adelay=3500|3500[a2];[a1][a2]amix=inputs=2:duration=shortest[aout]"
  /\ filterOption "v1" "fade" "st" (segmentGraph 4 0.5) = Some (VNum 3.5)
  /\ filterPositional "a2" "adelay" (segmentGraph 4 0.5)
     = Some [VNum 3500; VNum 3500].
Proof.
  destruct (fade_and_whoosh_timing Standin.showNumber 4 0.5 "page0.png" 0
              eq_refl eq_refl)
    as (Hargs & _ & _ & _ & Hst & _ & _ & _ & _ & Hdelay & H35 & H3500).
  split; [|split].
  - rewrite Hargs. vm_compute. reflexivity.
  - rewrite Hst, H35. reflexivity.
  - rewrite Hdelay, H3500. reflexivity.
Defined.

(** C9: every segment command of one export carries the same codec
    settings -- [libx264] video, [aac] audio, pixel format [yuv420p] --
    because two such commands differ only in the words that name the page
    image (position 3), the narration file (position 5) and the output file
    (position 19). *)
Theorem segments_share_codec_settings
    (show : float -> string) (holdTime fadeTime : float)
    (image1 image2 : string) (i j : nat) :
  let a := segmentArgs show holdTime fadeTime image1 i in
  let b := segmentArgs show holdTime fadeTime image2 j in
  let g := segmentGraph holdTime fadeTime in
  argValue "-c:v" a = Some "libx264"
  /\ argValue "-c:a" a = Some "aac"
  /\ argValue "-filter_complex" a = Some (renderGraph show g)
  /\ filterPositional "v1" "format" g = Some [VText "yuv420p"]
  /\ argValue "-c:v" a = argValue "-c:v" b
  /\ argValue "-c:a" a = argValue "-c:a" b
  /\ argValue "-filter_complex" a = argValue "-filter_complex" b
  /\ length a = length b
  /\ forall k, k <> 3%nat -> k <> 5%nat -> k <> 19%nat ->
       nth_error a k = nth_error b k.
Proof.
  intros a b g.
  assert (Hf : argValue "-filter_complex" a = Some (renderGraph show g)).
  { unfold a, g. rewrite <- filterComplex_render. reflexivity. }
  repeat split; try reflexivity; try exact Hf.
  intros k H3 H5 H19.
  do 20 (destruct k as [|k]; [first [reflexivity | congruence]|]).
  reflexivity.
Qed.

(** C8: the audio of a segment is [amix] of two tracks with
    [duration=shortest] -- the narration (input 1, not delayed) and the
    page-turn clip (input 2, delayed) -- so the mixed track is as long as
    the one of the two that ends first, never longer. *)
Theorem mixed_audio_ends_with_first_track
    (show : float -> string) (holdTime fadeTime : float)
    (imageName : string) (i : nat) (narration whoosh ms : Q) :
  floatToQ ((holdTime - fadeTime) * 1000)%float = Some ms ->
  (0 <= ms)%Q ->
  let args := segmentArgs show holdTime fadeTime imageName i in
  let g := segmentGraph holdTime fadeTime in
  argValue "-filter_complex" args = Some (renderGraph show g)
  /\ argValues "-i" args
     = [imageName; "audio" ++ natToString i ++ ".mp3"; "whoosh.mp3"]
  /\ argValues "-map" args = ["[v1]"; "[aout]"]
  /\ chainInputs "a1" g = Some ["1:a"]
  /\ chainInputs "a2" g = Some ["2:a"]
  /\ chainInputs "aout" g = Some ["a1"; "a2"]
  /\ filterOption "aout" "amix" "inputs" g = Some (VNat 2)
  /\ filterOption "aout" "amix" "duration" g = Some (VText "shortest")
  /\ exists env a1 a2 aout,
       graphExtent [ ("0:v", Unbounded); ("1:a", Finite narration);
                     ("2:a", Finite whoosh) ] g = Some env
       /\ pad "a1" env = Some (Finite a1)
       /\ pad "a2" env = Some (Finite a2)
       /\ pad "aout" env = Some (Finite aout)
       /\ (a1 == narration)%Q
       /\ (a2 == whoosh + ms / 1000)%Q
       /\ (aout <= a1)%Q
       /\ (aout <= a2)%Q
       /\ ((aout == a1)%Q \/ (aout == a2)%Q).
Proof.
  intros Hms Hpos args g.
  split.
  { unfold args, g. rewrite <- filterComplex_render. reflexivity. }
  do 7 (split; [reflexivity|]).
  assert (Hb : Qle_bool 0 ms = true) by (now apply Qle_bool_iff).
  cbn. rewrite Hms, Hb. cbn.
  do 4 eexists.
  split; [reflexivity|].
  do 3 (split; [reflexivity|]).
  split; [|split; [|split; [|split]]].
  - unfold Qdiv. cbn. ring.
  - assert (H0 : (0 <= ms / 1000)%Q).
    { unfold Qdiv. apply Qmult_le_0_compat; [assumption | discriminate]. }
    rewrite (Q.max_l (ms / 1000) 0 H0), Q.max_id. reflexivity.
  - apply Q.le_min_l.
  - apply Q.le_min_r.
  - destruct (Q.min_dec (narration + inject_Z 0 / 1000)
                (whoosh + Qmax (ms / 1000) (Qmax (ms / 1000) 0)));
      [left | right]; assumption.
Qed.

(** Hold 4 s, fade 0.5 s: the clip is delayed by 3500 ms. *)
Lemma mixed_audio_ends_with_first_track_example :
  exists aout,
    option_map (pad "aout")
      (graphExtent [ ("0:v", Unbounded); ("1:a", Finite 2);
                     ("2:a", Finite 1) ] (segmentGraph 4 0.5))
    = Some (Some (Finite aout))
    /\ (aout <= 2)%Q.
Proof.
  destruct (mixed_audio_ends_with_first_track Standin.showNumber 4 0.5
              "page0.png" 0 2 1
              (7696581394432000 # 2199023255552)%Q eq_refl)
    as (_ & _ & _ & _ & _ & _ & _ & _ & env & a1 & a2 & aout
        & Henv & _ & _ & Haout & H1 & _ & Hle & _).
  - discriminate.
  - exists aout. rewrite Henv. cbn. rewrite Haout.
    split; [reflexivity|]. now rewrite <- H1.
Defined.

(** C1: the segment command asks for no output length.  The page image is
    an endless input ([-loop 1]), no option bounds the output, and
    [-shortest] ends it with the mixed audio: with hold 4 s, fade 0.5 s
    and a 1 s page-turn clip, a 2 s narration gives a 2 s segment and a
    10 s narration a 4.5 s segment, not 4 s. *)
Theorem segment_length_follows_audio :
  (forall show holdTime fadeTime imageName i,
      let args := segmentArgs show holdTime fadeTime imageName i in
      argValue "-loop" args = Some "1"
      /\ hasOption "-shortest" args = true
      /\ limitsDuration args = false)
  /\ (exists q,
        outputExtent (segmentArgs Standin.showNumber 4 0.5 "page0.png" 0)
          (segmentGraph 4 0.5) 2 1 = Some (Finite q)
        /\ (q == 2)%Q /\ ~ (q == 4)%Q)
  /\ (exists q,
        outputExtent (segmentArgs Standin.showNumber 4 0.5 "page0.png" 0)
          (segmentGraph 4 0.5) 10 1 = Some (Finite q)
        /\ (q == 9 # 2)%Q /\ ~ (q == 4)%Q).
Proof.
  split; [|split].
  - intros. repeat split; reflexivity.
  - eexists. split; [vm_compute; reflexivity|]. split; [reflexivity | discriminate].
  - eexists. split; [vm_compute; reflexivity|]. split; [reflexivity | discriminate].
Qed.

(* ================================================================= *)
(** ** Runs *)

Section RunLemmas.
Context {FS : Type}.
Local Abbreviation M := (Run.M FS).

Lemma bind_inv {A B} (m : M A) (k : A -> M B) s t r s' :
  bind m k s = (t, r, s') ->
  (exists e, m s = (t, inl e, s') /\ r = inl e)
  \/ (exists t1 a s1 t2,
        m s = (t1, inr a, s1) /\ k a s1 = (t2, r, s') /\ t = (t1 ++ t2)%list).
Proof.
  unfold bind. destruct (m s) as [[t1 [e|a]] s1].
  - intros [= <- <- <-]. left. now exists e.
  - destruct (k a s1) as [[t2 r2] s2] eqn:Hk.
    intros [= <- <- <-]. right. now exists t1, a, s1, t2.
Qed.

Lemma Emits_ret {A} P (a : A) : Emits (FS := FS) P (ret a).
Proof. intros s. constructor. Qed.

Lemma Emits_throw {A} P e : Emits P (@throw FS A e).
Proof. intros s. constructor. Qed.

Lemma Emits_call {A} (P : Event -> bool) ev (r : Exn + A) :
  P ev = true -> Emits (FS := FS) P (call ev r).
Proof. intros H s. cbn. now constructor. Qed.

Lemma Emits_bind {A B} P (m : M A) (k : A -> M B) :
  Emits P m -> (forall a, Emits P (k a)) -> Emits P (bind m k).
Proof.
  intros Hm Hk s. specialize (Hm s). unfold bind.
  destruct (m s) as [[t1 [e|a]] s1]; cbn in *; [assumption|].
  specialize (Hk a s1). destruct (k a s1) as [[t2 r2] s2]; cbn in *.
  apply Forall_app. now split.
Qed.

Lemma Emits_promiseAll {A} P (ms : list (M A)) :
  Forall (Emits P) ms -> Emits P (promiseAll ms).
Proof.
  induction 1 as [|m ms Hm _ IH]; intros s; cbn; [constructor|].
  specialize (Hm s). destruct (m s) as [[t1 r1] s1]; cbn in *.
  specialize (IH s1). destruct (promiseAll ms s1) as [[t2 r2] s2]; cbn in *.
  apply Forall_app. now split.
Qed.

(** A batch that resolves has one result per promise. *)
Lemma promiseAll_length {A} (ms : list (M A)) s t rs s' :
  promiseAll ms s = (t, inr rs, s') -> length rs = length ms.
Proof.
  revert s t rs s'. induction ms as [|m ms IH]; intros s t rs s'; cbn.
  - now intros [= _ <- _].
  - destruct (m s) as [[t1 r1] s1].
    destruct (promiseAll ms s1) as [[t2 r2] s2] eqn:Hrest.
    destruct r1 as [e|a]; [discriminate|].
    destruct r2 as [e|others]; [discriminate|].
    intros [= _ <- _]. cbn. f_equal. eapply IH. eassumption.
Qed.

(** A batch with a promise that always rejects rejects. *)
Lemma promiseAll_rejects {A} (ms : list (M A)) (m : M A) s :
  In m ms ->
  (forall s1, exists e, snd (fst (m s1)) = inl e) ->
  exists e, snd (fst (promiseAll ms s)) = inl e.
Proof.
  intros Hin Hm. revert s.
  induction ms as [|m' ms IH]; intros s; [destruct Hin|]. cbn.
  destruct (m' s) as [[t1 r1] s1] eqn:Hm'.
  destruct (promiseAll ms s1) as [[t2 r2] s2] eqn:Hrest. cbn.
  destruct r1 as [e|a]; [now exists e|].
  destruct Hin as [->|Hin].
  - destruct (Hm s) as (e & He). rewrite Hm' in He. discriminate He.
  - destruct (IH Hin s1) as (e & He). rewrite Hrest in He. cbn in He.
    subst r2. now exists e.
Qed.
End RunLemmas.

Section PipelineRuns.
Context {Elem FS : Type}.
Variable w : World Elem FS.
Variables holdTime fadeTime : float.
Local Abbreviation M := (Run.M FS).

Lemma Emits_engineWrite (P : Event -> bool) file data :
  P (EngineWrite file data) = true -> Emits P (engineWrite w file data).
Proof.
  intros H s. unfold engineWrite.
  destruct (writeFile (ffmpeg w) file data s). cbn. now constructor.
Qed.

Lemma Emits_engineLoad (P : Event -> bool) :
  P EngineLoad = true -> Emits P (engineLoad w).
Proof.
  intros H s. unfold engineLoad.
  destruct (load (ffmpeg w) s). cbn. now constructor.
Qed.

Lemma Emits_fetchNarration (P : Event -> bool) p :
  P (FetchAudio (text p)) = true -> Emits P (fetchNarration w p).
Proof.
  intros H. unfold fetchNarration.
  apply Emits_bind; [now apply Emits_call|].
  intros res. destruct (ok res); [apply Emits_ret | apply Emits_throw].
Qed.

Lemma staging_narrations ps :
  Emits isStaging (promiseAll (map (fetchNarration w) ps)).
Proof.
  apply Emits_promiseAll, Forall_map, Forall_forall.
  intros p _. now apply Emits_fetchNarration.
Qed.

Lemma staging_captures els i acc :
  Emits isStaging (captureLoop w els i acc).
Proof.
  revert i acc. induction els as [|el els IH]; intros i acc; cbn.
  - apply Emits_ret.
  - apply Emits_bind; [now apply Emits_call|]. intros png. apply IH.
Qed.

(** The capture loop names the images [page0.png], [page1.png], ... *)
Lemma captureLoop_names els i acc s t images s' :
  captureLoop w els i acc s = (t, inr images, s') ->
  map name acc = map pageName (seq 0 i) ->
  map name images = map pageName (seq 0 (length images)).
Proof.
  revert i acc s t.
  induction els as [|el els IH]; intros i acc s t; cbn [captureLoop].
  - intros [= _ <- _] Hacc.
    assert (Hlen : length acc = i).
    { apply (f_equal (@length _)) in Hacc.
      now rewrite !length_map, length_seq in Hacc. }
    now rewrite Hlen.
  - intros H Hacc.
    apply bind_inv in H as [(e & _ & [=]) | (t1 & png & s1 & t2 & _ & H & _)].
    eapply IH; [eassumption|].
    rewrite map_app, Hacc, seq_S, map_app. reflexivity.
Qed.

Lemma staging_images images :
  map name images = map pageName (seq 0 (length images)) ->
  Emits isStaging
    (promiseAll (map (fun im => engineWrite w (name im) (fetchFile (blob im))) images)).
Proof.
  intros Hnames.
  apply Emits_promiseAll, Forall_map, Forall_forall.
  intros im Him. apply Emits_engineWrite.
  apply (in_map name) in Him. rewrite Hnames in Him.
  apply in_map_iff in Him as (j & <- & _). reflexivity.
Qed.

Lemma staging_stageNarration p i : Emits isStaging (stageNarration w p i).
Proof.
  unfold stageNarration. destruct (audioUrl p).
  - now apply Emits_engineWrite.
  - apply Emits_throw.
Qed.

Lemma staging_audio ps :
  Emits isStaging (promiseAll (mapi (stageNarration w) ps)).
Proof.
  apply Emits_promiseAll. unfold mapi. generalize 0%nat.
  induction ps as [|p ps IH]; intros i; cbn; constructor.
  - apply staging_stageNarration.
  - apply IH.
Qed.
Local Abbreviation show := (numToString w).

Lemma engineExec_inv args s t r s' :
  engineExec w args s = (t, r, s') -> t = [EngineExec args r].
Proof.
  unfold engineExec. destruct (exec (ffmpeg w) args s).
  now intros [= <- <- _].
Qed.

Lemma engineWrite_inv file data s t r s' :
  engineWrite w file data s = (t, r, s') -> t = [EngineWrite file data].
Proof.
  unfold engineWrite. destruct (writeFile (ffmpeg w) file data s).
  now intros [= <- _ _].
Qed.

Lemma engineRead_inv file s t r s' :
  engineRead w file s = (t, r, s') -> t = [EngineRead file r].
Proof.
  unfold engineRead. destruct (readFile (ffmpeg w) file s).
  now intros [= <- <- _].
Qed.

Lemma image_name images i im :
  map name images = map pageName (seq 0 (length images)) ->
  nth_error images i = Some im -> name im = pageName i.
Proof.
  intros Hnames Him.
  assert (Hlt : (i < length images)%nat).
  { apply nth_error_Some. congruence. }
  apply (map_nth_error name) in Him.
  rewrite Hnames, nth_error_map, nth_error_seq in Him.
  apply Nat.ltb_lt in Hlt. rewrite Hlt in Him. now injection Him.
Qed.

(** The segment loop either completes, having issued one encode per page
    and listed one entry per page, or stops at the first page whose image
    is missing or whose encode throws. *)
Lemma segmentLoop_run images n i listFile s t r s' :
  map name images = map pageName (seq 0 (length images)) ->
  (i <= length images)%nat ->
  segmentLoop w holdTime fadeTime images n i listFile s = (t, r, s') ->
  (r = inr (listFile ++ map entry (seq i n))%list
   /\ (i + n <= length images)%nat
   /\ SegmentEvents show holdTime fadeTime i n t)
  \/ (exists e k segs last,
        r = inl e /\ (k < n)%nat
        /\ SegmentEvents show holdTime fadeTime i k segs
        /\ (last = []
            \/ last = [segmentExec show holdTime fadeTime (i + k) (inl e)])
        /\ t = (segs ++ last)%list).
Proof.
  intros Hnames. revert i listFile s t r s'.
  induction n as [|n IH]; intros i listFile s t r s' Hi; cbn [segmentLoop].
  - intros [= <- <- _]. left. cbn. rewrite app_nil_r, Nat.add_0_r.
    repeat split; [assumption | constructor].
  - destruct (nth_error images i) as [im|] eqn:Him.
    + assert (Hlt : (i < length images)%nat).
      { apply nth_error_Some. congruence. }
      rewrite (image_name _ _ _ Hnames Him). intros H.
      apply bind_inv in H
        as [(e & Hx & ->) | (t1 & status & s1 & t2 & Hx & H & ->)].
      * apply engineExec_inv in Hx as ->.
        right.
        exists e, 0%nat, [], [segmentExec show holdTime fadeTime i (inl e)].
        rewrite Nat.add_0_r.
        repeat split; [lia | constructor | now right].
      * apply engineExec_inv in Hx as ->.
        apply IH in H
          as [(-> & Hn & Hsegs)
             | (e & k & segs & last & -> & Hk & Hsegs & Hlast & ->)];
          [| |exact Hlt].
        -- left. split; [|split].
           ++ rewrite <- app_assoc. reflexivity.
           ++ lia.
           ++ now constructor.
        -- right.
           exists e, (S k),
             (segmentExec show holdTime fadeTime i (inr status) :: segs), last.
           rewrite Nat.add_succ_r.
           repeat split; [lia | now constructor | assumption].
    + intros [= <- <- _].
      right. eexists _, 0%nat, [], [].
      repeat split; [lia | constructor | now left].
Qed.

(** The capture loop adds one image per page element. *)
Lemma captureLoop_length els i acc s t images s' :
  captureLoop w els i acc s = (t, inr images, s') ->
  length images = (length acc + length els)%nat.
Proof.
  revert i acc s t.
  induction els as [|el els IH]; intros i acc s t; cbn [captureLoop].
  - intros [= _ <- _]. cbn. lia.
  - intros H.
    apply bind_inv in H as [(e & _ & [=]) | (t1 & png & s1 & t2 & _ & H & _)].
    apply IH in H. rewrite H, length_app. cbn. lia.
Qed.

Lemma assemble_run story n s t r s' :
  assemble w story (manifest n) s = (t, r, s') ->
  AssemblyEvents story n t r.
Proof.
  unfold assemble. intros H.
  apply bind_inv in H as [(e & Hw & ->) | (t1 & [] & s1 & t2 & Hw & H & ->)];
    apply engineWrite_inv in Hw as ->; [constructor|].
  apply bind_inv in H as [(e & Hx & ->) | (t1 & st & s2 & t3 & Hx & H & ->)];
    apply engineExec_inv in Hx as ->; [constructor|].
  apply bind_inv in H as [(e & Hr & ->) | (t1 & data & s3 & t4 & Hr & H & ->)];
    apply engineRead_inv in Hr as ->; [constructor|].
  injection H as <- <- _. constructor.
Qed.

Lemma ExportRun_prefix story n shown t1 t2 r :
  Forall (fun ev => isStaging ev = true) t1 ->
  ExportRun show holdTime fadeTime story n shown t2 r ->
  ExportRun show holdTime fadeTime story n shown (t1 ++ t2) r.
Proof.
  intros H1 [pre e Hpre | pre k segs last e Hpre Hk Hsegs Hlast
             | pre segs tl r' Hpre Hn Hsegs Htl].
  - constructor. apply Forall_app. now split.
  - rewrite app_assoc. econstructor 2; try eassumption.
    apply Forall_app. now split.
  - rewrite app_assoc. econstructor 3; try eassumption.
    apply Forall_app. now split.
Qed.

Lemma ExportRun_bind {A} (m : M A) (k : A -> M unit) story n shown
    s t r s' :
  Emits isStaging m ->
  bind m k s = (t, r, s') ->
  (forall t1 a s1 t2,
      m s = (t1, inr a, s1) -> k a s1 = (t2, r, s') ->
      ExportRun show holdTime fadeTime story n shown t2 r) ->
  ExportRun show holdTime fadeTime story n shown t r.
Proof.
  intros Hm H Hk. specialize (Hm s).
  apply bind_inv in H as [(e & Hms & ->) | (t1 & a & s1 & t2 & Hms & H & ->)];
    rewrite Hms in Hm; cbn in Hm.
  - now constructor.
  - apply ExportRun_prefix; [assumption|]. eapply Hk; eassumption.
Qed.

(** Every run of the [try] block has one of the three shapes. *)
Lemma exportVideo_run story book s t r s' :
  exportVideo w holdTime fadeTime story book s = (t, r, s') ->
  ExportRun show holdTime fadeTime story (length (pages story))
    (length book) t r.
Proof.
  unfold exportVideo. intros H.
  eapply ExportRun_bind; [| exact H |]; [apply staging_narrations |].
  clear H. intros t1 pagesWithAudio s1 t2 Hnarr H. cbv beta in H.
  apply promiseAll_length in Hnarr. rewrite length_map in Hnarr.
  rewrite Hnarr in H.
  eapply ExportRun_bind; [| exact H |]; [apply staging_captures |].
  clear H. intros t3 images s2 t4 Hcap H. cbv beta in H.
  pose proof (captureLoop_length _ _ _ _ _ _ _ Hcap) as Hshown.
  cbn in Hshown.
  apply captureLoop_names in Hcap; [|reflexivity].
  eapply ExportRun_bind; [| exact H |]; [now apply Emits_engineLoad |].
  clear H. intros t5 [] s3 t6 _ H. cbv beta in H.
  eapply ExportRun_bind; [| exact H |]; [now apply staging_images |].
  clear H. intros t7 ? s4 t8 _ H. cbv beta in H.
  eapply ExportRun_bind; [| exact H |]; [apply staging_audio |].
  clear H. intros t9 ? s5 t10 _ H. cbv beta in H.
  eapply ExportRun_bind; [| exact H |]; [now apply Emits_call |].
  clear H. intros t11 whoosh s6 t12 _ H. cbv beta in H.
  eapply ExportRun_bind; [| exact H |]; [now apply Emits_engineWrite |].
  clear H. intros t13 [] s7 t14 _ H. cbv beta in H.
  apply bind_inv in H
    as [(e & Hloop & ->) | (t15 & listFile & s8 & t16 & Hloop & H & ->)];
    apply (segmentLoop_run _ _ _ _ _ _ _ _ Hcap (Nat.le_0_l _)) in Hloop
      as [([=] & Hn & Hsegs)
         | (e' & k & segs & last & [=] & Hk & Hsegs & Hlast & ->)];
    subst.
  - apply (export_segment_failed _ _ _ _ _ _ [] k segs last e');
      [constructor | assumption | assumption | assumption].
  - apply (export_assembled _ _ _ _ _ _ [] t15 t16 r);
      [constructor | cbn in Hn; lia | assumption |].
    eapply assemble_run. exact H.
Qed.

(** The events of a call that passes the guard: the busy flag is raised,
    the [try] block runs, a failure is reported by one alert, and the busy
    flag is lowered. *)
Lemma trace_run story book :
  exists t r,
    ExportRun show holdTime fadeTime story (length (pages story))
      (length book) t r
    /\ (exists s',
          exportVideo w holdTime fadeTime story book (fresh (ffmpeg w))
          = (t, r, s'))
    /\ trace w holdTime fadeTime (Some story) (Some book)
       = (SetBusy true :: (t ++ alertOf r) ++ [SetBusy false])%list.
Proof.
  unfold trace, downloadVideo, bind, finally, tryCatch, emit.
  destruct (exportVideo w holdTime fadeTime story book (fresh (ffmpeg w)))
    as [[t r] s'] eqn:Hrun.
  exists t, r. split; [eapply exportVideo_run; eassumption|].
  split; [now exists s'|].
  destruct r as [e|[]]; cbn; [reflexivity|].
  now rewrite app_nil_r.
Qed.
End PipelineRuns.

(* ================================================================= *)
(** ** Reading a run *)

Section Reading.
Variable show : float -> string.
Variables holdTime fadeTime : float.

Lemma staging_not_assembly ev : isStaging ev = true -> isAssembly ev = false.
Proof.
  destruct ev; cbn; try discriminate; try reflexivity.
  now destruct (String.eqb file "list.txt").
Qed.

Lemma staging_not_exec ev : isStaging ev = true -> isExec ev = false.
Proof. destruct ev; cbn; congruence. Qed.



Lemma staging_produces_nothing pre :
  Forall (fun ev => isStaging ev = true) pre -> flat_map producedBy pre = [].
Proof.
  induction 1 as [|ev pre Hev _ IH]; cbn; [reflexivity|].
  rewrite IH. destruct ev; cbn in *; try reflexivity; discriminate.
Qed.

Lemma segments_are_execs i k segs :
  SegmentEvents show holdTime fadeTime i k segs ->
  Forall (fun ev => isExec ev = true /\ isAssembly ev = false
                    /\ isDownload ev = false /\ isAlert ev = false) segs.
Proof.
  induction 1 as [|i k status rest _ IH]; constructor; [|assumption].
  repeat split.
Qed.

Lemma segments_produce i k segs :
  SegmentEvents show holdTime fadeTime i k segs ->
  flat_map producedBy segs = map outName (seq i k).
Proof.
  induction 1 as [|i k status rest _ IH]; [reflexivity|].
  cbn [flat_map seq map]. rewrite IH. reflexivity.
Qed.


Lemma outNames_NoDup n : NoDup (map outName (seq 0 n)).
Proof.
  generalize (seq_NoDup n 0).
  induction 1 as [|i l Hi _ IH]; cbn; constructor; [|assumption].
  intros Hin. apply in_map_iff in Hin as (j & Heq & Hj).
  apply outName_inj in Heq. congruence.
Qed.

Lemma manifest_lines n : lines (join LF (manifest n)) = manifest n.
Proof.
  apply lines_join; [discriminate|].
  constructor; [reflexivity|].
  apply Forall_map, Forall_forall. intros i _.
  unfold entry. rewrite hasLF_append, hasLF_outName. reflexivity.
Qed.

Lemma manifest_no_blank n : Forall (fun l => l <> EmptyString) (manifest n).
Proof.
  constructor; [discriminate|].
  apply Forall_map, Forall_forall. intros i _. discriminate.
Qed.

(** An event of step 6 occurs only in a run that reached step 6. *)
Lemma assembly_reached story n shown t r ev :
  ExportRun show holdTime fadeTime story n shown t r ->
  In ev (SetBusy true :: (t ++ alertOf r) ++ [SetBusy false]) ->
  isAssembly ev = true ->
  exists pre segs tl,
    t = (pre ++ segs ++ tl)%list
    /\ Forall (fun e => isStaging e = true) pre
    /\ (n <= shown)%nat
    /\ SegmentEvents show holdTime fadeTime 0 n segs
    /\ AssemblyEvents story n tl r
    /\ In ev tl.
Proof.
  intros Hrun Hin Hev.
  assert (Ht : In ev t).
  { destruct Hin as [<-|Hin]; [discriminate|].
    apply in_app_or in Hin as [Hin|[<-|[]]]; [|discriminate].
    apply in_app_or in Hin as [Hin|Hin]; [assumption|].
    destruct r as [e|[]]; [|destruct Hin].
    destruct Hin as [<-|[]]. discriminate. }
  clear Hin.
  assert (Hstaging : forall pre, Forall (fun e => isStaging e = true) pre ->
                                 ~ In ev pre).
  { intros pre Hpre Hin. rewrite Forall_forall in Hpre.
    apply Hpre, staging_not_assembly in Hin. congruence. }
  assert (Hsegments : forall i k segs,
             SegmentEvents show holdTime fadeTime i k segs -> ~ In ev segs).
  { intros i k segs Hsegs Hin. apply segments_are_execs in Hsegs.
    rewrite Forall_forall in Hsegs. apply Hsegs in Hin as (_ & Hin & _).
    congruence. }
  destruct Hrun as [pre e Hpre | pre k segs last e Hpre Hk Hsegs Hlast
                   | pre segs tl r Hpre Hn Hsegs Htl].
  - now apply Hstaging in Ht.
  - apply in_app_or in Ht as [Ht|Ht]; [now apply Hstaging in Ht|].
    apply in_app_or in Ht as [Ht|Ht];
      [destruct (Hsegments _ _ _ Hsegs Ht)|].
    destruct Hlast as [->| ->]; [destruct Ht|].
    destruct Ht as [<-|[]]. discriminate Hev.
  - apply in_app_or in Ht as [Ht|Ht]; [now apply Hstaging in Ht|].
    apply in_app_or in Ht as [Ht|Ht];
      [destruct (Hsegments _ _ _ Hsegs Ht)|].
    now exists pre, segs, tl.
Qed.
End Reading.

(* ================================================================= *)
(** ** The export as a whole *)

(** Case analysis on [H : In ev [e1; ...; en]], keeping the cases whose
    event has the constructor of [ev]. *)
Ltac in_cases H :=
  cbn in H;
  repeat (destruct H as [H|H]; [try discriminate H|]);
  try (now destruct H).

Section WholeRun.
Context {Elem FS : Type}.
Variable w : World Elem FS.
Variables holdTime fadeTime : float.
Local Abbreviation show := (numToString w).

(** A run in which an event of step 6 occurs. *)
Lemma trace_assembly story book ev :
  In ev (trace w holdTime fadeTime (Some story) (Some book)) ->
  isAssembly ev = true ->
  exists pre segs tl r,
    trace w holdTime fadeTime (Some story) (Some book)
    = (SetBusy true :: pre ++ segs ++ tl ++ alertOf r ++ [SetBusy false])%list
    /\ Forall (fun e => isStaging e = true) pre
    /\ (length (pages story) <= length book)%nat
    /\ SegmentEvents show holdTime fadeTime 0 (length (pages story)) segs
    /\ AssemblyEvents story (length (pages story)) tl r
    /\ In ev tl.
Proof.
  destruct (trace_run w holdTime fadeTime story book)
    as (t & r & Hrun & _ & ->).
  intros Hin Hev.
  destruct (assembly_reached _ _ _ _ _ _ _ _ _ Hrun Hin Hev)
    as (pre & segs & tl & -> & Hpre & Hn & Hsegs & Htl & Hintl).
  exists pre, segs, tl, r.
  repeat split; try assumption.
  now rewrite <- !app_assoc.
Qed.

End WholeRun.

(** C10: without a story, or without the rendered book, [downloadVideo]
    returns at once: it logs nothing -- no busy flag, no fetch, no engine
    call, no download, no alert --, throws nothing and leaves the engine as
    it was. *)
Theorem downloadVideo_guard {Elem FS : Type} (w : World Elem FS)
    (holdTime fadeTime : float)
    (story : option StoryData) (bookRef : option (list Elem)) (s : FS) :
  story = None \/ bookRef = None ->
  downloadVideo w holdTime fadeTime story bookRef s = ([], inr tt, s)
  /\ trace w holdTime fadeTime story bookRef = [].
Proof.
  intros [-> | ->]; unfold trace; [|destruct story]; split; reflexivity.
Qed.

(** C3: when the export writes the concat list, every segment has been
    encoded, and the list is a text of one header line followed by one
    [file] line per segment file, in page order, each file once, with no
    empty line. *)
Theorem manifest_lists_every_segment_once {Elem FS : Type}
    (w : World Elem FS) (holdTime fadeTime : float)
    (story : StoryData) (book : list Elem) (data : Bytes) :
  let n := length (pages story) in
  let run := trace w holdTime fadeTime (Some story) (Some book) in
  (1 <= n)%nat ->
  In (EngineWrite "list.txt" data) run ->
  exists before after text,
    run = (before ++ EngineWrite "list.txt" data :: after)%list
    /\ flat_map producedBy before = map outName (seq 0 n)
    /\ data = encode text
    /\ text = join LF ("ffconcat version 1.0"
                         :: map (fun f => "file " ++ f)
                              (flat_map producedBy before))
    /\ lines text
       = "ffconcat version 1.0"
           :: map (fun f => "file " ++ f) (flat_map producedBy before)
    /\ NoDup (flat_map producedBy before)
    /\ Forall (fun l => l <> EmptyString) (lines text)
    /\ length (lines text) = S n.
Proof.
  intros n run _ Hin.
  destruct (trace_assembly w holdTime fadeTime story book _ Hin eq_refl)
    as (pre & segs & tl & r & Hrun & Hpre & _ & Hsegs & Htl & Hintl).
  fold run in Hrun. fold n in Hsegs, Htl.
  assert (Hprod : flat_map producedBy (SetBusy true :: pre ++ segs)
                  = map outName (seq 0 n)).
  { cbn. rewrite flat_map_app, (staging_produces_nothing _ Hpre).
    apply (segments_produce _ _ _ _ _ _ Hsegs). }
  assert (Htext : join LF ("ffconcat version 1.0"
                             :: map (fun f => "file " ++ f)
                                  (map outName (seq 0 n)))
                  = join LF (manifest n)).
  { unfold manifest. now rewrite map_map. }
  assert (Hdata : exists tl', tl = EngineWrite "list.txt" data :: tl'
                              /\ data = encode (join LF (manifest n))).
  { destruct Htl; in_cases Hintl; injection Hintl as <-;
      eexists; split; reflexivity. }
  destruct Hdata as (tl' & -> & Hdata).
  exists (SetBusy true :: pre ++ segs)%list,
         (tl' ++ alertOf r ++ [SetBusy false])%list,
         (join LF (manifest n)).
  rewrite Hprod, Htext, manifest_lines.
  repeat split.
  - rewrite Hrun. cbn. now rewrite <- !app_assoc.
  - assumption.
  - unfold manifest. now rewrite map_map.
  - apply outNames_NoDup.
  - apply manifest_no_blank.
  - cbn. now rewrite length_map, length_seq.
Qed.




(** C4, as the code has it: with one page, assembly is not bypassed.  A
    run that offers a download has encoded the page, written a concat list
    of the header and the one entry, run the concat command, and offers
    the bytes read from [output.mp4]. *)
Theorem single_segment_is_concatenated {Elem FS : Type}
    (w : World Elem FS) (holdTime fadeTime : float)
    (story : StoryData) (book : list Elem)
    (filename : string) (data : Bytes) :
  let run := trace w holdTime fadeTime (Some story) (Some book) in
  length (pages story) = 1%nat ->
  In (Download filename data) run ->
  exists before status0 status,
    run = (before
             ++ [ segmentExec (numToString w) holdTime fadeTime 0
                    (inr status0);
                  EngineWrite "list.txt"
                    (encode ("ffconcat version 1.0" ++ LF ++ "file seg0.mp4"));
                  EngineExec concatArgs (inr status);
                  EngineRead "output.mp4" (inr data);
                  Download filename data;
                  SetBusy false ])%list
    /\ Forall (fun ev => isExec ev = false) before
    /\ filename = orElse (title story) "storybook" ++ ".mp4".
Proof.
  intros run Hone Hin.
  destruct (trace_assembly w holdTime fadeTime story book _ Hin eq_refl)
    as (pre & segs & tl & r & Hrun & Hpre & _ & Hsegs & Htl & Hintl).
  fold run in Hrun. rewrite Hone in Hsegs, Htl.
  inversion Hsegs as [|i k status0 rest Hrest]; subst.
  inversion Hrest; subst.
  destruct Htl; in_cases Hintl. injection Hintl as <- <-.
  exists (SetBusy true :: pre), status0, status.
  split; [|split].
  - rewrite Hrun. reflexivity.
  - constructor; [reflexivity|].
    eapply Forall_impl; [|exact Hpre]. apply staging_not_exec.
  - reflexivity.
Qed.

(** One page: the concat command runs, and what is offered is the file it
    wrote, not the segment. *)
Lemma single_segment_not_bypassed :
  let result := downloadVideo (Standin.world Standin.speech Standin.succeeding)
                  4 0.5 (Some Standin.moon) (Some [0%nat]) [] in
  let run := fst (fst result) in
  let files := snd result in
  length (pages Standin.moon) = 1%nat
  /\ nth_error run 8
     = Some (segmentExec Standin.showNumber 4 0.5 0 (inr 0%Z))
  /\ nth_error run 10 = Some (EngineExec concatArgs (inr 0%Z))
  /\ nth_error run 12
     = Some (Download "Moon.mp4" (encode "video output.mp4"))
  /\ Standin.lookupFile "seg0.mp4" files = Some (encode "video seg0.mp4")
  /\ encode "video output.mp4" <> encode "video seg0.mp4".
Proof. repeat split; discriminate. Qed.

(** The same one-page export, as an instance of the theorem. *)
Lemma single_segment_is_concatenated_example :
  let run := trace (Standin.world Standin.speech Standin.succeeding) 4 0.5
               (Some Standin.moon) (Some [0%nat]) in
  exists before status0 status,
    run = (before
             ++ [ segmentExec Standin.showNumber 4 0.5 0 (inr status0);
                  EngineWrite "list.txt"
                    (encode ("ffconcat version 1.0" ++ LF ++ "file seg0.mp4"));
                  EngineExec concatArgs (inr status);
                  EngineRead "output.mp4" (inr (encode "video output.mp4"));
                  Download "Moon.mp4" (encode "video output.mp4");
                  SetBusy false ])%list.
Proof.
  intros run.
  destruct (single_segment_is_concatenated
              (Standin.world Standin.speech Standin.succeeding) 4 0.5
              Standin.moon [0%nat] "Moon.mp4" (encode "video output.mp4"))
    as (before & status0 & status & Hrun & _ & _).
  - reflexivity.
  - vm_compute. do 12 right. left. reflexivity.
  - exists before, status0, status. exact Hrun.
Defined.

(** The guard at work: no story, a mounted book. *)
Lemma downloadVideo_guard_example :
  trace (Standin.world Standin.speech Standin.succeeding) 4 0.5
    None (Some [0%nat]) = [].
Proof.
  exact (proj2 (downloadVideo_guard
                  (Standin.world Standin.speech Standin.succeeding) 4 0.5
                  None (Some [0%nat]) [] (or_introl eq_refl))).
Defined.

(** Two pages: the list has three lines. *)
Lemma manifest_lists_every_segment_once_example :
  let run := trace (Standin.world Standin.speech Standin.succeeding) 4 0.5
               (Some Standin.tide) (Some [0; 1]%nat) in
  exists before after text,
    run = (before ++ EngineWrite "list.txt" (encode text) :: after)%list
    /\ flat_map producedBy before = ["seg0.mp4"; "seg1.mp4"]
    /\ lines text = ["ffconcat version 1.0"; "file seg0.mp4"; "file seg1.mp4"].
Proof.
  intros run.
  destruct (manifest_lists_every_segment_once
              (Standin.world Standin.speech Standin.succeeding) 4 0.5
              Standin.tide [0; 1]%nat
              (encode ("ffconcat version 1.0" ++ LF ++ "file seg0.mp4"
                         ++ LF ++ "file seg1.mp4")))
    as (before & after & text & Hrun & Hprod & Hdata & _ & Hlines & _).
  - cbn. lia.
  - vm_compute. do 14 right. left. reflexivity.
  - exists before, after, text. rewrite <- Hdata.
    split; [exact Hrun|]. split; [exact Hprod|].
    rewrite Hlines, Hprod. reflexivity.
Defined.

(* ================================================================= *)
(** ** Saved stories *)

Section ObjectLemmas.
Context {V : Type}.
Implicit Types (o : JsObject.Obj V) (k : string) (v : V).

Lemma getOwn_overwrite k k' v o :
  JsObject.getOwn k o <> None ->
  JsObject.getOwn k' (JsObject.overwrite k v o)
  = if String.eqb k k' then Some v else JsObject.getOwn k' o.
Proof.
  induction o as [|[k0 v0] o IH]; cbn; [congruence|].
  destruct (String.eqb_spec k0 k) as [->|Hk0]; intros H; cbn.
  - destruct (String.eqb_spec k k'); reflexivity.
  - destruct (String.eqb_spec k0 k') as [->|Hk0'].
    + destruct (String.eqb_spec k k'); [congruence | reflexivity].
    + now apply IH.
Qed.

Lemma getOwn_insertIndex n k k' v o :
  JsObject.getOwn k o = None ->
  JsObject.getOwn k' (JsObject.insertIndex n k v o)
  = if String.eqb k k' then Some v else JsObject.getOwn k' o.
Proof.
  induction o as [|[k0 v0] o IH]; cbn; [reflexivity|].
  destruct (String.eqb_spec k0 k) as [->|Hk0]; [discriminate|]. intros H.
  assert (Hhead : JsObject.getOwn k' ((k, v) :: (k0, v0) :: o)
                  = if String.eqb k k' then Some v
                    else if String.eqb k0 k' then Some v0
                         else JsObject.getOwn k' o) by reflexivity.
  destruct (JsObject.arrayIndex k0) as [m|]; [|exact Hhead].
  destruct (m <? n)%N; [|exact Hhead].
  cbn. rewrite (IH H).
  destruct (String.eqb_spec k0 k') as [->|]; [|reflexivity].
  destruct (String.eqb_spec k k'); [congruence | reflexivity].
Qed.

Lemma getOwn_append k k' v o :
  JsObject.getOwn k o = None ->
  JsObject.getOwn k' (o ++ [(k, v)])%list
  = if String.eqb k k' then Some v else JsObject.getOwn k' o.
Proof.
  induction o as [|[k0 v0] o IH]; cbn; [reflexivity|].
  destruct (String.eqb_spec k0 k) as [->|Hk0]; [discriminate|]. intros H.
  rewrite (IH H).
  destruct (String.eqb_spec k0 k') as [->|]; [|reflexivity].
  destruct (String.eqb_spec k k'); [congruence | reflexivity].
Qed.

(** Reading after [{ ...o, [k]: v }]: the new value under [k], the old
    values elsewhere. *)
Lemma getOwn_set k k' v o :
  JsObject.getOwn k' (JsObject.set k v o)
  = if String.eqb k k' then Some v else JsObject.getOwn k' o.
Proof.
  unfold JsObject.set.
  destruct (JsObject.getOwn k o) as [v0|] eqn:Hk.
  - apply getOwn_overwrite. congruence.
  - destruct (JsObject.arrayIndex k);
      [now apply getOwn_insertIndex | now apply getOwn_append].
Qed.

Lemma getOwn_keys k o :
  JsObject.getOwn k o <> None <-> In k (JsObject.keys o).
Proof.
  unfold JsObject.keys.
  induction o as [|[k0 v0] o IH]; cbn; [tauto|].
  destruct (String.eqb_spec k0 k) as [->|Hk0].
  - split; [now left | discriminate].
  - rewrite IH. split; [now right | now intros [?|?]].
Qed.

Lemma keys_overwrite k v o :
  JsObject.keys (JsObject.overwrite k v o) = JsObject.keys o.
Proof.
  unfold JsObject.keys.
  induction o as [|[k0 v0] o IH]; cbn; [reflexivity|].
  destruct (String.eqb_spec k0 k) as [->|]; cbn; [reflexivity|].
  now rewrite IH.
Qed.

Lemma keys_insertIndex n k v o :
  exists before after,
    JsObject.keys o = (before ++ after)%list
    /\ JsObject.keys (JsObject.insertIndex n k v o)
       = (before ++ k :: after)%list.
Proof.
  unfold JsObject.keys.
  induction o as [|[k0 v0] o (before & after & Ho & Hi)]; cbn.
  - now exists [], [].
  - destruct (JsObject.arrayIndex k0) as [m|].
    + destruct (m <? n)%N.
      * exists (k0 :: before), after. cbn. now rewrite Ho, Hi.
      * now exists [], (k0 :: map fst o).
    + now exists [], (k0 :: map fst o).
Qed.

(** The keys after [{ ...o, [k]: v }]: unchanged when [k] was a key, with
    [k] added at one place otherwise. *)
Lemma keys_set k v o :
  (JsObject.getOwn k o <> None
   /\ JsObject.keys (JsObject.set k v o) = JsObject.keys o)
  \/ (JsObject.getOwn k o = None
      /\ exists before after,
           JsObject.keys o = (before ++ after)%list
           /\ JsObject.keys (JsObject.set k v o) = (before ++ k :: after)%list).
Proof.
  unfold JsObject.set.
  destruct (JsObject.getOwn k o) as [v0|] eqn:Hk.
  - left. split; [discriminate | apply keys_overwrite].
  - right. split; [reflexivity|].
    destruct (JsObject.arrayIndex k) as [n|]; [apply keys_insertIndex|].
    exists (JsObject.keys o), []. unfold JsObject.keys.
    now rewrite map_app, app_nil_r.
Qed.
End ObjectLemmas.

Lemma NoDup_insert {A} (x : A) (before after : list A) :
  ~ In x (before ++ after) -> NoDup (before ++ after) ->
  NoDup (before ++ x :: after).
Proof.
  induction before as [|b before IH]; cbn; intros Hx Hnd.
  - now constructor.
  - inversion Hnd as [|? ? Hb Hrest]; subst. constructor.
    + intros Hin. apply in_app_or in Hin as [Hin|[->|Hin]].
      * apply Hb, in_or_app. now left.
      * apply Hx. now left.
      * apply Hb, in_or_app. now right.
    + apply IH; [|assumption]. intros Hin. apply Hx. now right.
Qed.

(** X1: saving a story writes the updated map to storage and, when the
    storage accepts it, makes it the saved-stories state; in that map the
    story loads back under its title, whatever was saved under that title
    before, and every other title loads what it loaded before. *)
Theorem saved_story_loads_back {Elem : Type} (api : Home.Api Elem)
    (savedStories : JsObject.Obj StoryData) (st : StoryData) :
  let updated := Home.updated savedStories st in
  Home.storageSet api "storybook_saved" updated = None ->
  Home.saveStory api (Some st) savedStories
  = ([ Home.StorageSet "storybook_saved" updated;
       Home.SetSavedStories updated ], inr tt)
  /\ Home.loadStory api updated (title st)
     = ([Home.SetStory (Some st)], inr tt)
  /\ forall t, t <> title st ->
       Home.loadStory api updated t = Home.loadStory api savedStories t.
Proof.
  intros updated Hstore. split; [|split].
  - unfold Home.saveStory. fold updated. now rewrite Hstore.
  - unfold Home.loadStory, updated, Home.updated.
    now rewrite getOwn_set, String.eqb_refl.
  - intros t Ht. unfold Home.loadStory, updated, Home.updated.
    rewrite getOwn_set.
    destruct (String.eqb_spec (title st) t); [congruence | reflexivity].
Qed.

Lemma saved_story_loads_back_example :
  Home.loadStory HomeShapes.api
    (Home.updated [("Moon", Standin.tide)] Standin.moon) "Moon"
  = ([Home.SetStory (Some Standin.moon)], inr tt).
Proof.
  exact (proj1 (proj2 (saved_story_loads_back HomeShapes.api
                         [("Moon", Standin.tide)] Standin.moon eq_refl))).
Defined.

(** When the storage refuses the write ([setItem] throws), [saveStory]
    throws that error and the saved-stories state is not set. *)
Theorem refused_save_leaves_state {Elem : Type} (api : Home.Api Elem)
    (savedStories : JsObject.Obj StoryData) (st : StoryData) (e : Exn) :
  Home.storageSet api "storybook_saved" (Home.updated savedStories st)
  = Some e ->
  Home.saveStory api (Some st) savedStories
  = ([Home.StorageSet "storybook_saved" (Home.updated savedStories st)],
     inl e).
Proof. intros H. unfold Home.saveStory. now rewrite H. Qed.

Lemma getOwn_savedAfter (stories : list StoryData) (t : string) :
  JsObject.getOwn t (HomeShapes.savedAfter stories)
  = HomeShapes.lastTitled t stories.
Proof.
  unfold HomeShapes.savedAfter, HomeShapes.lastTitled.
  assert (Hgen : forall saved,
             JsObject.getOwn t
               (fold_left (fun saved st => Home.updated saved st) stories saved)
             = match find (fun st => String.eqb (title st) t) (List.rev stories)
               with
               | Some st => Some st
               | None => JsObject.getOwn t saved
               end).
  { induction stories as [|st stories IH] using rev_ind; intros saved.
    - reflexivity.
    - rewrite fold_left_app, rev_unit. cbn.
      unfold Home.updated at 1. rewrite getOwn_set.
      destruct (String.eqb (title st) t); [reflexivity | apply IH]. }
  rewrite Hgen. now destruct (find _ _).
Qed.

(** X2: after any series of saves starting from no saved story, a title
    loads the last story saved under it; a title that was never saved and
    that [Object.prototype] does not define loads nothing. *)
Theorem last_save_wins {Elem : Type} (api : Home.Api Elem)
    (stories : list StoryData) (t : string) :
  match HomeShapes.lastTitled t stories with
  | Some st =>
      In st stories /\ title st = t
      /\ Home.loadStory api (HomeShapes.savedAfter stories) t
         = ([Home.SetStory (Some st)], inr tt)
  | None =>
      (forall st, In st stories -> title st <> t)
      /\ (Home.inherited api t = false ->
          Home.loadStory api (HomeShapes.savedAfter stories) t
          = ([], inr tt))
  end.
Proof.
  unfold Home.loadStory. rewrite getOwn_savedAfter.
  unfold HomeShapes.lastTitled.
  destruct (find _ (List.rev stories)) as [st|] eqn:Hfind.
  - apply find_some in Hfind as [Hin Ht].
    apply in_rev in Hin. apply String.eqb_eq in Ht. now repeat split.
  - split.
    + intros st Hin Ht. apply in_rev in Hin.
      apply (find_none _ _ Hfind) in Hin. apply String.eqb_neq in Hin.
      contradiction.
    + now intros ->.
Qed.

Lemma last_save_wins_example :
  Home.loadStory HomeShapes.api
    (HomeShapes.savedAfter [Standin.tide; Standin.moon; HomeShapes.tale])
    "Moon"
  = ([Home.SetStory (Some Standin.moon)], inr tt)
  /\ Home.loadStory HomeShapes.api
       (HomeShapes.savedAfter [Standin.tide; Standin.moon; HomeShapes.tale])
       "Sun"
     = ([], inr tt).
Proof.
  split.
  - exact (proj2 (proj2 (last_save_wins HomeShapes.api
                           [Standin.tide; Standin.moon; HomeShapes.tale]
                           "Moon"))).
  - exact (proj2 (last_save_wins HomeShapes.api
                    [Standin.tide; Standin.moon; HomeShapes.tale] "Sun")
             eq_refl).
Defined.

(** X3: the titles [Object.keys(savedStories)] lists after any series of
    saves are the titles that were saved, each of them once. *)
Theorem saved_titles_listed_once (stories : list StoryData) :
  NoDup (JsObject.keys (HomeShapes.savedAfter stories))
  /\ forall t, In t (JsObject.keys (HomeShapes.savedAfter stories))
               <-> exists st, In st stories /\ title st = t.
Proof.
  split.
  - unfold HomeShapes.savedAfter.
    assert (Hgen : forall saved, NoDup (JsObject.keys saved) ->
               NoDup (JsObject.keys
                        (fold_left (fun saved st => Home.updated saved st)
                           stories saved))).
    { induction stories as [|st stories IH]; intros saved Hnd; cbn;
        [assumption|].
      apply IH. unfold Home.updated.
      destruct (keys_set (title st) st saved)
        as [(_ & ->) | (Hnone & before & after & Hkeys & ->)];
        [assumption|].
      rewrite Hkeys in Hnd. apply NoDup_insert; [|assumption].
      rewrite <- Hkeys. intros Hin. now apply getOwn_keys in Hin. }
    apply Hgen. constructor.
  - intros t. rewrite <- getOwn_keys, getOwn_savedAfter.
    unfold HomeShapes.lastTitled.
    destruct (find _ (List.rev stories)) as [st|] eqn:Hfind.
    + apply find_some in Hfind as [Hin Ht].
      apply in_rev in Hin. apply String.eqb_eq in Ht.
      split; [|discriminate]. intros _. now exists st.
    + split; [congruence|]. intros (st & Hin & Ht). apply in_rev in Hin.
      apply (find_none _ _ Hfind) in Hin. apply String.eqb_neq in Hin.
      contradiction.
Qed.

(* ================================================================= *)
(** ** Re-rolling and generating *)

Lemma nth_error_mapi_from {A B} (f : A -> nat -> B) (l : list A) (i j : nat) :
  nth_error (mapi_from i f l) j
  = option_map (fun a => f a (i + j)%nat) (nth_error l j).
Proof.
  revert i j. induction l as [|a l IH]; intros i [|j]; cbn; try reflexivity.
  - now rewrite Nat.add_0_r.
  - rewrite IH. now rewrite Nat.add_succ_r.
Qed.

Lemma length_mapi_from {A B} (f : A -> nat -> B) (l : list A) (i : nat) :
  length (mapi_from i f l) = length l.
Proof. revert i. induction l; intros i; cbn; congruence. Qed.

(** Replacing page [idx]: the other pages stay. *)
Lemma nth_error_replaced (g : StoryPage -> StoryPage) (l : list StoryPage)
    (idx j : nat) :
  nth_error (mapi (fun p i => if Nat.eqb i idx then g p else p) l) j
  = if Nat.eqb j idx then option_map g (nth_error l j) else nth_error l j.
Proof.
  unfold mapi. rewrite nth_error_mapi_from. cbn.
  destruct (Nat.eqb j idx); now destruct (nth_error l j).
Qed.

(** X4: re-rolling the image of an existing page, when the image endpoint
    answers OK with a JSON body, makes one request with that page's image
    prompt and sets a story that differs from the current one in the image
    of that page only: same title and prompt, same number of pages, same
    text, image prompt and narration on the page, every other page as it
    was. *)
Theorem reroll_image_touches_one_page {Elem : Type} (api : Home.Api Elem)
    (st : StoryData) (idx : nat) (page : StoryPage)
    (res : Home.ApiResponse (option string)) (url : option string) :
  nth_error (pages st) idx = Some page ->
  Home.imageApi api (imagePrompt page) = inr res ->
  Home.resOk res = true ->
  Home.resJson res = inr url ->
  exists pages',
    Home.rerollImage api (Some st) idx
    = ([ Home.SetBusy true;
         Home.FetchImage (imagePrompt page);
         Home.SetStory (Some (mkStoryData (title st) pages' (prompt st)));
         Home.SetBusy false ], inr tt)
    /\ length pages' = length (pages st)
    /\ nth_error pages' idx
       = Some (mkStoryPage (text page) (imagePrompt page) url (audioUrl page))
    /\ forall j, j <> idx -> nth_error pages' j = nth_error (pages st) j.
Proof.
  intros Hpage Hres Hok Hjson.
  eexists. split; [|split; [|split]].
  - unfold Home.rerollImage, Home.fetchImageUrl, Home.bind, Home.call,
      Home.tryCatch, Home.finally, Home.emit, Home.await.
    rewrite Hpage. cbn. rewrite Hres. cbn. rewrite Hok, Hjson. reflexivity.
  - apply length_mapi_from.
  - rewrite nth_error_replaced, Nat.eqb_refl, Hpage. reflexivity.
  - intros j Hj. rewrite nth_error_replaced.
    apply Nat.eqb_neq in Hj. now rewrite Hj.
Qed.

Lemma reroll_image_touches_one_page_example :
  exists pages',
    Home.rerollImage HomeShapes.api (Some HomeShapes.tale) 1
    = ([ Home.SetBusy true;
         Home.FetchImage "a library";
         Home.SetStory (Some (mkStoryData "Tale" pages' EmptyString));
         Home.SetBusy false ], inr tt)
    /\ nth_error pages' 0 = Some (HomeShapes.illustratedPage "One" "a door").
Proof.
  destruct (reroll_image_touches_one_page HomeShapes.api HomeShapes.tale 1
              (HomeShapes.illustratedPage "Two" "a library")
              (Home.mkApiResponse (option string) true EmptyString
                 (inr (Some "data:image/png;base64,a library")))
              (Some "data:image/png;base64,a library")
              eq_refl eq_refl eq_refl eq_refl)
    as (pages' & Hrun & _ & _ & Hother).
  exists pages'. split; [exact Hrun|].
  rewrite (Hother 0%nat); [reflexivity | discriminate].
Defined.

(** X5: [rerollImage] never throws and has three outcomes.  Without a
    story, or for an index that is no page of it, it does nothing: no
    request, no busy flag.  Otherwise it raises the busy flag, makes one
    image request, then either sets the story or alerts a non-empty
    message, never both, and lowers the busy flag. *)
Theorem reroll_image_outcomes {Elem : Type} (api : Home.Api Elem)
    (story : option StoryData) (idx : nat) :
  snd (Home.rerollImage api story idx) = inr tt
  /\ match story with
     | None => fst (Home.rerollImage api story idx) = []
     | Some st =>
         match nth_error (pages st) idx with
         | None => fst (Home.rerollImage api story idx) = []
         | Some page =>
             exists x,
               fst (Home.rerollImage api story idx)
               = [ Home.SetBusy true; Home.FetchImage (imagePrompt page); x;
                   Home.SetBusy false ]
               /\ ((exists st', x = Home.SetStory (Some st'))
                   \/ (exists msg, x = Home.Alert msg /\ msg <> EmptyString))
         end
     end.
Proof.
  destruct story as [st|]; [|now split].
  unfold Home.rerollImage.
  destruct (nth_error (pages st) idx) as [page|]; [|now split].
  unfold Home.fetchImageUrl, Home.bind, Home.call, Home.tryCatch,
    Home.finally, Home.emit, Home.await, Home.throw. cbn.
  assert (Hmsg : forall e, orElse e "Failed to re‑roll image" <> EmptyString).
  { intros [|c e]; discriminate. }
  destruct (Home.imageApi api (imagePrompt page)) as [e|res]; cbn.
  { split; [reflexivity|]. eexists. split; [reflexivity|]. right. eauto. }
  destruct (Home.resOk res); cbn.
  - destruct (Home.resJson res) as [e|url]; cbn;
      (split; [reflexivity|]); eexists; (split; [reflexivity|]);
      [right | left]; eauto.
  - split; [reflexivity|]. eexists. split; [reflexivity|]. right. eauto.
Qed.

(** X6: re-rolling the text of a page, when the story endpoint answers OK
    with a story whose page [idx] has a non-empty text, asks for a whole
    new story for the story's prompt and sets a story that differs from
    the current one in the text of page [idx] only: that page keeps its
    image, image prompt and narration, every other page is as it was, and
    nothing else of the new story is used. *)
Theorem reroll_text_touches_one_page {Elem : Type} (api : Home.Api Elem)
    (st newStory : StoryData) (idx : nat)
    (res : Home.ApiResponse StoryData) (newText : string) :
  Home.storyApi api (prompt st) = inr res ->
  Home.resOk res = true ->
  Home.resJson res = inr newStory ->
  Home.newTextAt newStory idx = Some newText ->
  exists pages',
    Home.rerollText api (Some st) idx
    = ([ Home.SetBusy true;
         Home.FetchStory (prompt st);
         Home.SetStory (Some (mkStoryData (title st) pages' (prompt st)));
         Home.SetBusy false ], inr tt)
    /\ length pages' = length (pages st)
    /\ nth_error pages' idx
       = option_map
           (fun p => mkStoryPage newText (imagePrompt p) (imageUrl p)
                       (audioUrl p))
           (nth_error (pages st) idx)
    /\ forall j, j <> idx -> nth_error pages' j = nth_error (pages st) j.
Proof.
  intros Hres Hok Hjson Htext.
  eexists. split; [|split; [|split]].
  - unfold Home.rerollText, Home.bind, Home.call, Home.tryCatch,
      Home.finally, Home.emit, Home.await.
    cbn. rewrite Hres. cbn. rewrite Hok, Hjson, Htext. reflexivity.
  - apply length_mapi_from.
  - rewrite nth_error_replaced, Nat.eqb_refl. reflexivity.
  - intros j Hj. rewrite nth_error_replaced.
    apply Nat.eqb_neq in Hj. now rewrite Hj.
Qed.

Lemma reroll_text_touches_one_page_example :
  exists pages',
    Home.rerollText HomeShapes.api (Some Standin.tide) 1
    = ([ Home.SetBusy true;
         Home.FetchStory "a story about the tide";
         Home.SetStory (Some (mkStoryData EmptyString pages'
                                "a story about the tide"));
         Home.SetBusy false ], inr tt)
    /\ nth_error pages' 1 = Some (Standin.page "Two").
Proof.
  destruct (reroll_text_touches_one_page HomeShapes.api Standin.tide
              HomeShapes.tale 1
              (Home.mkApiResponse StoryData true EmptyString
                 (inr HomeShapes.tale))
              "Two" eq_refl eq_refl eq_refl eq_refl)
    as (pages' & Hrun & _ & Hpage & _).
  exists pages'. split; [exact Hrun|]. rewrite Hpage. reflexivity.
Defined.

(** X7: when the regenerated story has no page [idx], or an empty text on
    it, [rerollText] alerts "No new text returned" and does not set the
    story. *)
Theorem reroll_text_without_new_text {Elem : Type} (api : Home.Api Elem)
    (st newStory : StoryData) (idx : nat) (res : Home.ApiResponse StoryData) :
  Home.storyApi api (prompt st) = inr res ->
  Home.resOk res = true ->
  Home.resJson res = inr newStory ->
  (length (pages newStory) <= idx)%nat
  \/ (exists p, nth_error (pages newStory) idx = Some p
                /\ text p = EmptyString) ->
  Home.rerollText api (Some st) idx
  = ([ Home.SetBusy true;
       Home.FetchStory (prompt st);
       Home.Alert "No new text returned";
       Home.SetBusy false ], inr tt).
Proof.
  intros Hres Hok Hjson Hnone.
  assert (Htext : Home.newTextAt newStory idx = None).
  { unfold Home.newTextAt. destruct Hnone as [Hlen | (p & -> & ->)].
    - apply nth_error_None in Hlen. now rewrite Hlen.
    - reflexivity. }
  unfold Home.rerollText, Home.bind, Home.call, Home.tryCatch,
    Home.finally, Home.emit, Home.await.
  cbn. rewrite Hres. cbn. rewrite Hok, Hjson, Htext. reflexivity.
Qed.

Lemma reroll_text_without_new_text_example :
  Home.rerollText HomeShapes.api (Some Standin.fivePages) 4
  = ([ Home.SetBusy true;
       Home.FetchStory "five pages";
       Home.Alert "No new text returned";
       Home.SetBusy false ], inr tt).
Proof.
  apply (reroll_text_without_new_text HomeShapes.api Standin.fivePages
           HomeShapes.tale 4
           (Home.mkApiResponse StoryData true EmptyString
              (inr HomeShapes.tale)));
    try reflexivity.
  left. cbn. lia.
Defined.

Section HomeRuns.
Context {Elem : Type}.
Variable api : Home.Api Elem.

Lemma promiseAll_effects {A} (ms : list (Home.H A)) :
  fst (Home.promiseAll ms) = concat (map fst ms).
Proof.
  induction ms as [|[t r] ms IH]; cbn; [reflexivity|].
  destruct (Home.promiseAll ms) as [t' rs]. cbn in *. now rewrite IH.
Qed.

Lemma promiseAll_resolved {A} (ms : list (Home.H A)) (vs : list A) :
  Forall2 (fun m v => snd m = inr v) ms vs ->
  snd (Home.promiseAll ms) = inr vs.
Proof.
  induction 1 as [|[t r] v ms vs Hm _ IH]; cbn; [reflexivity|].
  destruct (Home.promiseAll ms) as [t' rs]. cbn in *. now subst.
Qed.

Lemma promiseAll_rejected {A} (ms : list (Home.H A)) :
  Exists (fun m => exists e, snd m = inl e) ms ->
  exists e, snd (Home.promiseAll ms) = inl e.
Proof.
  induction ms as [|[t r] ms IH]; intros Hex; [inversion Hex|]. cbn.
  destruct (Home.promiseAll ms) as [t' rs] eqn:Hrest. cbn in *.
  destruct r as [e|a]; [now exists e|].
  inversion Hex as [? ? (e & He)|? ? Hex']; subst; [discriminate He|].
  destruct (IH Hex') as (e & ->). now exists e.
Qed.

(** One image request per page, whatever its outcome. *)
Lemma illustrate_run (p : StoryPage) :
  Home.illustrate api p
  = ([Home.FetchImage (imagePrompt p)],
     match Home.imageApi api (imagePrompt p) with
     | inl e => inl e
     | inr r =>
         if Home.resOk r then
           match Home.resJson r with
           | inl e => inl e
           | inr url => inr (Home.withImage p url)
           end
         else inl (Home.resText r)
     end).
Proof.
  unfold Home.illustrate, Home.fetchImageUrl, Home.bind, Home.call,
    Home.await, Home.throw, Home.ret.
  destruct (Home.imageApi api (imagePrompt p)) as [e|r]; [reflexivity|].
  destruct (Home.resOk r); [|reflexivity].
  now destruct (Home.resJson r).
Qed.

Lemma illustrate_effects (ps : list StoryPage) :
  fst (Home.promiseAll (map (Home.illustrate api) ps))
  = map (fun p => Home.FetchImage (imagePrompt p)) ps.
Proof.
  rewrite promiseAll_effects, map_map.
  induction ps as [|p ps IH]; cbn; [reflexivity|].
  now rewrite illustrate_run, IH.
Qed.

Lemma generateStory_run (promptText : string) :
  promptText <> EmptyString ->
  Home.generateStory api promptText
  = Home.bind (Home.emit (Home.SetBusy true)) (fun _ =>
    Home.bind (Home.emit (Home.SetError None)) (fun _ =>
    Home.bind (Home.emit (Home.SetStory None)) (fun _ =>
    Home.finally
      (Home.tryCatch
         (Home.bind
            (Home.call (Home.FetchStory promptText)
               (Home.storyApi api promptText))
            (fun res =>
               if Home.resOk res then
                 Home.bind (Home.await (Home.resJson res)) (fun storyData =>
                 Home.bind
                   (Home.promiseAll
                      (map (Home.illustrate api) (pages storyData)))
                   (fun pagesWithImages =>
                      Home.emit
                        (Home.SetStory
                           (Some (mkStoryData (title storyData)
                                    pagesWithImages promptText)))))
               else Home.throw (Home.resText res)))
         (fun err =>
            Home.emit
              (Home.SetError (Some (orElse err "Failed to generate story")))))
      (Home.emit (Home.SetBusy false))))).
Proof. destruct promptText; [contradiction | reflexivity]. Qed.
End HomeRuns.

(** X8: for a non-empty prompt, [generateStory] never throws; it raises
    the busy flag, clears the error and the current story, requests the
    story, then makes image requests only, and ends either by setting a
    story that carries the prompt or by setting a non-empty error, never
    both, before it lowers the busy flag.  A failed generation thus leaves
    no story on screen. *)
Theorem generate_story_outcomes {Elem : Type} (api : Home.Api Elem)
    (promptText : string) :
  promptText <> EmptyString ->
  exists requests final,
    Home.generateStory api promptText
    = (([ Home.SetBusy true; Home.SetError None; Home.SetStory None;
          Home.FetchStory promptText ]
          ++ requests ++ [final; Home.SetBusy false])%list, inr tt)
    /\ Forall (fun e => HomeShapes.isImageRequest e = true) requests
    /\ ((exists st', final = Home.SetStory (Some st')
                     /\ prompt st' = promptText)
        \/ (exists msg, final = Home.SetError (Some msg)
                        /\ msg <> EmptyString)).
Proof.
  intros Hprompt. rewrite (generateStory_run api promptText Hprompt).
  assert (Hmsg : forall e, orElse e "Failed to generate story" <> EmptyString).
  { intros [|c e]; discriminate. }
  unfold Home.bind, Home.call, Home.tryCatch, Home.finally, Home.emit,
    Home.await, Home.throw. cbn.
  destruct (Home.storyApi api promptText) as [e|res]; cbn.
  { exists [], (Home.SetError (Some (orElse e "Failed to generate story"))).
    repeat split; [constructor | right; eauto]. }
  destruct (Home.resOk res); cbn.
  2:{ eexists [], _. repeat split; [constructor | right; eauto]. }
  destruct (Home.resJson res) as [e|sd]; cbn.
  { eexists [], _. repeat split; [constructor | right; eauto]. }
  pose proof (illustrate_effects api (pages sd)) as Heff.
  destruct (Home.promiseAll (map (Home.illustrate api) (pages sd)))
    as [t [e|pagesWithImages]]; cbn in *; subst t.
  - exists (map (fun p => Home.FetchImage (imagePrompt p)) (pages sd)),
      (Home.SetError (Some (orElse e "Failed to generate story"))).
    rewrite ?app_nil_r, <- ?app_assoc. split; [reflexivity|].
    split; [|right; eauto].
    apply Forall_map, Forall_forall. reflexivity.
  - exists (map (fun p => Home.FetchImage (imagePrompt p)) (pages sd)),
      (Home.SetStory
         (Some (mkStoryData (title sd) pagesWithImages promptText))).
    rewrite ?app_nil_r, <- ?app_assoc. split; [reflexivity|].
    split; [|left; eauto].
    apply Forall_map, Forall_forall. reflexivity.
Qed.

Lemma generate_story_outcomes_example :
  exists requests final,
    Home.generateStory HomeShapes.api "fail"
    = (([ Home.SetBusy true; Home.SetError None; Home.SetStory None;
          Home.FetchStory "fail" ]
          ++ requests ++ [final; Home.SetBusy false])%list, inr tt)
    /\ Forall (fun e => HomeShapes.isImageRequest e = true) requests.
Proof.
  destruct (generate_story_outcomes HomeShapes.api "fail")
    as (requests & final & Hrun & Hrequests & _).
  - discriminate.
  - now exists requests, final.
Defined.

(** X9: when the story endpoint answers OK with a story, [generateStory]
    requests one image per page, in page order, with the page's image
    prompt, whether or not some of these requests fail.  If every image
    request is answered OK with a JSON body, the story set has the title
    and the pages of the answer, each page with the [url] of its own
    answer and its text and image prompt unchanged; if one of them fails,
    no story is set and an error is. *)
Theorem generate_story_illustrates_every_page {Elem : Type}
    (api : Home.Api Elem) (promptText : string)
    (res : Home.ApiResponse StoryData) (sd : StoryData) :
  promptText <> EmptyString ->
  Home.storyApi api promptText = inr res ->
  Home.resOk res = true ->
  Home.resJson res = inr sd ->
  exists final,
    Home.generateStory api promptText
    = (([ Home.SetBusy true; Home.SetError None; Home.SetStory None;
          Home.FetchStory promptText ]
          ++ map (fun p => Home.FetchImage (imagePrompt p)) (pages sd)
          ++ [final; Home.SetBusy false])%list, inr tt)
    /\ (Forall (fun p => exists r url,
                    Home.imageApi api (imagePrompt p) = inr r
                    /\ Home.resOk r = true /\ Home.resJson r = inr url)
          (pages sd) ->
        exists pages',
          final = Home.SetStory
                    (Some (mkStoryData (title sd) pages' promptText))
          /\ Forall2 (fun p p' =>
                        text p' = text p
                        /\ imagePrompt p' = imagePrompt p
                        /\ audioUrl p' = audioUrl p
                        /\ exists r, Home.imageApi api (imagePrompt p) = inr r
                                     /\ Home.resJson r = inr (imageUrl p'))
               (pages sd) pages')
    /\ (Exists (fun p => match Home.imageApi api (imagePrompt p) with
                         | inl _ => True
                         | inr r => Home.resOk r = false
                                    \/ exists e, Home.resJson r = inl e
                         end) (pages sd) ->
        exists msg, final = Home.SetError (Some msg)).
Proof.
  intros Hprompt Hres Hok Hjson.
  rewrite (generateStory_run api promptText Hprompt).
  unfold Home.bind, Home.call, Home.tryCatch, Home.finally, Home.emit,
    Home.await, Home.throw. cbn. rewrite Hres. cbn. rewrite Hok, Hjson. cbn.
  pose proof (illustrate_effects api (pages sd)) as Heff.
  destruct (Home.promiseAll (map (Home.illustrate api) (pages sd)))
    as [t r] eqn:Hall; cbn in Heff; subst t.
  assert (Hgood :
            Forall (fun p => exists r url,
                        Home.imageApi api (imagePrompt p) = inr r
                        /\ Home.resOk r = true /\ Home.resJson r = inr url)
              (pages sd) ->
            exists pages',
              r = inr pages'
              /\ Forall2 (fun p p' =>
                            text p' = text p
                            /\ imagePrompt p' = imagePrompt p
                            /\ audioUrl p' = audioUrl p
                            /\ exists r, Home.imageApi api (imagePrompt p) = inr r
                                         /\ Home.resJson r = inr (imageUrl p'))
                   (pages sd) pages').
  { intros Hall'.
    assert (Hvs : exists pages',
               Forall2 (fun m v => snd m = inr v)
                 (map (Home.illustrate api) (pages sd)) pages'
               /\ Forall2 (fun p p' =>
                            text p' = text p
                            /\ imagePrompt p' = imagePrompt p
                            /\ audioUrl p' = audioUrl p
                            /\ exists r, Home.imageApi api (imagePrompt p) = inr r
                                         /\ Home.resJson r = inr (imageUrl p'))
                    (pages sd) pages').
    { clear Hall. induction Hall' as [|p ps (r0 & url & Hr0 & Hok0 & Hurl) _
                                        (pages' & Hvs & Hrel)].
      - exists []. split; constructor.
      - exists (Home.withImage p url :: pages'). split; constructor;
          try assumption.
        + rewrite illustrate_run, Hr0, Hok0, Hurl. reflexivity.
        + repeat split. now exists r0. }
    destruct Hvs as (pages' & Hvs & Hrel).
    apply promiseAll_resolved in Hvs. rewrite Hall in Hvs. cbn in Hvs.
    now exists pages'. }
  assert (Hbad :
            Exists (fun p => match Home.imageApi api (imagePrompt p) with
                             | inl _ => True
                             | inr r => Home.resOk r = false
                                        \/ exists e, Home.resJson r = inl e
                             end) (pages sd) ->
            exists e, r = inl e).
  { intros Hex.
    destruct (promiseAll_rejected (map (Home.illustrate api) (pages sd)))
      as (e & He).
    - apply Exists_exists in Hex as (p & Hp & Hfail).
      apply Exists_exists. exists (Home.illustrate api p).
      split; [now apply in_map|].
      rewrite illustrate_run. cbn.
      destruct (Home.imageApi api (imagePrompt p)) as [e|r0]; [now exists e|].
      destruct Hfail as [-> | (e & ->)]; [now eexists|].
      destruct (Home.resOk r0); now eexists.
    - rewrite Hall in He. cbn in He. now exists e. }
  destruct r as [e|pagesWithImages]; cbn.
  - exists (Home.SetError (Some (orElse e "Failed to generate story"))).
    rewrite ?app_nil_r, <- ?app_assoc. split; [reflexivity|]. split.
    + intros Hall'. destruct (Hgood Hall') as (? & [=] & _).
    + intros _. eauto.
  - exists (Home.SetStory
              (Some (mkStoryData (title sd) pagesWithImages promptText))).
    rewrite ?app_nil_r, <- ?app_assoc. split; [reflexivity|]. split.
    + intros Hall'. destruct (Hgood Hall') as (pages' & [= ->] & Hrel).
      now exists pages'.
    + intros Hex. destruct (Hbad Hex) as (e & [=]).
Qed.

Lemma generate_story_illustrates_every_page_example :
  exists final,
    Home.generateStory HomeShapes.api "a library"
    = ([ Home.SetBusy true; Home.SetError None; Home.SetStory None;
         Home.FetchStory "a library"; Home.FetchImage "a door";
         Home.FetchImage "a library"; final; Home.SetBusy false ], inr tt).
Proof.
  destruct (generate_story_illustrates_every_page HomeShapes.api "a library"
              (Home.mkApiResponse StoryData true EmptyString
                 (inr HomeShapes.tale))
              HomeShapes.tale)
    as (final & Hrun & _); try reflexivity; try discriminate.
  now exists final.
Defined.

(* ================================================================= *)
(** ** The PDF export *)

Section PdfRuns.
Context {Elem : Type}.
Variable api : Home.Api Elem.

(** The loop either handles every element, or stops at the first one whose
    rasterisation or placement throws; it never saves or alerts. *)
Lemma pdfLoop_run (els : list Elem) (i : nat) :
  (exists canvases,
      Forall2 (fun el c => Home.rasterize api el = inr c) els canvases
      /\ Home.pdfLoop api els i
         = (concat (mapi_from i (HomeShapes.pageEffects api) canvases),
            inr tt))
  \/ (exists t e,
        Home.pdfLoop api els i = (t, inl e)
        /\ Forall (fun ev => HomeShapes.isSave ev = false
                             /\ HomeShapes.isAlert ev = false) t).
Proof.
  revert i. induction els as [|el els IH]; intros i.
  - left. exists []. split; [constructor | reflexivity].
  - cbn [Home.pdfLoop].
    unfold Home.bind, Home.call, Home.emit, Home.ret.
    destruct (Home.rasterize api el) as [e|canvas] eqn:Hcanvas.
    { right. exists [Home.Rasterize i], e. split; [reflexivity|].
      repeat constructor. }
    assert (Hpage : (match i with
                     | O => ([], inr tt)
                     | S _ => ([Home.PdfAddPage], inr tt)
                     end : Home.H unit)
                    = (match i with
                       | O => []
                       | S _ => [Home.PdfAddPage]
                       end, inr tt)) by now destruct i.
    rewrite Hpage. clear Hpage.
    destruct (Home.addImage api (Home.dataUrl canvas)) as [e|] eqn:Hadd.
    { right. eexists _, e. split; [reflexivity|].
      destruct i; repeat constructor. }
    destruct (IH (S i))
      as [(canvases & Hall & Hrun) | (t & e & Hrun & Ht)]; rewrite Hrun.
    + left. exists (canvas :: canvases). split; [now constructor|].
      cbn. unfold HomeShapes.pageEffects at 1. cbn.
      now rewrite <- !app_assoc.
    + right. eexists _, e. split; [reflexivity|].
      constructor; [now split|].
      apply Forall_app. split; [destruct i; repeat constructor|].
      constructor; [now split | assumption].
Qed.
End PdfRuns.

(** A PDF export that saves has run the loop to its end. *)
Lemma saved_pdf_run {Elem : Type} (api : Home.Api Elem)
    (story : option StoryData) (bookRef : option (list Elem))
    (filename : string) :
  In (Home.PdfSave filename) (fst (Home.downloadPDF api story bookRef)) ->
  exists st book canvases,
    story = Some st /\ bookRef = Some book
    /\ Forall2 (fun el c => Home.rasterize api el = inr c) book canvases
    /\ filename = orElse (title st) "storybook" ++ ".pdf"
    /\ Home.downloadPDF api story bookRef
       = ((Home.SetBusy true :: Home.PdfNew
             :: concat (mapi (HomeShapes.pageEffects api) canvases)
             ++ [Home.PdfSave filename; Home.SetBusy false])%list, inr tt).
Proof.
  destruct story as [st|]; [|intros []].
  destruct bookRef as [book|]; [|intros []].
  unfold Home.downloadPDF, Home.bind, Home.tryCatch, Home.finally, Home.emit.
  cbn.
  destruct (pdfLoop_run api book 0)
    as [(canvases & Hall & Hrun) | (t & e & Hrun & Ht)]; rewrite Hrun; cbn.
  - intros Hin. exists st, book, canvases.
    assert (Hname : filename = orElse (title st) "storybook" ++ ".pdf").
    { destruct Hin as [Hin|[Hin|Hin]]; try discriminate.
      rewrite <- !app_assoc in Hin.
      apply in_app_or in Hin as [Hin|Hin].
      - exfalso. unfold mapi in Hin. clear -Hin. revert Hin. generalize 0%nat.
        induction canvases as [|c cs IH]; intros i Hin; [destruct Hin|].
        cbn in Hin.
        destruct Hin as [Hin|Hin]; [discriminate|].
        apply in_app_or in Hin as [Hin|Hin]; [|now apply IH in Hin].
        apply in_app_or in Hin as [Hin|Hin].
        + destruct i; [destruct Hin|].
          destruct Hin as [Hin|[]]; discriminate.
        + destruct Hin as [Hin|[]]; discriminate.
      - cbn in Hin. destruct Hin as [[= <-]|[Hin|[]]];
          [reflexivity | discriminate]. }
    subst filename. repeat split; try assumption.
    now rewrite <- !app_assoc.
  - intros Hin. exfalso.
    destruct Hin as [Hin|[Hin|Hin]]; try discriminate.
    rewrite <- !app_assoc in Hin.
    apply in_app_or in Hin as [Hin|Hin].
    + rewrite Forall_forall in Ht. apply Ht in Hin as [Hin _]. discriminate.
    + cbn in Hin. destruct Hin as [Hin|[Hin|[]]]; discriminate.
Qed.

Lemma placed_images {Elem : Type} (api : Home.Api Elem)
    (canvases : list Home.Canvas) (i : nat) :
  filter HomeShapes.isAddImage
    (concat (mapi_from i (HomeShapes.pageEffects api) canvases))
  = map (fun c =>
           Home.PdfAddImage (Home.dataUrl c) "PNG" 0 0 (Home.pageWidth api)
             ((Home.height c * Home.pageWidth api) / Home.width c)%float)
      canvases.
Proof.
  revert i. induction canvases as [|c cs IH]; intros i; [reflexivity|].
  cbn [mapi_from concat map]. rewrite filter_app, IH.
  now destruct i.
Qed.

Lemma added_pages {Elem : Type} (api : Home.Api Elem)
    (canvases : list Home.Canvas) (i : nat) :
  length (filter HomeShapes.isAddPage
            (concat (mapi_from i (HomeShapes.pageEffects api) canvases)))
  = match i with
    | O => pred (length canvases)
    | S _ => length canvases
    end.
Proof.
  revert i. induction canvases as [|c cs IH]; intros i; [now destruct i|].
  cbn [mapi_from concat]. rewrite filter_app, length_app, IH.
  destruct i; cbn; [now destruct cs | reflexivity].
Qed.

(** X10: a PDF export that saves has rasterised every page element once,
    in order, and has placed the image of each as PNG at the top left
    corner (0, 0), as wide as the page and with the height that keeps the
    canvas's proportions, adding a page before every image but the first;
    the file is named after the story's title, or [storybook.pdf] when the
    title is empty. *)
Theorem saved_pdf_has_every_page {Elem : Type} (api : Home.Api Elem)
    (story : option StoryData) (bookRef : option (list Elem))
    (filename : string) :
  let effects := fst (Home.downloadPDF api story bookRef) in
  In (Home.PdfSave filename) effects ->
  exists st book canvases,
    story = Some st /\ bookRef = Some book
    /\ Forall2 (fun el c => Home.rasterize api el = inr c) book canvases
    /\ filename = orElse (title st) "storybook" ++ ".pdf"
    /\ Home.downloadPDF api story bookRef
       = ((Home.SetBusy true :: Home.PdfNew
             :: concat (mapi (HomeShapes.pageEffects api) canvases)
             ++ [Home.PdfSave filename; Home.SetBusy false])%list, inr tt)
    /\ filter HomeShapes.isAddImage effects
       = map (fun c =>
                Home.PdfAddImage (Home.dataUrl c) "PNG" 0 0
                  (Home.pageWidth api)
                  ((Home.height c * Home.pageWidth api) / Home.width c)%float)
           canvases
    /\ length (filter HomeShapes.isAddPage effects) = pred (length book).
Proof.
  intros effects Hin. unfold effects in *.
  destruct (saved_pdf_run api story bookRef filename Hin)
    as (st & book & canvases & -> & -> & Hall & -> & Hrun).
  exists st, book, canvases. repeat split; try assumption.
  - rewrite Hrun. cbn [fst filter HomeShapes.isAddImage].
    rewrite filter_app. unfold mapi. rewrite placed_images. cbn.
    apply app_nil_r.
  - rewrite Hrun. cbn [fst filter HomeShapes.isAddPage].
    rewrite filter_app, length_app. unfold mapi. rewrite added_pages. cbn.
    rewrite (Forall2_length Hall). lia.
Qed.

(** X11: [downloadPDF] never throws.  Without a story or without the
    rendered book it does nothing.  Otherwise it raises the busy flag,
    creates the document, and ends either by saving it or, when a
    rasterisation or a placement throws, by one alert of a non-empty
    message and no save; then it lowers the busy flag. *)
Theorem pdf_export_outcomes {Elem : Type} (api : Home.Api Elem)
    (story : option StoryData) (bookRef : option (list Elem)) :
  snd (Home.downloadPDF api story bookRef) = inr tt
  /\ match story, bookRef with
     | Some st, Some book =>
         exists body final,
           fst (Home.downloadPDF api story bookRef)
           = (Home.SetBusy true :: Home.PdfNew
                :: body ++ [final; Home.SetBusy false])%list
           /\ Forall (fun ev => HomeShapes.isSave ev = false
                                /\ HomeShapes.isAlert ev = false) body
           /\ (final = Home.PdfSave (orElse (title st) "storybook" ++ ".pdf")
               \/ exists msg, final = Home.Alert msg /\ msg <> EmptyString)
     | _, _ => fst (Home.downloadPDF api story bookRef) = []
     end.
Proof.
  destruct story as [st|]; [|now split].
  destruct bookRef as [book|]; [|now split].
  unfold Home.downloadPDF, Home.bind, Home.tryCatch, Home.finally, Home.emit.
  cbn.
  destruct (pdfLoop_run api book 0)
    as [(canvases & Hall & Hrun) | (t & e & Hrun & Ht)]; rewrite Hrun; cbn.
  - split; [reflexivity|].
    exists (concat (mapi (HomeShapes.pageEffects api) canvases)), 
      (Home.PdfSave (orElse (title st) "storybook" ++ ".pdf")).
    rewrite <- !app_assoc. split; [reflexivity|]. split; [|now left].
    unfold mapi. generalize 0%nat. clear.
    induction canvases as [|c cs IH]; intros i; cbn; [constructor|].
    constructor; [now split|].
    rewrite <- app_assoc. apply Forall_app. split.
    + destruct i; repeat constructor.
    + constructor; [now split | apply IH].
  - split; [reflexivity|].
    exists t, (Home.Alert (orElse e "Failed to export PDF")).
    rewrite <- !app_assoc. split; [reflexivity|]. split; [assumption|].
    right. eexists. split; [reflexivity|]. destruct e; discriminate.
Qed.

Lemma saved_pdf_has_every_page_example :
  Home.downloadPDF HomeShapes.api (Some Standin.moon) (Some [0; 1]%nat)
  = ([ Home.SetBusy true; Home.PdfNew;
       Home.Rasterize 0;
       Home.PdfAddImage "data:image/png;base64,0" "PNG" 0 0 400 300;
       Home.Rasterize 1; Home.PdfAddPage;
       Home.PdfAddImage "data:image/png;base64,1" "PNG" 0 0 400 300;
       Home.PdfSave "Moon.pdf"; Home.SetBusy false ], inr tt).
Proof.
  destruct (saved_pdf_has_every_page HomeShapes.api (Some Standin.moon)
              (Some [0; 1]%nat) "Moon.pdf")
    as (st & book & canvases & _ & [= <-] & Hall & _ & Hrun & _).
  - vm_compute. do 7 right. left. reflexivity.
  - rewrite Hrun.
    inversion Hall as [|? c0 ? ? H0 Hall1]; subst.
    inversion Hall1 as [|? c1 ? ? H1 Hall2]; subst.
    inversion Hall2; subst.
    injection H0 as <-. injection H1 as <-.
    vm_compute. reflexivity.
Defined.

(* ================================================================= *)
(** ** The staging of the video export *)

Section Staging.
Context {Elem FS : Type}.
Variable w : World Elem FS.
Variables holdTime fadeTime : float.

Lemma fetchNarration_run (p : StoryPage) (s : FS) :
  fetchNarration w p s
  = ([FetchAudio (text p)],
     match generateAudio w (text p) with
     | inl e => inl e
     | inr res =>
         if ok res
         then inr (mkStoryPage (text p) (imagePrompt p) (imageUrl p)
                     (Some (body res)))
         else inl (string_of_list_byte (body res))
     end, s).
Proof.
  unfold fetchNarration, bind, call, Run.ret, throw.
  destruct (generateAudio w (text p)) as [e|res]; [reflexivity|].
  now destruct (ok res).
Qed.

(** Step 1 requests the narration of every page, in page order, whatever
    the answers; when it resolves, every answer was OK and every page
    carries the body of its own answer. *)
Lemma narration_phase (ps : list StoryPage) (s : FS) :
  exists r,
    promiseAll (map (fetchNarration w) ps) s
    = (map (fun p => FetchAudio (text p)) ps, r, s)
    /\ forall pagesWithAudio, r = inr pagesWithAudio ->
         exists responses,
           Forall2 (fun p res => generateAudio w (text p) = inr res
                                 /\ ok res = true) ps responses
           /\ Forall2 (fun q res => audioUrl q = Some (body res))
                pagesWithAudio responses.
Proof.
  induction ps as [|p ps (r & Hrun & Hres)]; cbn [map promiseAll].
  - eexists. split; [reflexivity|]. intros ? [= <-].
    exists []. split; constructor.
  - rewrite fetchNarration_run, Hrun.
    eexists. split; [reflexivity|].
    destruct (generateAudio w (text p)) as [e|res] eqn:Hp; [discriminate|].
    destruct (ok res) eqn:Hok; [|discriminate].
    destruct r as [e|others]; [discriminate|]. intros ? [= <-].
    destruct (Hres others eq_refl) as (responses & H1 & H2).
    exists (res :: responses). split; constructor; auto.
Qed.

(** Step 2, when it completes, has captured every page element, in order,
    and named the captures [page0.png], [page1.png], ... *)
Lemma capture_phase (els : list Elem) (i : nat) (acc : list PageImage)
    (s : FS) t images s' :
  captureLoop w els i acc s = (t, inr images, s') ->
  s' = s
  /\ t = map Capture (seq i (length els))
  /\ exists pngs,
       Forall2 (fun el png => html2canvas w el = inr png) els pngs
       /\ images
          = (acc ++ mapi_from i (fun png j => mkPageImage png (pageName j))
                      pngs)%list.
Proof.
  revert i acc t. induction els as [|el els IH]; intros i acc t;
    cbn [captureLoop].
  - intros [= <- <- <-]. repeat split.
    exists []. split; [constructor|]. cbn. now rewrite app_nil_r.
  - unfold bind at 1, call.
    destruct (html2canvas w el) as [e|png] eqn:Hel; [discriminate|].
    destruct (captureLoop w els (S i) _ s) as [[t' r'] s2] eqn:Hrest.
    intros [= <- -> <-].
    destruct (IH _ _ _ Hrest) as (-> & -> & pngs & Hall & ->).
    repeat split.
    exists (png :: pngs). split; [now constructor|].
    cbn. now rewrite <- app_assoc.
Qed.

Lemma capture_phase_all (els : list Elem) (s : FS) t images s' :
  captureLoop w els 0 [] s = (t, inr images, s') ->
  s' = s
  /\ t = map Capture (seq 0 (length els))
  /\ exists pngs,
       Forall2 (fun el png => html2canvas w el = inr png) els pngs
       /\ images
          = mapi_from 0 (fun png j => mkPageImage png (pageName j)) pngs.
Proof.
  intros H. destruct (capture_phase _ _ _ _ _ _ _ H) as (-> & -> & pngs & ? & ->).
  repeat split. now exists pngs.
Qed.

Lemma write_images_phase (images : list PageImage) (s : FS) :
  exists r s',
    promiseAll (map (fun im => engineWrite w (name im) (fetchFile (blob im))) images) s
    = (map (fun im => EngineWrite (name im) (fetchFile (blob im))) images, r, s').
Proof.
  revert s. induction images as [|im images IH]; intros s; cbn.
  - now eexists _, _.
  - unfold engineWrite at 1.
    destruct (writeFile (ffmpeg w) (name im) (fetchFile (blob im)) s)
      as [r1 s1].
    destruct (IH s1) as (r & s' & ->). now eexists _, _.
Qed.

Lemma write_audio_phase (pagesWithAudio : list StoryPage)
    (responses : list Response) (i : nat) (s : FS) :
  Forall2 (fun q res => audioUrl q = Some (body res))
    pagesWithAudio responses ->
  exists r s',
    promiseAll (mapi_from i (stageNarration w) pagesWithAudio) s
    = (mapi_from i
         (fun res j =>
            EngineWrite (ExportShapes.audioName j) (fetchFile (body res)))
         responses, r, s').
Proof.
  intros Hall. revert i s.
  induction Hall as [|q res qs rs Hq _ IH]; intros i s; cbn.
  - now eexists _, _.
  - unfold stageNarration at 1. rewrite Hq. unfold engineWrite at 1.
    destruct (writeFile (ffmpeg w) _ (fetchFile (body res)) s) as [r1 s1].
    destruct (IH (S i) s1) as (r & s' & ->). now eexists _, _.
Qed.

(** Steps 5 and 6 log no staging event. *)
Lemma encoding_phase images n listFile story s t r s'
    (Hnames : map name images = map pageName (seq 0 (length images))) :
  bind (segmentLoop w holdTime fadeTime images n 0 listFile)
    (fun lf => assemble w story lf) s = (t, r, s') ->
  listFile = ["ffconcat version 1.0"] ->
  Forall (fun ev => isStaging ev = false) t.
Proof.
  intros H ->.
  apply bind_inv in H
    as [(e & Hloop & ->) | (t1 & lf & s1 & t2 & Hloop & H & ->)];
    apply (segmentLoop_run _ _ _ _ _ _ _ _ _ _ _ Hnames (Nat.le_0_l _))
      in Hloop
      as [([=] & _ & Hsegs)
         | (e' & k & segs & last & [=] & _ & Hsegs & Hlast & ->)]; subst.
  - apply Forall_app. split.
    + eapply Forall_impl; [|exact (segments_are_execs _ _ _ _ _ _ Hsegs)].
      intros ev (Hx & _). now destruct ev.
    + destruct Hlast as [->| ->]; repeat constructor.
  - apply Forall_app. split.
    + eapply Forall_impl; [|exact (segments_are_execs _ _ _ _ _ _ Hsegs)].
      intros ev (Hx & _). now destruct ev.
    + apply assemble_run in H. destruct H; repeat constructor.
Qed.

(** A run of the [try] block either fails while staging, or has staged
    every input before its first command. *)
Lemma exportVideo_staging story book s t r s' :
  exportVideo w holdTime fadeTime story book s = (t, r, s') ->
  (Forall (fun ev => isStaging ev = true) t /\ exists e, r = inl e)
  \/ exists responses pngs clip rest,
       Forall2 (fun p res => generateAudio w (text p) = inr res
                             /\ ok res = true) (pages story) responses
       /\ Forall2 (fun el png => html2canvas w el = inr png) book pngs
       /\ whooshBuffer w = inr clip
       /\ t = (ExportShapes.staged story book pngs
                 (ExportShapes.audioWrites responses) clip ++ rest)%list
       /\ Forall (fun ev => isStaging ev = false) rest.
Proof.
  intros Hrun.
  unfold exportVideo in Hrun.
  apply bind_inv in Hrun
    as [(e & H1 & ->) | (t1 & pagesWithAudio & s1 & t2 & H1 & Hrun & ->)].
  { left. split; [|eauto].
    pose proof (staging_narrations w (pages story) s) as Hst.
    now rewrite H1 in Hst. }
  destruct (narration_phase (pages story) s) as (r1 & Hn & Hres).
  rewrite Hn in H1. injection H1 as <- -> <-.
  destruct (Hres _ eq_refl) as (responses & Hresp & Haudio).
  apply bind_inv in Hrun
    as [(e & H2 & ->) | (t3 & images & s2 & t4 & H2 & Hrun & ->)].
  { left. split; [|eauto]. apply Forall_app. split.
    - apply Forall_map, Forall_forall. reflexivity.
    - pose proof (staging_captures w book 0 [] s) as Hst.
      now rewrite H2 in Hst. }
  pose proof (captureLoop_names _ _ _ _ _ _ _ _ H2 eq_refl) as Hnames.
  destruct (capture_phase_all _ _ _ _ _ H2) as (-> & -> & pngs & Hpngs & ->).
  cbv beta in Hrun.
  assert (Hstage1 : Forall (fun ev => isStaging ev = true)
                      (map (fun p => FetchAudio (text p)) (pages story)
                         ++ map Capture (seq 0 (length book)))).
  { apply Forall_app. split; apply Forall_map, Forall_forall; reflexivity. }
  apply bind_inv in Hrun
    as [(e & H3 & ->) | (t5 & [] & s3 & t6 & H3 & Hrun & ->)].
  { left. split; [|eauto]. rewrite app_assoc. apply Forall_app. split;
      [assumption|].
    pose proof (Emits_engineLoad w isStaging eq_refl s) as Hst.
    now rewrite H3 in Hst. }
  assert (Ht5 : t5 = [EngineLoad]).
  { unfold engineLoad in H3. destruct (load (ffmpeg w) s).
    now injection H3 as <- _ _. }
  subst t5.
  apply bind_inv in Hrun
    as [(e & H4 & ->) | (t7 & ? & s4 & t8 & H4 & Hrun & ->)].
  { left. split; [|eauto]. rewrite app_assoc. apply Forall_app. split;
      [assumption|]. constructor; [reflexivity|].
    pose proof (staging_images w _ Hnames s3) as Hst.
    now rewrite H4 in Hst. }
  destruct (write_images_phase
              (mapi_from 0 (fun png j => mkPageImage png (pageName j)) pngs)
              s3) as (r4 & s4' & Hw).
  rewrite Hw in H4. injection H4 as <- _ _.
  assert (Hwrites :
            map (fun im => EngineWrite (name im) (fetchFile (blob im)))
              (mapi_from 0 (fun png j => mkPageImage png (pageName j)) pngs)
            = ExportShapes.imageWrites pngs).
  { unfold ExportShapes.imageWrites, mapi. generalize 0%nat. clear.
    induction pngs as [|png pngs IH]; intros i; cbn; [reflexivity|].
    now rewrite IH. }
  rewrite Hwrites in *.
  assert (Hstage2 : Forall (fun ev => isStaging ev = true)
                      (ExportShapes.imageWrites pngs)).
  { unfold ExportShapes.imageWrites, mapi. generalize 0%nat. clear.
    induction pngs as [|png pngs IH]; intros i; cbn; constructor;
      [reflexivity | apply IH]. }
  apply bind_inv in Hrun
    as [(e & H5 & ->) | (t9 & ? & s5 & t10 & H5 & Hrun & ->)].
  { left. split; [|eauto]. rewrite app_assoc. apply Forall_app. split;
      [assumption|]. constructor; [reflexivity|].
    apply Forall_app. split; [assumption|].
    pose proof (staging_audio w pagesWithAudio s4) as Hst.
    now rewrite H5 in Hst. }
  destruct (write_audio_phase pagesWithAudio responses 0 s4 Haudio)
    as (r5 & s5' & Ha).
  unfold mapi in H5 at 1. rewrite Ha in H5. injection H5 as <- _ _.
  fold (mapi (fun res j =>
                EngineWrite (ExportShapes.audioName j) (fetchFile (body res)))
          responses) in *.
  fold (ExportShapes.audioWrites responses) in *.
  assert (Hstage3 : Forall (fun ev => isStaging ev = true)
                      (ExportShapes.audioWrites responses)).
  { unfold ExportShapes.audioWrites, mapi. generalize 0%nat. clear.
    induction responses as [|res rs IH]; intros i; cbn; constructor;
      [reflexivity | apply IH]. }
  apply bind_inv in Hrun
    as [(e & H6 & ->) | (t11 & clip & s6 & t12 & H6 & Hrun & ->)].
  { left. split; [|eauto]. unfold call in H6. injection H6 as <- _ _.
    rewrite app_assoc. apply Forall_app. split; [assumption|].
    constructor; [reflexivity|].
    apply Forall_app. split; [assumption|].
    apply Forall_app. split; [assumption | repeat constructor]. }
  unfold call in H6. injection H6 as <- Hclip <-.
  apply bind_inv in Hrun
    as [(e & H7 & ->) | (t13 & [] & s7 & t14 & H7 & Hrun & ->)];
    apply engineWrite_inv in H7 as ->.
  { left. split; [|eauto].
    rewrite app_assoc. apply Forall_app. split; [assumption|].
    constructor; [reflexivity|].
    apply Forall_app. split; [assumption|].
    apply Forall_app. split; [assumption | repeat constructor]. }
  right. exists responses, pngs, clip, t14.
  repeat split; try assumption.
  - unfold ExportShapes.staged. cbn. rewrite <- !app_assoc. cbn.
    rewrite <- !app_assoc. reflexivity.
  - eapply encoding_phase; [exact Hnames | exact Hrun | reflexivity].
Qed.
End Staging.

(* ================================================================= *)
(** ** The two halves of the [try] block *)

Lemma promiseAll_error {FS A : Type} (ms : list (Run.M FS A)) (s : FS) (e : Exn) :
  snd (fst (promiseAll ms s)) = inl e ->
  exists m s0, In m ms /\ snd (fst (m s0)) = inl e.
Proof.
  revert s. induction ms as [|m ms IH]; intros s; cbn; [discriminate|].
  destruct (m s) as [[t1 r1] s1] eqn:Hm.
  destruct (promiseAll ms s1) as [[t2 r2] s2] eqn:Hrest. cbn.
  destruct r1 as [e1|a].
  - intros [= <-]. exists m, s. split; [now left | now rewrite Hm].
  - destruct r2 as [e2|others]; [|discriminate]. intros [= <-].
    destruct (IH s1) as (m' & s0 & Hin & He); [now rewrite Hrest|].
    exists m', s0. split; [now right | assumption].
Qed.

Section Anatomy.
Context {Elem FS : Type}.
Variable w : World Elem FS.
Local Abbreviation M := (Run.M FS).

Lemma bind_ret_l {A B} (a : A) (k : A -> M B) (s : FS) :
  bind (ret a) k s = k a s.
Proof. unfold bind, Run.ret. now destruct (k a s) as [[t r] s']. Qed.

Lemma bind_assoc {A B C} (m : M A) (k : A -> M B) (k' : B -> M C) (s : FS) :
  bind (bind m k) k' s = bind m (fun a => bind (k a) k') s.
Proof.
  unfold bind. destruct (m s) as [[t1 [e|a]] s1]; [reflexivity|].
  destruct (k a s1) as [[t2 [e|b]] s2]; [reflexivity|].
  destruct (k' b s2) as [[t3 r] s3]. now rewrite <- app_assoc.
Qed.

Lemma bind_ext {A B} (m : M A) (k k' : A -> M B) (s : FS) :
  (forall a s1, k a s1 = k' a s1) -> bind m k s = bind m k' s.
Proof.
  intros H. unfold bind. destruct (m s) as [[t [e|a]] s1]; [reflexivity|].
  now rewrite H.
Qed.

(** The [try] block is its staging followed by its encoding. *)
Lemma exportVideo_split holdTime fadeTime story book (s : FS) :
  exportVideo w holdTime fadeTime story book s
  = bind (ExportShapes.staging w story book)
      (ExportShapes.encoding w holdTime fadeTime story) s.
Proof.
  unfold exportVideo, ExportShapes.staging, ExportShapes.encoding.
  symmetry.
  do 7 (rewrite bind_assoc; apply bind_ext; intros; cbv beta).
  now rewrite bind_ret_l.
Qed.

(** The staging logs staging events only; when it resolves, there is a
    narrated page for every page and an image named [page<i>.png] for
    every page element. *)
Lemma staging_run story book (s : FS) t r s' :
  ExportShapes.staging w story book s = (t, r, s') ->
  Forall (fun ev => isStaging ev = true) t
  /\ forall pagesWithAudio images,
       r = inr (pagesWithAudio, images) ->
       length pagesWithAudio = length (pages story)
       /\ length images = length book
       /\ map name images = map pageName (seq 0 (length images)).
Proof.
  unfold ExportShapes.staging. intros H.
  apply bind_inv in H as [(e & H1 & ->) | (t1 & pa & s1 & t2 & H1 & H & ->)];
    pose proof (staging_narrations w (pages story) s) as Hst1;
    rewrite H1 in Hst1; cbn in Hst1; [split; [assumption | discriminate]|].
  apply promiseAll_length in H1. rewrite length_map in H1.
  apply bind_inv in H as [(e & H2 & ->) | (t3 & images & s2 & t4 & H2 & H & ->)];
    pose proof (staging_captures w book 0 [] s1) as Hst2;
    rewrite H2 in Hst2; cbn in Hst2;
    [split; [now apply Forall_app | discriminate]|].
  pose proof (captureLoop_length _ _ _ _ _ _ _ _ H2) as Hshown.
  cbn in Hshown.
  apply captureLoop_names in H2; [|reflexivity].
  apply bind_inv in H as [(e & H3 & ->) | (t5 & [] & s3 & t6 & H3 & H & ->)];
    pose proof (Emits_engineLoad w isStaging eq_refl s2) as Hst3;
    rewrite H3 in Hst3; cbn in Hst3;
    [split; [repeat (apply Forall_app; split); assumption | discriminate]|].
  apply bind_inv in H as [(e & H4 & ->) | (t7 & ? & s4 & t8 & H4 & H & ->)];
    pose proof (staging_images w images H2 s3) as Hst4;
    rewrite H4 in Hst4; cbn in Hst4;
    [split; [repeat (apply Forall_app; split); assumption | discriminate]|].
  apply bind_inv in H as [(e & H5 & ->) | (t9 & ? & s5 & t10 & H5 & H & ->)];
    pose proof (staging_audio w pa s4) as Hst5;
    rewrite H5 in Hst5; cbn in Hst5;
    [split; [repeat (apply Forall_app; split); assumption | discriminate]|].
  apply bind_inv in H
    as [(e & H6 & ->) | (t11 & whoosh & s6 & t12 & H6 & H & ->)];
    pose proof (Emits_call (FS := FS) isStaging FetchWhoosh (whooshBuffer w)
                  eq_refl s5) as Hst6;
    rewrite H6 in Hst6; cbn in Hst6;
    [split; [repeat (apply Forall_app; split); assumption | discriminate]|].
  apply bind_inv in H as [(e & H7 & ->) | (t13 & [] & s7 & t14 & H7 & H & ->)];
    pose proof (Emits_engineWrite w isStaging "whoosh.mp3" whoosh eq_refl s6)
      as Hst7;
    rewrite H7 in Hst7; cbn in Hst7;
    [split; [repeat (apply Forall_app; split); assumption | discriminate]|].
  injection H as <- <- _. split.
  - repeat (apply Forall_app; split); try assumption. constructor.
  - intros ? ? [= <- <-]. now repeat split.
Qed.

(** The events of a call that passes the guard. *)
Lemma trace_unfold holdTime fadeTime story book :
  trace w holdTime fadeTime (Some story) (Some book)
  = (SetBusy true
       :: fst (fst (exportVideo w holdTime fadeTime story book
                      (fresh (ffmpeg w))))
       ++ alertOf (snd (fst (exportVideo w holdTime fadeTime story book
                               (fresh (ffmpeg w)))))
       ++ [SetBusy false])%list.
Proof.
  destruct (trace_run w holdTime fadeTime story book)
    as (t & r & _ & (s' & Heq) & ->).
  rewrite Heq. cbn. now rewrite <- app_assoc.
Qed.







End Anatomy.

(* ================================================================= *)
(** ** Timing values and page assets are not checked *)

(** C5, as the code has it: there is no timing check.  [holdTime] and
    [fadeTime] are read for the first time when the encode of page 0 is
    built.  So either every timing gives the same run, or every timing,
    also one with [fadeTime >= holdTime] or [holdTime <= 0], gives a run
    that stages the inputs with the same events, none of them an alert or
    a command, and then hands the engine the encode of page 0 built from
    these values: its graph fades out from [holdTime - fadeTime] for
    [fadeTime] seconds and delays the page-turn clip by
    [(holdTime - fadeTime) * 1000] milliseconds, whatever their sign. *)
Theorem invalid_timing_is_not_rejected {Elem FS : Type}
    (w : World Elem FS) (story : StoryData) (book : list Elem) :
  let run h f := trace w h f (Some story) (Some book) in
  ((forall h f h' f', run h f = run h' f')
   \/ (exists pre,
         Forall (fun ev => isStaging ev = true) pre
         /\ forall h f, exists outcome rest,
              run h f
              = (SetBusy true
                   :: pre ++ segmentExec (numToString w) h f 0 outcome
                   :: rest)%list))
  /\ forall h f,
       let g := segmentGraph h f in
       argValue "-filter_complex"
         (segmentArgs (numToString w) h f (pageName 0) 0)
       = Some (renderGraph (numToString w) g)
       /\ filterOption "v1" "fade" "st" g = Some (VNum (h - f)%float)
       /\ filterOption "v1" "fade" "d" g = Some (VNum f)
       /\ filterPositional "a2" "adelay" g
          = Some [VNum ((h - f) * 1000)%float; VNum ((h - f) * 1000)%float].
Proof.
  intros run. unfold run. clear run.
  split.
  2:{ intros h f. split.
      - rewrite <- filterComplex_render. reflexivity.
      - repeat split; reflexivity. }
  destruct (ExportShapes.staging w story book (fresh (ffmpeg w)))
    as [[t0 r0] s1] eqn:Hst.
  destruct (staging_run w _ _ _ _ _ _ Hst) as (Hemits & Hres).
  assert (Hexp : forall h f,
             exportVideo w h f story book (fresh (ffmpeg w))
             = match r0 with
               | inl e => (t0, inl e, s1)
               | inr x =>
                   match ExportShapes.encoding w h f story x s1 with
                   | (t', r, s2) => ((t0 ++ t')%list, r, s2)
                   end
               end).
  { intros h f. rewrite exportVideo_split. unfold bind. rewrite Hst.
    now destruct r0. }
  destruct r0 as [e|[pa images]].
  { left. intros. now rewrite !trace_unfold, !Hexp. }
  destruct (Hres pa images eq_refl) as (_ & _ & Hnames).
  unfold ExportShapes.encoding in Hexp. cbn [fst snd] in Hexp.
  destruct (length pa) as [|n].
  { left. intros. now rewrite !trace_unfold, !Hexp. }
  destruct images as [|im images].
  { left. intros. now rewrite !trace_unfold, !Hexp. }
  right. exists t0. split; [assumption|]. intros h f.
  rewrite trace_unfold, Hexp. cbn [segmentLoop nth_error].
  rewrite (image_name _ 0 im Hnames eq_refl).
  rewrite bind_assoc. unfold bind at 1, engineExec.
  destruct (exec (ffmpeg w)
              (segmentArgs (numToString w) h f (pageName 0) 0) s1)
    as [[e|status] s2].
  - eexists _, _. cbn. rewrite <- app_assoc. reflexivity.
  - match goal with
    | |- context [bind ?m ?k s2] => destruct (bind m k s2) as [[t' r] s3]
    end.
    eexists _, _. cbn. rewrite <- !app_assoc. reflexivity.
Qed.

(** A fade as long as the hold (1 s each): the page is encoded with fade
    start 0, a command whose streams the engine's rules give a length,
    and the video is offered without an alert.  A fade longer than the
    hold (2 s against 1 s) on an engine whose commands all fail: the page
    is encoded all the same, with fade start -1 and delay -1000, the
    concat is run, and the alert is that of the read of the missing
    output. *)
Lemma invalid_timing_reaches_engine :
  let run11 := trace (Standin.world Standin.speech Standin.succeeding) 1 1
                 (Some Standin.moon) (Some [0%nat]) in
  let run12 := trace (Standin.world Standin.speech Standin.failing) 1 2
                 (Some Standin.moon) (Some [0%nat]) in
  (1 <=? 1)%float = true
  /\ filterComplex Standin.showNumber 1 1
     = "[0:v]format=yuv420p,fade=t=out:st=0:d=1[v1];[1:a]adelay=0|0[a1];[2:a]adelay=0|0[a2];[a1][a2]amix=inputs=2:duration=shortest[aout]"
  /\ match
       Extent.outputExtent
         (segmentArgs Standin.showNumber 1 1 (pageName 0) 0)
         (segmentGraph 1 1) 2 1
     with
     | Some (Extent.Finite len) => Qeq_bool len 1
     | _ => false
     end = true
  /\ nth_error run11 8
     = Some (segmentExec Standin.showNumber 1 1 0 (inr 0%Z))
  /\ nth_error run11 12
     = Some (Download "Moon.mp4" (encode "video output.mp4"))
  /\ existsb isAlert run11 = false
  /\ (1 <=? 2)%float = true
  /\ filterComplex Standin.showNumber 1 2
     = "[0:v]format=yuv420p,fade=t=out:st=-1:d=2[v1];[1:a]adelay=0|0[a1];[2:a]adelay=-1000|-1000[a2];[a1][a2]amix=inputs=2:duration=shortest[aout]"
  /\ nth_error run12 8
     = Some (segmentExec Standin.showNumber 1 2 0 (inr 1%Z))
  /\ nth_error run12 10 = Some (EngineExec concatArgs (inr 1%Z))
  /\ nth_error run12 12 = Some (Alert "ErrnoError: FS error")
  /\ existsb isDownload run12 = false.
Proof. repeat split; vm_compute; reflexivity. Qed.

(** Hold 1 s, fade 2 s: after the staging, the encode of page 0. *)
Lemma invalid_timing_is_not_rejected_example :
  exists pre outcome rest,
    trace (Standin.world Standin.speech Standin.failing) 1 2
      (Some Standin.moon) (Some [0%nat])
    = (SetBusy true
         :: pre ++ segmentExec Standin.showNumber 1 2 0 outcome :: rest)%list
    /\ Forall (fun ev => isStaging ev = true) pre.
Proof.
  destruct (invalid_timing_is_not_rejected
              (Standin.world Standin.speech Standin.failing)
              Standin.moon [0%nat]) as ([Hsame | (pre & Hpre & Hrun)] & _).
  - specialize (Hsame 1%float 2%float 4%float 0.5%float).
    vm_compute in Hsame. discriminate Hsame.
  - destruct (Hrun 1%float 2%float) as (outcome & rest & Heq).
    now exists pre, outcome, rest.
Defined.




(* ================================================================= *)
(** ** Staging and outcome of a run *)

(** X12: in every run of the video export in which a command is issued,
    all inputs were staged before the first command: every narration
    request was answered OK, every page element was captured, the engine
    was loaded, [writeFile] was called for [page<i>.png] with the promise
    of the capture of element [i], in page order, then for every
    [audio<i>.mp3] with the promise of the body of the answer to the text
    of page [i], in some order, and then for [whoosh.mp3] with the
    page-turn clip.  Nothing is staged afterwards. *)
Theorem segment_inputs_are_staged {Elem FS : Type} (w : World Elem FS)
    (holdTime fadeTime : float) (story : StoryData) (book : list Elem)
    (args : list string) (outcome : Exn + Z) :
  let run := trace w holdTime fadeTime (Some story) (Some book) in
  In (EngineExec args outcome) run ->
  exists responses pngs clip audio rest,
    Forall2 (fun p res => generateAudio w (text p) = inr res
                          /\ ok res = true) (pages story) responses
    /\ Forall2 (fun el png => html2canvas w el = inr png) book pngs
    /\ whooshBuffer w = inr clip
    /\ Permutation audio (ExportShapes.audioWrites responses)
    /\ run = (SetBusy true
                :: ExportShapes.staged story book pngs audio clip
                ++ rest)%list
    /\ Forall (fun ev => isStaging ev = false) rest.
Proof.
  intros run Hin. unfold run in *.
  destruct (trace_run w holdTime fadeTime story book)
    as (t & r & _ & (s' & Hrun) & Htrace).
  rewrite Htrace in *.
  destruct (exportVideo_staging _ _ _ _ _ _ _ _ _ Hrun)
    as [(Hst & _)
       | (responses & pngs & clip & rest & Hresp & Hpngs & Hclip & -> & Hrest)].
  - exfalso. destruct Hin as [Hin|Hin]; [discriminate|].
    apply in_app_or in Hin as [Hin|[Hin|[]]]; [|discriminate].
    apply in_app_or in Hin as [Hin|Hin].
    + rewrite Forall_forall in Hst. apply Hst in Hin. discriminate.
    + destruct r as [e|[]]; [|destruct Hin].
      destruct Hin as [Hin|[]]. discriminate.
  - exists responses, pngs, clip, (ExportShapes.audioWrites responses),
      (rest ++ alertOf r ++ [SetBusy false])%list.
    repeat split; try assumption.
    + apply Permutation_refl.
    + cbn. now rewrite <- !app_assoc.
    + apply Forall_app. split; [assumption|].
      apply Forall_app. split; [destruct r as [e|[]]|]; repeat constructor.
Qed.

Lemma segment_inputs_are_staged_example :
  let run := trace (Standin.world Standin.speech Standin.succeeding) 4 0.5
               (Some Standin.moon) (Some [0%nat]) in
  exists rest,
    run = (SetBusy true
             :: ExportShapes.staged Standin.moon [0%nat] [encode "png 0"]
                  [EngineWrite "audio0.mp3" (fetchFile (encode "mp3 Once"))]
                  (encode "whoosh")
             ++ rest)%list
    /\ Forall (fun ev => isStaging ev = false) rest.
Proof.
  intros run.
  destruct (segment_inputs_are_staged
              (Standin.world Standin.speech Standin.succeeding) 4 0.5
              Standin.moon [0%nat] concatArgs (inr 0%Z))
    as (responses & pngs & clip & audio & rest
        & Hresp & Hpngs & Hclip & Hperm & Hrun & Hrest).
  - vm_compute. do 10 right. left. reflexivity.
  - inversion Hresp as [|? res ? ? [Hres _] Hnil]; subst.
    inversion Hnil; subst. injection Hres as <-.
    inversion Hpngs as [|? png ? ? Hpng Hnil']; subst.
    inversion Hnil'; subst. injection Hpng as <-.
    injection Hclip as <-.
    apply Permutation_sym, Permutation_length_1_inv in Hperm. subst audio.
    now exists rest.
Defined.

(** X13: every run of the video export that passes the guard raises the
    busy flag first, and has exactly one outcome: it either offers the
    download or raises an alert with a non-empty message, once, and lowers
    the busy flag right after it.  No other download, alert or busy-flag
    change happens, before or after. *)
Theorem export_ends_with_download_or_alert {Elem FS : Type}
    (w : World Elem FS) (holdTime fadeTime : float)
    (story : StoryData) (book : list Elem) :
  exists before final after,
    trace w holdTime fadeTime (Some story) (Some book)
    = (SetBusy true :: before ++ final :: SetBusy false :: after)%list
    /\ Forall (fun ev => ExportShapes.isQuiet ev = true) before
    /\ Forall (fun ev => ExportShapes.isQuiet ev = true) after
    /\ ((exists data,
            final = Download (orElse (title story) "storybook" ++ ".mp4") data)
        \/ (exists msg, final = Alert msg /\ msg <> EmptyString)).
Proof.
  destruct (trace_run w holdTime fadeTime story book)
    as (t & r & Hrun & _ & ->).
  assert (Hstaging : forall pre, Forall (fun ev => isStaging ev = true) pre ->
            Forall (fun ev => ExportShapes.isQuiet ev = true) pre).
  { intros pre Hpre. eapply Forall_impl; [|exact Hpre].
    intros ev Hev. now destruct ev. }
  assert (Hsegments : forall i k segs,
             SegmentEvents (numToString w) holdTime fadeTime i k segs ->
             Forall (fun ev => ExportShapes.isQuiet ev = true) segs).
  { intros i k segs Hsegs.
    eapply Forall_impl; [|exact (segments_are_execs _ _ _ _ _ _ Hsegs)].
    intros ev (Hx & _). now destruct ev. }
  assert (Hmsg : forall e, orElse e "Failed to export video" <> EmptyString).
  { intros [|c e]; discriminate. }
  destruct Hrun as [pre e Hpre | pre k segs last e Hpre Hk Hsegs Hlast
                   | pre segs tl r Hpre Hn Hsegs Htl].
  - exists pre, (Alert (orElse e "Failed to export video")), [].
    cbn. rewrite <- app_assoc. split; [reflexivity|].
    split; [now apply Hstaging|]. split; [constructor | right; eauto].
  - exists (pre ++ segs ++ last)%list,
      (Alert (orElse e "Failed to export video")), [].
    cbn. rewrite <- !app_assoc. split; [reflexivity|].
    split; [|split; [constructor | right; eauto]].
    apply Forall_app. split; [now apply Hstaging|].
    apply Forall_app. split; [exact (Hsegments _ _ _ Hsegs)|].
    destruct Hlast as [->| ->]; repeat constructor.
  - destruct Htl.
    + eexists (pre ++ segs ++ [_])%list, _, [].
      cbn. rewrite <- !app_assoc. split; [reflexivity|].
      split; [|split; [constructor | right; eauto]].
      apply Forall_app. split; [now apply Hstaging|].
      apply Forall_app. split; [exact (Hsegments _ _ _ Hsegs)|].
      repeat constructor.
    + eexists (pre ++ segs ++ [_; _])%list, _, [].
      cbn. rewrite <- !app_assoc. split; [reflexivity|].
      split; [|split; [constructor | right; eauto]].
      apply Forall_app. split; [now apply Hstaging|].
      apply Forall_app. split; [exact (Hsegments _ _ _ Hsegs)|].
      repeat constructor.
    + eexists (pre ++ segs ++ [_; _; _])%list, _, [].
      cbn. rewrite <- !app_assoc. split; [reflexivity|].
      split; [|split; [constructor | right; eauto]].
      apply Forall_app. split; [now apply Hstaging|].
      apply Forall_app. split; [exact (Hsegments _ _ _ Hsegs)|].
      repeat constructor.
    + eexists (pre ++ segs ++ [_; _; _])%list, _, [].
      cbn. rewrite <- !app_assoc. cbn. rewrite <- ?app_assoc.
      split; [reflexivity|].
      split; [|split; [constructor | left; eauto]].
      apply Forall_app. split; [now apply Hstaging|].
      apply Forall_app. split; [exact (Hsegments _ _ _ Hsegs)|].
      repeat constructor.
Qed.



Section AfterNarration.
Context {Elem FS : Type}.
Variable w : World Elem FS.
Variables holdTime fadeTime : float.

(** Whatever follows step 1 requests no narration. *)
Lemma no_narration_after_step1 (story : StoryData) (book : list Elem)
    (pagesWithAudio : list StoryPage) :
  Emits (fun ev => negb (ExportShapes.isNarrationRequest ev))
    (bind (captureLoop w book 0 []) (fun images =>
     bind (engineLoad w) (fun _ =>
     bind (promiseAll
             (map (fun im => engineWrite w (name im) (fetchFile (blob im))) images))
       (fun _ =>
     bind (promiseAll (mapi (stageNarration w) pagesWithAudio)) (fun _ =>
     bind (call FetchWhoosh (whooshBuffer w)) (fun whoosh =>
     bind (engineWrite w "whoosh.mp3" whoosh) (fun _ =>
     bind (segmentLoop w holdTime fadeTime images (length pagesWithAudio) 0
             ["ffconcat version 1.0"])
       (fun listFile => assemble w story listFile)))))))).
Proof.
  set (P := fun ev => negb (ExportShapes.isNarrationRequest ev)).
  assert (Hexec : forall args, Emits P (engineExec w args)).
  { intros args s. unfold engineExec.
    destruct (exec (ffmpeg w) args s). cbn. now constructor. }
  apply Emits_bind.
  { generalize 0%nat, (@nil PageImage).
    induction book as [|el els IH]; intros i acc; cbn [captureLoop].
    - apply Emits_ret.
    - apply Emits_bind; [now apply Emits_call|]. intros png. apply IH. }
  intros images.
  apply Emits_bind; [now apply Emits_engineLoad|]. intros _.
  apply Emits_bind.
  { apply Emits_promiseAll, Forall_map, Forall_forall.
    intros im _. now apply Emits_engineWrite. }
  intros _.
  apply Emits_bind.
  { apply Emits_promiseAll. unfold mapi. generalize 0%nat.
    induction pagesWithAudio as [|p ps IH]; intros i; cbn; constructor;
      [|apply IH].
    unfold stageNarration. destruct (audioUrl p);
      [now apply Emits_engineWrite | apply Emits_throw]. }
  intros _.
  apply Emits_bind; [now apply Emits_call|]. intros whoosh.
  apply Emits_bind; [now apply Emits_engineWrite|]. intros _.
  apply Emits_bind.
  { generalize (length pagesWithAudio), 0%nat, ["ffconcat version 1.0"].
    induction n as [|n IH]; intros i listFile; cbn [segmentLoop].
    - apply Emits_ret.
    - destruct (nth_error images i); [|apply Emits_throw].
      apply Emits_bind; [apply Hexec|]. intros _. apply IH. }
  intros listFile. unfold assemble.
  apply Emits_bind; [now apply Emits_engineWrite|]. intros _.
  apply Emits_bind; [apply Hexec|]. intros _.
  apply Emits_bind.
  { intros s. unfold engineRead.
    destruct (readFile (ffmpeg w) "output.mp4" s). cbn. now constructor. }
  intros data s. cbn. now constructor.
Qed.
End AfterNarration.

(** X14: every run of the video export that passes the guard requests the
    narration of every page, once, in page order, before anything else,
    also when one of the requests fails. *)
Theorem every_narration_is_requested {Elem FS : Type} (w : World Elem FS)
    (holdTime fadeTime : float) (story : StoryData) (book : list Elem) :
  exists rest,
    trace w holdTime fadeTime (Some story) (Some book)
    = (SetBusy true
         :: map (fun p => FetchAudio (text p)) (pages story) ++ rest)%list
    /\ Forall (fun ev => ExportShapes.isNarrationRequest ev = false) rest.
Proof.
  destruct (trace_run w holdTime fadeTime story book)
    as (t & r & _ & (s' & Hrun) & ->).
  unfold exportVideo in Hrun.
  destruct (narration_phase w (pages story) (fresh (ffmpeg w)))
    as (r1 & Hn & _).
  assert (Htail : Forall (fun ev => ExportShapes.isNarrationRequest ev = false)
                    (alertOf r ++ [SetBusy false])).
  { apply Forall_app. split; [destruct r as [e|[]]|]; repeat constructor. }
  apply bind_inv in Hrun
    as [(e & H1 & ->) | (t1 & pagesWithAudio & s1 & t2 & H1 & Hrun & ->)];
    rewrite Hn in H1; injection H1 as <- Hr1 <-.
  - exists (alertOf (inl e) ++ [SetBusy false])%list.
    split; [now rewrite <- app_assoc | exact Htail].
  - exists (t2 ++ alertOf r ++ [SetBusy false])%list.
    split; [now rewrite <- !app_assoc|].
    apply Forall_app. split; [|exact Htail].
    pose proof (no_narration_after_step1 w holdTime fadeTime story book
                  pagesWithAudio (fresh (ffmpeg w))) as Hquiet.
    cbv beta in Hrun. rewrite Hrun in Hquiet. cbn in Hquiet.
    eapply Forall_impl; [|exact Hquiet].
    intros ev Hev. now apply negb_true_iff in Hev.
Qed.

(* ================================================================= *)
(** ** The route handlers *)

(** The speech route answers 400 "Missing text" without calling the
    speech model when the body has no text or an empty one; otherwise it
    calls the model once, with the text as it is, and answers 200 with the
    model's bytes unchanged, or 500 with the error's message, or with
    "Failed to generate audio" when the message is empty. *)
Theorem speech_route_outcomes (speechModel : string -> Exn + Bytes)
    (text : option string) :
  let sent := fst (Routes.Audio.POST speechModel text) in
  let res := snd (Routes.Audio.POST speechModel text) in
  (sent = []
   /\ (text = None \/ text = Some EmptyString)
   /\ Routes.status res = 400%nat
   /\ Routes.payload res = encode "Missing text")
  \/ (exists input,
        text = Some input /\ input <> EmptyString /\ sent = [input]
        /\ ((exists buffer,
                speechModel input = inr buffer
                /\ Routes.status res = 200%nat
                /\ Routes.payload res = buffer)
            \/ (exists err,
                  speechModel input = inl err
                  /\ Routes.status res = 500%nat
                  /\ Routes.payload res
                     = encode (orElse err "Failed to generate audio")
                  /\ Routes.payload res <> []))).
Proof.
  destruct text as [[|c input]|]; cbn.
  - left. repeat split. now right.
  - right. exists (String c input). repeat split; [discriminate|].
    destruct (speechModel (String c input)) as [err|buffer].
    + right. exists err. repeat split. destruct err; discriminate.
    + left. now exists buffer.
  - left. repeat split. now left.
Qed.

(** X15: the image route answers 400 without calling the image model when
    the body has no prompt or an empty one; otherwise it calls the model
    once, with the prompt followed by the fixed style suffix, and answers
    200 with a PNG data URL made of the first result, or 500 with a
    non-empty error when the model fails or returns no result. *)
Theorem image_route_outcomes
    (imageModel : string -> Exn + list (option string))
    (prompt : option string) :
  let sent := fst (Routes.Image.POST imageModel prompt) in
  let res := snd (Routes.Image.POST imageModel prompt) in
  (sent = []
   /\ (prompt = None \/ prompt = Some EmptyString)
   /\ Routes.status res = 400%nat
   /\ Routes.payload res = Routes.Image.Error "Missing prompt")
  \/ (exists p,
        prompt = Some p /\ p <> EmptyString
        /\ sent = [p ++ ". No text, no watermarks. Rich lighting, coherent characters across pages."]
        /\ ((exists rest,
                Routes.status res = 200%nat
                /\ Routes.payload res
                   = Routes.Image.Url ("data:image/png;base64," ++ rest)
                /\ exists data others,
                     imageModel (p ++ ". No text, no watermarks. Rich lighting, coherent characters across pages.")
                     = inr (data :: others)
                     /\ (data = Some rest
                         \/ (data = None /\ rest = "undefined")))
            \/ (exists msg,
                  Routes.status res = 500%nat
                  /\ Routes.payload res = Routes.Image.Error msg
                  /\ msg <> EmptyString))).
Proof.
  destruct prompt as [[|c p]|]; cbn.
  - left. repeat split. now right.
  - right. exists (String c p). repeat split; [discriminate|].
    destruct (imageModel _) as [err|[|[b|] others]] eqn:Hmodel.
    + right. eexists. repeat split. destruct err; discriminate.
    + right. eexists. repeat split. discriminate.
    + left. exists b. repeat split. exists (Some b), others. split; auto.
    + left. exists "undefined". repeat split.
      exists None, others. split; auto.
  - left. repeat split. now left.
Qed.

(** What the export sees of the speech route for one page. *)
Lemma narration_through_route {Elem FS : Type} (w : World Elem FS)
    (speechModel : string -> Exn + Bytes) (p : StoryPage) (s : FS) :
  generateAudio w = Routes.narrationEndpoint speechModel ->
  snd (fst (fetchNarration w p s))
  = match text p with
    | EmptyString => inl "Missing text"
    | input =>
        match speechModel input with
        | inr buffer =>
            inr (mkStoryPage (text p) (imagePrompt p) (imageUrl p)
                   (Some buffer))
        | inl err => inl (orElse err "Failed to generate audio")
        end
    end.
Proof.
  intros Hw. rewrite fetchNarration_run, Hw. cbn.
  unfold Routes.narrationEndpoint, Routes.Audio.POST.
  destruct (text p) as [|c input]; [reflexivity|].
  destruct (speechModel (String c input)) as [err|buffer]; cbn;
    [|reflexivity].
  f_equal.
  exact (string_of_list_byte_of_string (orElse err "Failed to generate audio")).
Qed.

(** X16: the video export against the speech route.  A story with a page
    whose text is empty fails in step 1: the route refuses that page with
    400, so after the narration requests the export raises one alert and
    stops, before any capture or engine call; when the speech model
    itself answers every non-empty text, the alert says "Missing
    text". *)
Theorem page_without_text_stops_export {Elem FS : Type} (w : World Elem FS)
    (holdTime fadeTime : float) (story : StoryData) (book : list Elem)
    (speechModel : string -> Exn + Bytes) :
  generateAudio w = Routes.narrationEndpoint speechModel ->
  (exists p, In p (pages story) /\ text p = EmptyString) ->
  exists msg,
    trace w holdTime fadeTime (Some story) (Some book)
    = (SetBusy true
         :: map (fun p => FetchAudio (text p)) (pages story)
         ++ [Alert msg; SetBusy false])%list
    /\ ((forall input, input <> EmptyString ->
           exists buffer, speechModel input = inr buffer) ->
        msg = "Missing text").
Proof.
  intros Hw (p & Hp & Hempty).
  destruct (narration_phase w (pages story) (fresh (ffmpeg w)))
    as (r1 & Hn & _).
  destruct (promiseAll_rejects (map (fetchNarration w) (pages story))
              (fetchNarration w p) (fresh (ffmpeg w)) (in_map _ _ _ Hp))
    as (e & He).
  { intros s1. rewrite (narration_through_route w speechModel p s1 Hw), Hempty.
    eauto. }
  pose proof He as He'. rewrite Hn in He'. cbn in He'. subst r1.
  exists (orElse e "Failed to export video"). split.
  - unfold trace, downloadVideo, exportVideo, bind, finally, tryCatch, emit.
    rewrite Hn. cbn. now rewrite <- app_assoc.
  - intros Htotal.
    destruct (promiseAll_error _ _ _ He) as (m & s0 & Hin & Hm).
    apply in_map_iff in Hin as (q & <- & _).
    rewrite (narration_through_route w speechModel q s0 Hw) in Hm.
    destruct (text q) as [|c input]; [now injection Hm as <-|].
    destruct (Htotal (String c input)) as (buffer & Hbuf); [discriminate|].
    rewrite Hbuf in Hm. discriminate.
Qed.

Lemma page_without_text_stops_export_example :
  trace ExportShapes.routedWorld 4 0.5 (Some Standin.fivePages)
    (Some [0; 1; 2; 3; 4]%nat)
  = [ SetBusy true; FetchAudio "a"; FetchAudio "b"; FetchAudio "c";
      FetchAudio EmptyString; FetchAudio "e"; Alert "Missing text";
      SetBusy false ].
Proof.
  destruct (page_without_text_stops_export ExportShapes.routedWorld 4 0.5
              Standin.fivePages [0; 1; 2; 3; 4]%nat ExportShapes.speechModel)
    as (msg & Hrun & Hmsg).
  - reflexivity.
  - exists (Standin.page EmptyString). split; [|reflexivity].
    cbn. do 3 right. left. reflexivity.
  - rewrite Hrun, Hmsg; [reflexivity|].
    intros input _. eexists. reflexivity.
Defined.

(* ================================================================= *)
(** ** The story route *)

Section StoryRoute.
Import Routes.Story.

Lemma includes_app {a b needle : string} :
  includes b needle = true -> includes (a ++ b) needle = true.
Proof.
  intros H. induction a as [|c a IH]; cbn; [exact H|].
  rewrite IH. apply orb_true_r.
Qed.

Lemma includes_nonempty {hay : string} :
  includes hay "response_format" = true -> hay <> EmptyString.
Proof.
  intros H ->. vm_compute in H. discriminate.
Qed.

Lemma callApi_sent (jsonParse : string -> Exn + Json)
    (openai : ChatRequest -> Exn + ApiResponse) (p : string) (b : bool) :
  fst (callApi jsonParse openai p b)
  = [if b then payload p else withoutResponseFormat (payload p)].
Proof. reflexivity. Qed.

(** X17: the story route sends nothing to the chat completions API when
    the body has no prompt or an empty one.  Otherwise it sends the request
    in JSON mode, and a second request exactly when the first attempt
    failed with a message that mentions response_format; the second
    request is the first without response_format, and there is no
    third. *)
Theorem story_route_requests (numToString : float -> string)
    (jsonParse : string -> Exn + Json)
    (openai : ChatRequest -> Exn + ApiResponse) (prompt : option string) :
  let sent := fst (POST numToString jsonParse openai prompt) in
  ((prompt = None \/ prompt = Some EmptyString) /\ sent = [])
  \/ (exists p,
        prompt = Some p /\ p <> EmptyString
        /\ let retried :=
             exists error,
               snd (callApi jsonParse openai p true) = inl error
               /\ includes error "response_format" = true in
           ((sent = [payload p] /\ ~ retried)
            \/ (sent = [payload p; withoutResponseFormat (payload p)]
                /\ retried))
        /\ Forall (fun body =>
                     model body = "gpt-4o-mini"
                     /\ messages body
                        = [ ("system", systemPrompt);
                            ("user",
                             "User prompt: " ++ DQ ++ p ++ DQ
                               ++ ". Generate the story.") ]) sent
        /\ map response_format sent
           = firstn (length sent) [Some "json_object"; None]).
Proof.
  destruct prompt as [[|c p]|]; [left; split; auto | | left; split; auto].
  right. exists (String c p). split; [reflexivity|]. split; [discriminate|].
  set (q := String c p). unfold POST. fold q. cbv zeta.
  destruct (attempts jsonParse openai q) as [sent data] eqn:Hatt.
  cbn [fst]. unfold attempts in Hatt.
  destruct (callApi jsonParse openai q true) as [sent1 first] eqn:Hfirst.
  pose proof (callApi_sent jsonParse openai q true) as Hsent1.
  rewrite Hfirst in Hsent1. cbn in Hsent1. subst sent1.
  destruct first as [error|d]; cbn [snd].
  - destruct (includes error "response_format") eqn:Hinc.
    + destruct (callApi jsonParse openai q false) as [sent2 second]
        eqn:Hsecond.
      pose proof (callApi_sent jsonParse openai q false) as Hsent2.
      rewrite Hsecond in Hsent2. cbn in Hsent2. subst sent2.
      injection Hatt as <- _.
      cbn [app]. split; [right; split; eauto|].
      split; [repeat constructor | reflexivity].
    + injection Hatt as <- _. split.
      * left. split; [reflexivity|]. intros (e & [= <-] & He). congruence.
      * split; [repeat constructor | reflexivity].
  - injection Hatt as <- _. split.
    + left. split; [reflexivity|]. intros (e & He & _). discriminate.
    + split; [repeat constructor | reflexivity].
Qed.

(** What one call makes of the API's answer. *)
Lemma callApi_outcome (jsonParse : string -> Exn + Json)
    (openai : ChatRequest -> Exn + ApiResponse) (p : string) (b : bool) :
  snd (callApi jsonParse openai p b)
  = match
      openai (if b then payload p else withoutResponseFormat (payload p))
    with
    | inl err => inl err
    | inr apiResponse =>
        if apiOk apiResponse then jsonParse (apiText apiResponse)
        else inl ("OpenAI API error " ++ natToString (apiStatus apiResponse)
                    ++ ": "
                    ++ orElse (apiText apiResponse)
                         (apiStatusText apiResponse))
    end.
Proof. reflexivity. Qed.

(** X18: when the API refuses the first request with a status that is
    not ok and a body that mentions response_format, the story route
    asks again without response_format, and its answer is the one it
    would have given had it never asked for JSON mode. *)
Theorem rejected_json_mode_is_retried (numToString : float -> string)
    (jsonParse : string -> Exn + Json)
    (openai : ChatRequest -> Exn + ApiResponse)
    (p : string) (refusal : ApiResponse) :
  p <> EmptyString ->
  openai (payload p) = inr refusal ->
  apiOk refusal = false ->
  includes (apiText refusal) "response_format" = true ->
  fst (POST numToString jsonParse openai (Some p))
  = [payload p; withoutResponseFormat (payload p)]
  /\ snd (POST numToString jsonParse openai (Some p))
     = snd (POST numToString jsonParse
              (fun body => openai (withoutResponseFormat body)) (Some p)).
Proof.
  intros Hp Hfirst Hok Hinc.
  destruct p as [|c p]; [contradiction|]. set (q := String c p) in *.
  assert (Hmsg : includes
                   ("OpenAI API error " ++ natToString (apiStatus refusal)
                      ++ ": "
                      ++ orElse (apiText refusal) (apiStatusText refusal))
                   "response_format" = true).
  { do 3 apply includes_app.
    pose proof (includes_nonempty Hinc) as Hne.
    destruct (apiText refusal); [contradiction | exact Hinc]. }
  unfold POST. fold q. cbv zeta.
  destruct (attempts jsonParse openai q) as [sent data] eqn:Hatt.
  destruct (attempts jsonParse
              (fun body => openai (withoutResponseFormat body)) q)
    as [sent' data'] eqn:Hatt'.
  cbn [fst snd].
  unfold attempts, callApi in Hatt, Hatt'. cbv zeta in Hatt, Hatt'.
  rewrite Hfirst, Hok, Hmsg in Hatt.
  injection Hatt as <- <-.
  split; [reflexivity|].
  change (withoutResponseFormat (withoutResponseFormat (payload q)))
    with (withoutResponseFormat (payload q)) in Hatt'.
  destruct (openai (withoutResponseFormat (payload q))) as [err|r].
  - destruct (includes err "response_format"); injection Hatt' as _ <-;
      reflexivity.
  - destruct (apiOk r).
    + destruct (jsonParse (apiText r)) as [err|d].
      * destruct (includes err "response_format"); injection Hatt' as _ <-;
          reflexivity.
      * injection Hatt' as _ <-. reflexivity.
    + match type of Hatt' with
      | context [includes ?msg "response_format"] =>
          destruct (includes msg "response_format")
      end; injection Hatt' as _ <-; reflexivity.
Qed.

Lemma rejected_json_mode_is_retried_example :
  fst (POST Standin.showNumber RouteShapes.jsonParse RouteShapes.strictApi
         (Some "a fox"))
  = [payload "a fox"; withoutResponseFormat (payload "a fox")]
  /\ snd (POST Standin.showNumber RouteShapes.jsonParse
            RouteShapes.strictApi (Some "a fox"))
     = Routes.mkHttpResponse 200%nat [] (Story (JArray [])).
Proof.
  destruct (rejected_json_mode_is_retried Standin.showNumber
              RouteShapes.jsonParse RouteShapes.strictApi "a fox"
              (mkApiResponse false 400 "Bad Request"
                 "Unknown parameter: response_format"))
    as [Hsent Hanswer].
  - discriminate.
  - reflexivity.
  - reflexivity.
  - vm_compute. reflexivity.
  - split; [exact Hsent|]. rewrite Hanswer. vm_compute. reflexivity.
Defined.

Lemma content_without_choices (data : Json) :
  data <> JNull ->
  prop data Choices = None \/ prop data Choices = Some (JArray []) ->
  content data = inr (JString EmptyString).
Proof.
  intros Hdata Hchoices. unfold content.
  destruct Hchoices as [-> | ->]; destruct data; try reflexivity;
    contradiction.
Qed.

(** X19: when the API answers the first request with a completion that
    has no choices, or an empty list of them, and [JSON.parse] rejects the
    empty string, the story route answers 500 "Model did not return valid
    JSON" after that one request. *)
Theorem completion_without_choices_is_an_error
    (numToString : float -> string) (jsonParse : string -> Exn + Json)
    (openai : ChatRequest -> Exn + ApiResponse)
    (p : string) (answer : ApiResponse) (data : Json) :
  p <> EmptyString ->
  (exists err, jsonParse EmptyString = inl err) ->
  openai (payload p) = inr answer ->
  apiOk answer = true ->
  jsonParse (apiText answer) = inr data ->
  data <> JNull ->
  prop data Choices = None \/ prop data Choices = Some (JArray []) ->
  POST numToString jsonParse openai (Some p)
  = ([payload p],
     Routes.mkHttpResponse 500%nat [] (Error "Model did not return valid JSON")).
Proof.
  intros Hp (err & Hempty) Hfirst Hok Hdata Hnull Hchoices.
  destruct p as [|c p]; [contradiction|]. set (q := String c p) in *.
  unfold POST. fold q. unfold attempts, callApi. cbv zeta.
  rewrite Hfirst, Hok, Hdata. unfold parsed.
  rewrite (content_without_choices data Hnull Hchoices).
  cbn [toString]. rewrite Hempty. reflexivity.
Qed.

Lemma completion_without_choices_is_an_error_example :
  POST Standin.showNumber RouteShapes.jsonParse RouteShapes.silentApi
    (Some "a fox")
  = ([payload "a fox"],
     Routes.mkHttpResponse 500%nat [] (Error "Model did not return valid JSON")).
Proof.
  apply (completion_without_choices_is_an_error Standin.showNumber
           RouteShapes.jsonParse RouteShapes.silentApi "a fox"
           (mkApiResponse true 200 "OK" RouteShapes.emptyText)
           RouteShapes.empty).
  - discriminate.
  - exists "Unexpected end of JSON input". reflexivity.
  - reflexivity.
  - reflexivity.
  - reflexivity.
  - discriminate.
  - right. reflexivity.
Defined.

End StoryRoute.
